(* ===== verification/_CoqProject ===== *)
-Q . S2P
Prelude.v
GoStrings.v
FilePath.v
CleanRef.v
Naming.v
Proc.v
Dbus.v
Controller.v
Protocol.v
Manager.v
Runs.v
Pool.v
PoolEffect.v
PoolOrder.v
PoolSerial.v
