(* ===== verification/Prelude.v ===== *)
(** * Verification of the systemd cgroup controller (containerd/cgroups, systemd.go)

    The program under verification is the file
    [src/vendor/github.com/containerd/cgroups/systemd.go]: the controller that
    maps a cgroup path to a systemd transient unit, asks systemd over D-Bus to
    start or stop that unit, and waits for the completion value of the job.

    ** The parts of the program and the files that model them

    - [Prelude] (this file): Go values shared by every component. A Go
      [string] is an immutable sequence of bytes and is modelled as
      [gostring], a list of bytes, with literals in [go_scope]; the slice
      expression [s[i:j]] and the index expression [s[i]] are [go_slice] and
      [go_index]. A Go [error] is [error]; a pair [(T, error)] returned by a
      function is [result T], a function that returns [error] returns
      [option error] (nil is [None]). The file also holds the sequences of
      steps of a labelled step relation ([lsteps]), the tactics, the hint
      databases and the list lemmas the other files share (filters, partial
      maps over lists, sums).
    - [GoStrings]: the functions of packages [strings] and [fmt] that the
      source calls ([strings.HasSuffix], [strings.TrimSuffix], [strings.Join],
      and [fmt.Sprintf] for the verb [%s]), written from the Go library's
      code.
    - [FilePath]: the functions of package [path/filepath] that the source
      calls, for the Unix separator: [filepath.Split] as its backwards
      scanning loop, [filepath.Clean] as its byte loop over a write buffer
      with the [dotdot] barrier, [filepath.Join].
    - [CleanRef]: a reference definition of [filepath.Clean] on path
      elements, used as the specification of the byte loop: [split_sep]
      cuts a path at its separators, [clean_push] pushes one element on the
      stack of the elements kept (an empty or [.] element is dropped, [..]
      pops a normal element, is dropped at the root and kept otherwise),
      [render] joins the stack, [clean_ref] is the result. [clean_path] is
      the shape of the results.
    - [Naming]: the naming translator of the source: [SystemdDbus],
      [defaultSlice], [unitName], [splitName] and [Slice] (the path
      generator, a closure of type [Path]); [group_of] names the default of
      the parent group in [Slice], [splitName_ref] is the reference
      definition of [splitName] on path elements.
    - [Proc]: Go function bodies with effects as finite command trees
      [proc Op T] over an interface of operations, with sequencing and
      [defer]; [exec] gives the executions of a tree against an arbitrary
      environment (a trace of events and the returned value), [run] its run
      against a machine that answers the operations, which may block, and
      [pool_step] the interleaved steps of a pool of trees (goroutines) on
      one machine, with [project] the events of one tree among them. The
      two interfaces are the classes [Events] and [Machine]. Trees are
      compared up to [proc_equiv] (the same operations,
      equivalent continuations), an equivalence that sequencing, [exec] and
      [run] respect.
    - [Dbus]: what the controller consumes: D-Bus variants and properties
      ([dbus.MakeVariant], [systemdDbus.PropDescription],
      [systemdDbus.PropWants]), the operations [Op] ([systemdDbus.New],
      [Close], [make(chan string)], [StartTransientUnit], [StopUnit], the
      receive), their events, and the observations on traces (requests
      issued, values received, connections open).
    - [Controller]: the delegating controller: the record
      [SystemdController] with its mutex and root, [NewSystemd],
      [newProperty], the methods [SystemdController.Name],
      [SystemdController.Create] and [SystemdController.Delete] as command
      trees that follow the source statement by statement (early returns and
      the deferred [Close] included), and the constructor [Systemd] of the
      subsystem list, whose two collaborators ([v1MountPoint], [defaults])
      are parameters.
    - [Protocol]: the specification of one call as the set [call_trace] of
      its traces, the requests [Create_request] and [Delete_request], and the
      calls as data ([method], [method_proc], [method_request]).
    - [Manager]: a model of the service manager behind the operations: its
      state [World] (open connections, loaded units, accepted jobs with the
      channel registered for each, the jobs superseded), one function per
      operation ([manager_run]), the decisions of systemd as a record [Env],
      the invariant [wf_world]. A request in mode [replace] supersedes the
      jobs queued for its unit ([superseded_by]); the result delivered for a
      job ([job_result]) is [canceled] when the job is superseded and the
      decision of the environment otherwise.
    - [Runs]: the runs of [Create], [Delete] and of sequences of calls
      ([calls]) against the manager.
    - [Pool]: concurrent callers: the program points of a call ([phase]),
      the step of a call at a program point ([phase_step]), the pool of
      phases ([threads_step]) with its invariant [pool_inv], and the pool of
      the command trees of the calls ([calls_pool]).
    - [PoolEffect]: what the calls of a pool hold and change: the
      connection and the job a thread holds ([thread_conn], [thread_job]),
      the connections and jobs of the manager that no thread holds
      ([free_conns], [free_jobs]), the jobs whose results the steps of a
      pool deliver ([completion]) and their effect on the units
      ([apply_jobs]).
    - [PoolOrder]: the order in which concurrent requests take effect: the
      requests accepted along the steps of a pool ([accepted]), the abstract
      units in which every request takes effect when it is accepted
      ([units_of]), the threads whose job is queued and not superseded
      ([live]), the invariant [order_inv] that relates the units of the
      manager to the abstract units, the calls that returned nil
      ([succeeded]).
    - [PoolSerial]: the pool against the sequential caller of [Runs]:
      [phase_error] is the error a call is going to return, and the file
      relates a pool whose calls have returned to the run of [calls] on the
      same calls in the order of acceptance.

    ** What the theorems show

    - Naming ([Naming]): [unitName] appends the suffix and trimming recovers
      the name; [splitName] inverts the join of a group and a unit name and
      is characterised on every path; it strips one separator only; [Slice]
      with an empty group uses the default group; for a clean relative group
      and a bare name the generated path is [group/name.slice], which
      [splitName] splits back; a name [../<name>] leaves a group of one
      element.
      On every group and every name: the path that [Slice] returns is the
      reference normal form [clean_ref] of [group/name.slice], it is a
      [clean_path] that [filepath.Clean] leaves unchanged, it is not empty
      and not longer than the group, a separator, the name and the suffix,
      and its last element is the unit name of the last element of the name.
      On every path [splitName] equals its reference definition on path
      elements.
    - Library loops ([GoStrings], [FilePath]): [strings.HasSuffix] decides
      the suffix relation; the scanning loop of [filepath.Split] equals the
      reference split at the last separator; [filepath.Clean] and
      [filepath.Join] leave a clean relative path unchanged.
    - The byte loop of [filepath.Clean] against its reference ([CleanRef]):
      at the start of an element the state of the loop is the rendering of a
      stack of elements, and one iteration is one [clean_push]
      ([clean_step_token]); hence [Clean path = clean_ref path] for every
      path ([Clean_clean_ref]). From the reference: the result is a
      [clean_path], [Clean] is the identity on clean paths and idempotent,
      the result is never empty and never longer than the path.
    - The call protocol ([Protocol]): against every environment the
      executions of [Create] and [Delete] are exactly the traces of
      [call_trace] for the request of the call (a refinement in both
      directions). From the specification: one connection attempt, at most
      one request, an error exactly when the connection or the submission
      fails (without waiting), nil exactly after one completion value
      received on the channel given with the accepted request, the connection
      closed on every path and used only while open. The request of [Create]
      carries the seven properties; both methods name the unit by the last
      path element as it is, without the suffix; for a path made by [Slice]
      that element is the unit name of the last element of the name.
    - The subsystem list ([Controller]): [Systemd] returns the systemd
      controller first, then the default subsystems in order, and fails
      exactly when one of its collaborators fails.
    - Runs ([Manager], [Runs]): every operation preserves [wf_world]. From a
      well-formed state a call returns whenever the manager answers its job,
      and stalls in the receive when it does not (there is no timeout); a
      call that returns leaves the connections and the job table as it found
      them and keeps the invariant; an error leaves the units unchanged; with
      a job that ends with [done], [Create] loads the unit with its
      properties and [Delete] unloads it ([call_changes_unit]); the result of
      the job is not
      inspected, so a failed job also returns nil. For sequences of calls:
      the loaded units are the abstract effect [units_after] of the requests
      (a functional refinement), and [Create] followed by [Delete] restores
      the units.
    - Concurrent calls ([Pool]): the pool of the command trees of the calls
      is simulated by the pool of phases (each tree is equivalent to the rest
      of the call from the phase of its thread). The invariant [pool_inv]
      (the manager state is well formed, no channel is registered for two
      jobs, every thread's connection is open, its channel made and its job
      in the table, no two threads share a connection or a channel) holds in
      every reachable state. From it: a call receives the result of its own
      job, a call that has not returned can always take its next step when
      the manager answers, every interleaving of [n] calls ends within
      [5 * n] steps. The calls are not serialized: a [Create] and a [Delete]
      of the same path leave the unit loaded or not, by the interleaving
      ([Create_Delete_race]). Against every environment, the events of one
      call among the steps of a pool are a trace of the call protocol
      ([pool_call_follows_protocol], from [pool_steps_project] of [Proc]):
      what [Protocol] shows of the trace of a call holds of every call of a
      pool.
    - What concurrent calls hold and change ([PoolEffect]): every step of
      the pool leaves the connections and the jobs that no thread holds as
      they are, so that a pool whose calls have all returned leaves the
      connections and the jobs of the manager as it found them; the units
      change only at a receive, by the effect of the job of the receiving
      call, so that the units a pool leaves are the effects of the received
      jobs in the order of the receives; against a manager that answers,
      every reachable pool can be run until all its calls have returned. A
      caller that makes its calls one after the other ([calls]) is one
      interleaving of the pool.
    - The order of concurrent requests ([PoolOrder]): both methods submit in
      mode [replace], so for each unit at most one job of the pool is queued
      and not superseded, the job of the last request accepted for the unit.
      The invariant [order_inv] holds in every state a pool reaches against
      a manager whose jobs end with [done]: the unit of a live thread is in
      the abstract units as its request leaves it, no two live threads have
      the same unit, and a unit without live thread is in the manager as it
      is in the abstract units. From it: when every call has returned, the
      units are those of the accepted requests executed in the order of their
      submissions, whatever the order of the receives (a refinement of the
      abstract units); a call receives [done] when no request for its unit is
      accepted between the acceptance of its own and its receive, and
      [canceled] when one is (it returns nil all the same, as the value is
      not inspected); when the requests name pairwise different units the
      order does not matter, and the pool leaves the units that the calls
      that returned nil leave when made one after the other.
    - Serializability ([PoolSerial]): against a manager that accepts every
      connection and every request and whose jobs end with [done], no step
      of a call leads to an error, so every call of a pool that has run to
      its end has returned nil; the calls in the order in which their
      requests were accepted, made one after the other from the same state,
      return nil as well and leave the same units, connections and jobs
      ([pool_serializable]). The acceptance of its request is the point at
      which a call takes effect.

    ** Bounds and fuel

    The loop of [filepath.Clean] runs with fuel [S (length path)]. Every
    iteration advances the read index ([filepath.clean_step_advances]), so
    the loop ends by its own condition within that fuel
    ([filepath.Clean_loop_ends]) and more fuel does not change the result
    ([filepath.clean_loop_fuel]); the inner copy loop gets the number of bytes
    left as fuel. The reference run [clean_run] of [CleanRef] is the loop
    with that fuel, and [Clean_clean_ref] holds for paths of every length.
    The scanning loop of [filepath.Split] recurses on the index. Command
    trees are finite; [run] recurses on the tree and returns [Blocked] when
    the machine does not answer an operation; a call has at most five
    operations, which bounds the interleavings; the steps that complete a
    pool are found by recursion on the number of steps left ([5 * n] minus
    the steps taken). Handles of connections and channels are natural
    numbers, job ids are integers; nothing in the source computes on machine
    integers.

    ** What is not modelled

    The D-Bus transport and the dispatch of signals inside the go-systemd
    library are behind the operations of [Dbus]; systemd is the model of
    [Manager], written from the specification, without unit dependencies and
    the cgroup file system. Three choices of that model shape the theorems
    on the units and on the results received ([PoolEffect], [PoolOrder],
    [PoolSerial]), which are exact relative to it. The effect of a job is
    applied when its result is received. A job can be superseded while it is
    queued, that is, until its result is received: the time a job takes to
    run is not modelled, and a real manager may finish a job before a later
    request for its unit arrives, in which case the earlier call receives
    [done]. A request in mode [replace] supersedes every queued job of its
    unit, also a job of the same type, which systemd would merge with the
    new one. Of the submission modes only [replace], the one the source
    uses, has a meaning in the manager: a request in another mode supersedes
    nothing. The source discards the value it receives, so the result
    [canceled] is an observation on the manager, not on what a call returns.
    Serializability is stated for an environment that accepts every
    connection and every request: the decisions of an [Env] depend on the
    state, so a call that is rejected in one order of the calls need not be
    rejected in another. The bound on the steps of a pool counts the
    operations performed: a call that waits for a manager that never answers
    performs no further operation. Concurrent callers interleave at the
    granularity of one operation on the control channel; the mutex field is
    carried in the record and, as no method of the source locks it, there is
    no lock operation. Discovery of the cgroup mount point and the other
    subsystems are parameters of [Systemd]; the resource limits are an
    opaque type parameter, which [Create] never reads. [filepath.Clean] is
    modelled for the Unix separator, without volume names. Every statement
    of systemd.go is modelled; the lines of the file that no definition
    covers are the package clause, the imports and blank lines. *)

From Stdlib Require Import Ascii.
From stdpp Require Export base tactics option list.
From stdpp Require Export strings.

(** This file: Go strings, errors and results, shared tactics, hint
    databases and list lemmas. *)

(** ** Go strings *)

(** The carrier of the string notation: a copy of byte lists that the
    notation machinery can pattern-match on. *)
Inductive gobytes : Set :=
| gobytes_nil : gobytes
| gobytes_cons (b : ascii) (s : gobytes) : gobytes.

Fixpoint gobytes_of_bytes (l : list Byte.byte) : gobytes :=
  match l with
  | [] => gobytes_nil
  | b :: l => gobytes_cons (ascii_of_byte b) (gobytes_of_bytes l)
  end.

Fixpoint bytes_of_gobytes (s : gobytes) : list Byte.byte :=
  match s with
  | gobytes_nil => []
  | gobytes_cons b s => byte_of_ascii b :: bytes_of_gobytes s
  end.

(** The type at which the string notation is declared. *)
Definition gostring_literal : Set := list ascii.

Declare Scope go_scope.
Delimit Scope go_scope with go.

#[warnings="-via-type-remapping,-via-type-mismatch"]
String Notation gostring_literal gobytes_of_bytes bytes_of_gobytes
  (via gobytes mapping [[nil] => gobytes_nil, [cons] => gobytes_cons]) : go_scope.

(** A Go string: a read-only sequence of bytes. It is an abbreviation, so
    that the list lemmas and the type class instances of lists apply as they
    are. *)
Abbreviation gostring := (list ascii) (only parsing).

(** [s[i:j]] for [i <= j <= len(s)]; Go panics outside that range, and every
    use in the modelled code is guarded. *)
Definition go_slice (s : gostring) (i j : nat) : gostring := drop i (take j s).

(** [s[i]]; [None] stands for the run-time panic on an index out of range. *)
Definition go_index (s : gostring) (i : nat) : option ascii := s !! i.

(** ** Errors and results *)

(** A Go [error] value that is not nil. The code under verification only
    tests errors against nil and hands them on, so the message is all the
    model keeps. *)
Variant error : Set := errorString (msg : gostring).

(** The pair [(T, error)] a Go function returns, with the convention that
    the value is meaningful only when the error is nil. *)
Variant result (T : Type) : Type :=
| Ok (v : T)
| Err (e : error).
Arguments Ok {T} v.
Arguments Err {T} e.

Definition result_bind {A B : Type} (r : result A) (k : A → result B) : result B :=
  match r with
  | Ok v => k v
  | Err e => Err e
  end.

Definition result_map {A B : Type} (f : A → B) (r : result A) : result B :=
  match r with
  | Ok v => Ok (f v)
  | Err e => Err e
  end.

Definition is_Ok {T : Type} (r : result T) : bool :=
  match r with Ok _ => true | Err _ => false end.

(** The error a function of type [error] returns after a call that yields
    [r]: nil on success. *)
Definition result_error {T : Type} (r : result T) : option error :=
  match r with Ok _ => None | Err e => Some e end.

(** [result] is a monad in stdpp's sense: [x ← r; k] is [result_bind]. *)
#[global] Instance result_ret : MRet result := λ A, Ok.
#[global] Instance result_mbind : MBind result := λ A B k r, result_bind r k.
#[global] Instance result_fmap : FMap result := λ A B, result_map.

#[global] Instance error_eq_dec : EqDecision error.
Proof. solve_decision. Defined.

#[global] Instance result_eq_dec {T : Type} `{EqDecision T} : EqDecision (result T).
Proof. solve_decision. Defined.

(** ** Labelled steps *)

(** The sequences of steps of a labelled step relation, with the list of
    their labels. *)
Inductive lsteps {C L : Type} (R : C → L → C → Prop) : C → list L → C → Prop :=
| lsteps_nil c : lsteps R c [] c
| lsteps_cons c1 l c2 ls c3 :
    R c1 l c2 → lsteps R c2 ls c3 → lsteps R c1 (l :: ls) c3.

(** ** Hint databases and tactics *)

(** [golist]: rewriting rules that normalise lengths and slices of
    concatenations. [go]: resolution hints of the development. *)
Create HintDb go discriminated.
Create Rewrite HintDb golist.

#[export] Hint Rewrite @length_app @length_take @length_drop @length_cons
  @length_nil @length_reverse : golist.
#[export] Hint Rewrite @take_app_length @drop_app_length @app_nil_r @app_nil_l
  @take_0 @drop_0 @take_nil @drop_nil : golist.

(** Normalise list expressions and close the arithmetic side goals. *)
Ltac list_simp :=
  repeat (progress (autorewrite with golist in *; simpl in * ));
  try done; try lia.

(** Invert a hypothesis, substitute and forget it. *)
Ltac invert H := inversion H; clear H; simplify_eq.

(** Case analysis on the first [bool_decide], [decide] or boolean test of
    the goal. *)
Ltac case_test :=
  match goal with
  | |- context [bool_decide ?P] => destruct (bool_decide_reflect P)
  | |- context [decide ?P] => destruct (decide P)
  | |- context [if ?b then _ else _] => destruct b eqn:?
  end.

(** Case analysis on the scrutinee of the first [match] on a result or an
    option in the goal. *)
Ltac case_result :=
  match goal with
  | |- context [match ?r with Ok _ => _ | Err _ => _ end] => destruct r eqn:?
  | |- context [match ?o with Some _ => _ | None => _ end] => destruct o eqn:?
  end.

(** ** Lemmas on results *)

Section result_lemmas.
Context {A B : Type}.
Implicit Types (r : result A) (k : A → result B).

Lemma result_bind_Ok r k v :
  result_bind r k = Ok v ↔ ∃ a, r = Ok a ∧ k a = Ok v.
Proof.
  destruct r as [a|e]; simpl; split.
  - by exists a.
  - by intros (? & [= ->] & ?).
  - done.
  - by intros (? & ? & ?).
Qed.

Lemma result_bind_Err r k e :
  result_bind r k = Err e ↔ r = Err e ∨ ∃ a, r = Ok a ∧ k a = Err e.
Proof.
  destruct r as [a|e']; simpl; split.
  - right. by exists a.
  - by intros [?|(? & [= ->] & ?)].
  - intros [= ->]. by left.
  - by intros [[= ->]|(? & ? & ?)].
Qed.

Lemma result_error_None r : result_error r = None ↔ ∃ v, r = Ok v.
Proof. destruct r as [a|e]; simpl; split; [by exists a|done|done|by intros [? ?]]. Qed.

Lemma result_error_Some r e : result_error r = Some e ↔ r = Err e.
Proof. destruct r; simpl; split; by intros [= ->]. Qed.

Lemma result_map_Ok (f : A → B) r w :
  result_map f r = Ok w ↔ ∃ v, r = Ok v ∧ w = f v.
Proof.
  destruct r as [a|e]; simpl; split.
  - intros [= <-]. by exists a.
  - by intros (? & [= ->] & ->).
  - done.
  - by intros (? & ? & ?).
Qed.

End result_lemmas.

#[export] Hint Rewrite @result_error_Some : golist.

(** ** Lemmas on byte lists *)

Section list_lemmas.
Context {A : Type}.
Implicit Types (l k s : list A) (x : A) (i n : nat).

(** The suffix relation as Go tests it: compare the last [length k]
    elements. *)
Lemma suffix_drop_iff k l :
  k `suffix_of` l ↔ length k ≤ length l ∧ drop (length l - length k) l = k.
Proof.
  split.
  - intros [p ->]. rewrite length_app. split; [lia|].
    by rewrite drop_app_length'; [|lia].
  - intros [_ <-]. apply suffix_drop.
Qed.

Lemma take_app_sub l k : take (length (l ++ k) - length k) (l ++ k) = l.
Proof. rewrite length_app, Nat.add_sub. apply take_app_length. Qed.

Lemma lookup_app_middle l k x : (l ++ x :: k) !! length l = Some x.
Proof. by apply list_lookup_middle. Qed.

Lemma lookup_snoc_length l x : (l ++ [x]) !! length l = Some x.
Proof. apply lookup_app_middle. Qed.

Lemma drop_S_lookup l i x : l !! i = Some x → drop i l = x :: drop (S i) l.
Proof. intros H. by rewrite (drop_S _ _ _ H). Qed.

End list_lemmas.

(** Filtering out and finding an element that is new to a list. *)
Section filter_lemmas.
Context {A : Type}.
Implicit Types (l : list A) (x : A).

Lemma filter_Forall_id (P : A → Prop) `{!∀ x, Decision (P x)} l :
  Forall P l → filter P l = l.
Proof.
  induction 1 as [|x l Hx _ IH]; [done|]. by rewrite filter_cons_True, IH.
Qed.

Context `{!EqDecision A}.

(** Removing an element that occurs once, at the head or at the end. *)
Lemma filter_ne_cons_fresh x l : x ∉ l → filter (λ y, y ≠ x) (x :: l) = l.
Proof.
  intros Hx. rewrite filter_cons_False by (by intros ?).
  apply filter_Forall_id, Forall_forall. by intros y Hy ->.
Qed.

Lemma filter_ne_snoc_fresh x l : x ∉ l → filter (λ y, y ≠ x) (l ++ [x]) = l.
Proof.
  intros Hx. rewrite filter_app, filter_cons_False by (by intros ?).
  rewrite filter_nil, app_nil_r.
  apply filter_Forall_id, Forall_forall. by intros y Hy ->.
Qed.

(** The first element with [P] of a list whose elements do not have it,
    extended by one that has it. *)
Lemma list_find_snoc_fresh (P : A → Prop) `{!∀ x, Decision (P x)} l x :
  Forall (λ y, ¬ P y) l → P x → list_find P (l ++ [x]) = Some (length l, x).
Proof.
  intros Hl Hx. rewrite list_find_app_r by by apply list_find_None.
  simpl. by rewrite decide_True.
Qed.

End filter_lemmas.

(** Slice expressions of a concatenation. *)
Section go_slice_lemmas.
Implicit Types (s l k : gostring).

Lemma go_slice_full s i : go_slice s i (length s) = drop i s.
Proof. unfold go_slice. by rewrite firstn_all. Qed.

Lemma go_slice_prefix s j : go_slice s 0 j = take j s.
Proof. done. Qed.

Lemma go_slice_app_l l k : go_slice (l ++ k) 0 (length l) = l.
Proof. rewrite go_slice_prefix. apply take_app_length. Qed.

Lemma go_slice_app_r l k : go_slice (l ++ k) (length l) (length (l ++ k)) = k.
Proof. rewrite go_slice_full. apply drop_app_length. Qed.

Lemma go_slice_length s i j : j ≤ length s → length (go_slice s i j) = j - i.
Proof. intros. unfold go_slice. rewrite length_drop, length_take. lia. Qed.

End go_slice_lemmas.

(** ** Filters and partial maps over lists *)

Section omap_lemmas.
Context {T A : Type}.

Lemma filter_ext_in (P Q : A → Prop) `{!∀ x, Decision (P x), !∀ x, Decision (Q x)}
    (l : list A) :
  (∀ x, x ∈ l → P x ↔ Q x) → filter P l = filter Q l.
Proof.
  induction l as [|x l IH]; intros Hext; [done|].
  rewrite !filter_cons, IH by (intros y Hy; apply Hext; by right).
  pose proof (Hext x (list_elem_of_here _ _)) as Hx.
  destruct (decide (P x)), (decide (Q x)); tauto || done.
Qed.

(** Replacing an element of a list by one with the same image, or by one
    with an image where the old one had none. *)
Lemma omap_insert_same (f : T → option A) (ths : list T) k t t' :
  ths !! k = Some t → f t' = f t → omap f (<[k := t']> ths) = omap f ths.
Proof.
  revert k. induction ths as [|t0 ths IH]; intros [|k] Hk Heq; simplify_eq/=; csimpl.
  - by rewrite Heq.
  - by rewrite (IH k).
Qed.

Lemma omap_insert_acquire (f : T → option A) (ths : list T) k t t' x :
  ths !! k = Some t → f t = None → f t' = Some x →
  omap f (<[k := t']> ths) ≡ₚ x :: omap f ths.
Proof.
  revert k. induction ths as [|t0 ths IH]; intros [|k] Hk Ht Ht'; simplify_eq/=; csimpl.
  - by rewrite ?Ht, ?Ht'.
  - destruct (f t0); rewrite (IH k) by done; [apply Permutation_swap|done].
Qed.

End omap_lemmas.

(** ** Lemmas on labelled steps *)

Section lsteps_lemmas.
Context {C L : Type} (R : C → L → C → Prop).

(** An invariant of the steps holds after any number of them. *)
Lemma lsteps_invariant (I : C → Prop) c ls c' :
  (∀ c1 l c2, I c1 → R c1 l c2 → I c2) → lsteps R c ls c' → I c → I c'.
Proof. intros Hstep. induction 1; eauto. Qed.

Lemma lsteps_app c1 ls1 c2 ls2 c3 :
  lsteps R c1 ls1 c2 → lsteps R c2 ls2 c3 → lsteps R c1 (ls1 ++ ls2) c3.
Proof. induction 1; [done|]. intros. simpl. econstructor; eauto. Qed.

Lemma lsteps_one c l c' : R c l c' → lsteps R c [l] c'.
Proof. intros. econstructor; [done|constructor]. Qed.

Lemma lsteps_cons_inv c1 l ls c3 :
  lsteps R c1 (l :: ls) c3 → ∃ c2, R c1 l c2 ∧ lsteps R c2 ls c3.
Proof. inversion 1; eauto. Qed.

Lemma lsteps_one_inv c l c' : lsteps R c [l] c' → R c l c'.
Proof. intros (c2 & Hstep & Hnil)%lsteps_cons_inv. by inversion Hnil; subst. Qed.

(** Steps along a concatenation pass through a state in the middle. *)
Lemma lsteps_app_inv c1 ls1 ls2 c3 :
  lsteps R c1 (ls1 ++ ls2) c3 → ∃ c2, lsteps R c1 ls1 c2 ∧ lsteps R c2 ls2 c3.
Proof.
  revert c1. induction ls1 as [|l ls1 IH]; intros c1; simpl.
  { intros. exists c1. split; [constructor|done]. }
  intros (c & Hstep & (c2 & H1 & H2)%IH)%lsteps_cons_inv.
  exists c2. split; [by econstructor|done].
Qed.

(** A measure that every step decreases bounds the number of steps. *)
Lemma lsteps_measure (m : C → nat) c ls c' :
  (∀ c1 l c2, R c1 l c2 → m c2 < m c1) →
  lsteps R c ls c' → length ls + m c' ≤ m c.
Proof.
  intros Hstep. induction 1 as [|c1 l c2 ls c3 H1 _ IH]; simpl; [lia|].
  apply Hstep in H1. lia.
Qed.

End lsteps_lemmas.

(** A permutation of the images of a list is the images of a permutation
    of the list. *)
Lemma Permutation_fmap_inv {A B} (f : A → B) (l : list A) (k : list B) :
  k ≡ₚ f <$> l → ∃ l', k = f <$> l' ∧ l ≡ₚ l'.
Proof.
  assert (∀ l : list A, f <$> l = map f l) as Hmap by (intros l0; by induction l0).
  rewrite Hmap. intros (l' & -> & Hp)%Permutation_map_inv. by exists l'.
Qed.

(** Elements of a list with distinct images are equal when their images
    are. *)
Lemma NoDup_fmap_eq {A B} (f : A → B) (l : list A) x y :
  NoDup (f <$> l) → x ∈ l → y ∈ l → f x = f y → x = y.
Proof.
  induction l as [|a l IH]; [by intros _ ?%elem_of_nil|].
  rewrite fmap_cons, NoDup_cons. intros [Ha Hl] Hx Hy Hf.
  apply elem_of_cons in Hx as [->|Hx]; apply elem_of_cons in Hy as [->|Hy];
    [done| | |by apply IH].
  - destruct Ha. rewrite Hf. by apply list_elem_of_fmap_2.
  - destruct Ha. rewrite <- Hf. by apply list_elem_of_fmap_2.
Qed.

(** Replacing an element of a list changes the sum of a measure by the
    difference of the measures of the two elements. *)
Lemma sum_list_insert {A} (f : A → nat) (l : list A) i x y :
  l !! i = Some x →
  sum_list (f <$> <[i := y]> l) + f x = sum_list (f <$> l) + f y.
Proof.
  revert i. induction l as [|a l IH]; intros [|i]; csimpl; try done.
  - intros [= ->]. lia.
  - intros Hi. specialize (IH i Hi). lia.
Qed.

Lemma sum_list_insert_lt {A} (f : A → nat) (l : list A) i x y :
  l !! i = Some x → f y < f x →
  sum_list (f <$> <[i := y]> l) < sum_list (f <$> l).
Proof. intros Hi Hlt. pose proof (sum_list_insert f l i x y Hi). lia. Qed.
