(* ===== verification/GoStrings.v ===== *)
(** Packages [strings] and [fmt] of the Go library, as far as systemd.go
    calls them: [strings.HasSuffix], [strings.TrimSuffix], [strings.Join] and
    [fmt.Sprintf] at the format strings of the source. Each definition follows
    the library's code; the lemmas relate it to list operations. *)

From Stdlib Require Import Ascii.
From S2P Require Import Prelude.

#[local] Open Scope go_scope.

Module strings.

(** [func HasSuffix(s, suffix string) bool {
       return len(s) >= len(suffix) && s[len(s)-len(suffix):] == suffix }] *)
Definition HasSuffix (s suffix : gostring) : bool :=
  bool_decide (length suffix ≤ length s)
  && bool_decide (go_slice s (length s - length suffix) (length s) = suffix).

(** [func TrimSuffix(s, suffix string) string {
       if HasSuffix(s, suffix) { return s[:len(s)-len(suffix)] }
       return s }] *)
Definition TrimSuffix (s suffix : gostring) : gostring :=
  if HasSuffix s suffix then go_slice s 0 (length s - length suffix) else s.

(** [func Join(elems []string, sep string) string]: the elements with [sep]
    between consecutive ones. *)
Fixpoint Join (elems : list gostring) (sep : gostring) : gostring :=
  match elems with
  | [] => []
  | [e] => e
  | e :: rest => e ++ sep ++ Join rest sep
  end.

Lemma HasSuffix_spec s suffix : HasSuffix s suffix = true ↔ suffix `suffix_of` s.
Proof.
  unfold HasSuffix. rewrite go_slice_full, andb_true_iff, !bool_decide_eq_true.
  symmetry. apply suffix_drop_iff.
Qed.

Lemma HasSuffix_app s suffix : HasSuffix (s ++ suffix) suffix = true.
Proof. apply HasSuffix_spec. by apply suffix_app_r. Qed.

Lemma HasSuffix_false s suffix :
  HasSuffix s suffix = false ↔ ¬ suffix `suffix_of` s.
Proof. rewrite <- HasSuffix_spec. by destruct (HasSuffix s suffix). Qed.

Lemma TrimSuffix_app s suffix : TrimSuffix (s ++ suffix) suffix = s.
Proof.
  unfold TrimSuffix. rewrite HasSuffix_app, go_slice_prefix. apply take_app_sub.
Qed.

Lemma TrimSuffix_no_suffix s suffix :
  ¬ suffix `suffix_of` s → TrimSuffix s suffix = s.
Proof. intros H. unfold TrimSuffix. by apply HasSuffix_false in H as ->. Qed.

(** [TrimSuffix] removes one occurrence of the suffix and no more. *)
Lemma TrimSuffix_spec s suffix :
  (∃ p, s = p ++ suffix ∧ TrimSuffix s suffix = p)
  ∨ (¬ suffix `suffix_of` s ∧ TrimSuffix s suffix = s).
Proof.
  destruct (decide (suffix `suffix_of` s)) as [[p ->]|Hn].
  - left. exists p. by rewrite TrimSuffix_app.
  - right. by rewrite TrimSuffix_no_suffix.
Qed.

Lemma TrimSuffix_length s suffix : length (TrimSuffix s suffix) ≤ length s.
Proof.
  destruct (TrimSuffix_spec s suffix) as [(p & -> & ->)|[_ ->]]; [|done].
  rewrite length_app. lia.
Qed.

Lemma Join_cons e e' rest sep :
  Join (e :: e' :: rest) sep = e ++ sep ++ Join (e' :: rest) sep.
Proof. done. Qed.

Lemma Join_pair a b sep : Join [a; b] sep = a ++ sep ++ b.
Proof. done. Qed.

Lemma Join_snoc elems u sep :
  elems ≠ [] → Join (elems ++ [u]) sep = Join elems sep ++ sep ++ u.
Proof.
  induction elems as [|e [|e' elems] IH]; intros Hne; [done|done|].
  change ((e :: e' :: elems) ++ [u]) with (e :: (e' :: elems) ++ [u]).
  cbn [app]. rewrite !Join_cons. cbn [app] in IH. rewrite IH by done.
  by rewrite <- !(assoc_L (++)).
Qed.

End strings.

Module fmt.

(** The verbs of a format string, for the verbs the source uses. *)
Variant verb : Type :=
| Lit (b : ascii)
| VerbS.

(** Parse a format string: [%s] is the string verb, every other byte stands
    for itself. *)
Fixpoint parse_format (format : gostring) : list verb :=
  match format with
  | [] => []
  | "%"%char :: "s"%char :: rest => VerbS :: parse_format rest
  | b :: rest => Lit b :: parse_format rest
  end.

(** Operands left over when the format is exhausted are reported as
    [%!(EXTRA string=a, string=b)]. *)
Definition print_extra (args : list gostring) : gostring :=
  match args with
  | [] => []
  | _ => "%!(EXTRA " ++ strings.Join ((λ a, "string=" ++ a) <$> args) ", " ++ ")"
  end.

(** Print the verbs; an operand is consumed by each [%s], and a missing
    operand prints as [%!s(MISSING)] as the library does. *)
Fixpoint print_verbs (vs : list verb) (args : list gostring) : gostring :=
  match vs with
  | [] => print_extra args
  | Lit b :: vs => b :: print_verbs vs args
  | VerbS :: vs =>
      match args with
      | a :: args => a ++ print_verbs vs args
      | [] => "%!s(MISSING)" ++ print_verbs vs []
      end
  end.

(** [fmt.Sprintf(format, args...)] for string operands. *)
Definition Sprintf (format : gostring) (args : list gostring) : gostring :=
  print_verbs (parse_format format) args.

Lemma Sprintf_suffix_slice name : Sprintf "%s.slice" [name] = name ++ ".slice".
Proof. done. Qed.

Lemma Sprintf_cgroup name : Sprintf "cgroup %s" [name] = "cgroup " ++ name.
Proof. unfold Sprintf. simpl. by rewrite app_nil_r. Qed.

End fmt.
