(* ===== verification/FilePath.v ===== *)
(** Package [path/filepath] of the Go library for the Unix separator, as far
    as systemd.go calls it: [filepath.Split] (the backwards scan for the last
    separator), [filepath.Clean] (the byte loop that removes empty, [.] and
    [..] elements) and [filepath.Join]. Each loop is a definition that follows
    the library's code. The lemmas show that [Split] computes the reference
    split at the last separator ([split_ref]); that [Clean] and [Join] leave a
    clean relative path ([simple_path]) as it is; and that the loop of
    [Clean] ends by its own condition within the fuel [Clean] gives it. *)

From Stdlib Require Import Ascii.
From S2P Require Import Prelude GoStrings.

#[local] Open Scope go_scope.

Module filepath.

(** [const Separator = os.PathSeparator], which is ['/'] on Unix. *)
Definition Separator : ascii := "/".

(** [os.IsPathSeparator(c)]: [PathSeparator == c]. *)
Definition IsPathSeparator (c : ascii) : bool := bool_decide (c = Separator).

(** ** Split *)

(** The loop of [Split], on [k = i + 1] so that the index stays a natural
    number: [i := len(path) - 1; for i >= 0 && !os.IsPathSeparator(path[i]) { i-- }].
    The result is the final [i + 1]. The index read is always below [k]. *)
Fixpoint split_scan (path : gostring) (k : nat) : nat :=
  match k with
  | 0 => 0
  | S i =>
      match go_index path i with
      | Some c => if IsPathSeparator c then S i else split_scan path i
      | None => split_scan path i
      end
  end.

(** [func Split(path string) (dir, file string)]: [return path[:i+1], path[i+1:]].
    The volume name is empty on Unix. *)
Definition Split (path : gostring) : gostring * gostring :=
  let k := split_scan path (length path) in
  (go_slice path 0 k, go_slice path k (length path)).

(** Reference: split after the last separator, by recursion on the path. *)
Fixpoint split_ref (path : gostring) : gostring * gostring :=
  match path with
  | [] => ([], [])
  | c :: rest =>
      let '(d, f) := split_ref rest in
      if bool_decide (d = []) then
        if IsPathSeparator c then ([c], f) else ([], c :: f)
      else (c :: d, f)
  end.

(** ** Clean *)

(** The state of the loop of [Clean]: the read index [r], the bytes written
    so far (the contents [buf[:w]] of the lazy buffer, so that [w] is the
    length of [cs_out]), and the index [dotdot] below which [..] may not
    remove anything. *)
Record clean_state : Set := CleanState {
  cs_r : nat;
  cs_out : gostring;
  cs_dotdot : nat
}.

(** [r == n || os.IsPathSeparator(path[r])], for [r <= n]. *)
Definition end_or_sep (path : gostring) (r : nat) : bool :=
  match go_index path r with
  | Some c => IsPathSeparator c
  | None => true
  end.

(** [path[r] == c], false at the end of the path. *)
Definition byte_is (path : gostring) (r : nat) (c : ascii) : bool :=
  bool_decide (go_index path r = Some c).

(** The inner loop of the [..] case, after [out.w--]:
    [for out.w > dotdot && !os.IsPathSeparator(out.index(out.w)) { out.w-- }].
    [w] is the current write index; the result is the final one. *)
Fixpoint backtrack (out : gostring) (dotdot : nat) (w : nat) : nat :=
  match w with
  | 0 => 0
  | S w' =>
      if bool_decide (dotdot < w) && negb (end_or_sep out w)
      then backtrack out dotdot w'
      else w
  end.

(** The copy loop of the default case:
    [for ; r < n && !os.IsPathSeparator(path[r]); r++ { out.append(path[r]) }].
    It runs at most [n - r] times, which is the fuel its caller passes. *)
Fixpoint copy_element (fuel : nat) (path : gostring) (r : nat) (out : gostring)
    : nat * gostring :=
  match fuel with
  | 0 => (r, out)
  | S fuel =>
      match go_index path r with
      | Some c =>
          if IsPathSeparator c then (r, out)
          else copy_element fuel path (S r) (out ++ [c])
      | None => (r, out)
      end
  end.

(** The body of the main loop: the [switch] of [Clean], for [r < n]. *)
Definition clean_step (path : gostring) (rooted : bool) (st : clean_state)
    : clean_state :=
  let '(CleanState r out dotdot) := st in
  if end_or_sep path r then
    (* empty path element *)
    CleanState (r + 1) out dotdot
  else if byte_is path r "." && end_or_sep path (r + 1) then
    (* . element *)
    CleanState (r + 1) out dotdot
  else if byte_is path r "." && byte_is path (r + 1) "." && end_or_sep path (r + 2) then
    (* .. element: remove to last separator *)
    if bool_decide (dotdot < length out) then
      (* can backtrack *)
      CleanState (r + 2) (take (backtrack out dotdot (length out - 1)) out) dotdot
    else if negb rooted then
      (* cannot backtrack, but not rooted, so append .. element *)
      let out1 := if bool_decide (0 < length out) then out ++ [Separator] else out in
      let out2 := out1 ++ ".." in
      CleanState (r + 2) out2 (length out2)
    else CleanState (r + 2) out dotdot
  else
    (* real path element: add slash if needed, copy element *)
    let out1 :=
      if (rooted && bool_decide (length out ≠ 1))
         || (negb rooted && bool_decide (length out ≠ 0))
      then out ++ [Separator] else out in
    let '(r', out2) := copy_element (length path - r) path r out1 in
    CleanState r' out2 dotdot.

(** The main loop [for r < n { switch ... }], with fuel. *)
Fixpoint clean_loop (fuel : nat) (path : gostring) (rooted : bool)
    (st : clean_state) : clean_state :=
  match fuel with
  | 0 => st
  | S fuel =>
      if bool_decide (cs_r st < length path)
      then clean_loop fuel path rooted (clean_step path rooted st)
      else st
  end.

(** [func Clean(path string) string]. An empty path becomes ["."]; a rooted
    path starts the buffer with the separator and [r, dotdot = 1, 1]; an empty
    result becomes ["."]. [FromSlash] is the identity on Unix. *)
Definition Clean (path : gostring) : gostring :=
  match path with
  | [] => "."
  | c :: _ =>
      let rooted := IsPathSeparator c in
      let st0 :=
        if rooted then CleanState 1 [Separator] 1 else CleanState 0 [] 0 in
      let out := cs_out (clean_loop (S (length path)) path rooted st0) in
      if bool_decide (length out = 0) then "." else out
  end.

(** ** Join *)

(** [func join(elem []string) string]: the first non-empty element starts the
    joined path, which is then cleaned; all elements empty gives [""]. *)
Fixpoint Join (elem : list gostring) : gostring :=
  match elem with
  | [] => []
  | e :: rest =>
      if bool_decide (e ≠ []) then Clean (strings.Join elem [Separator])
      else Join rest
  end.

(** ** Path elements *)

(** A byte string without separator. *)
Definition no_sep (s : gostring) : Prop := Separator ∉ s.

(** An element that [Clean] keeps: not empty, no separator, neither [.]
    nor [..]. *)
Definition normal_elem (e : gostring) : Prop :=
  e ≠ [] ∧ no_sep e ∧ e ≠ "." ∧ e ≠ "..".

#[global] Instance no_sep_dec s : Decision (no_sep s).
Proof. unfold no_sep. apply _. Defined.

#[global] Instance normal_elem_dec e : Decision (normal_elem e).
Proof. unfold normal_elem. apply _. Defined.

(** A clean relative path: normal elements with one separator between
    consecutive ones. *)
Definition simple_path (p : gostring) : Prop :=
  ∃ elems, elems ≠ [] ∧ Forall normal_elem elems ∧ p = strings.Join elems [Separator].

(** [out] followed by an element, with a separator if [out] is not empty. *)
Definition append_elem (out e : gostring) : gostring :=
  match out with [] => e | _ => out ++ Separator :: e end.

(** ** Theorems on [Split] *)

Lemma IsPathSeparator_true c : IsPathSeparator c = true ↔ c = Separator.
Proof. unfold IsPathSeparator. apply bool_decide_eq_true. Qed.

Lemma IsPathSeparator_false c : IsPathSeparator c = false ↔ c ≠ Separator.
Proof. unfold IsPathSeparator. apply bool_decide_eq_false. Qed.

(** The scan only reads the first [k] bytes. *)
Lemma split_scan_app path rest k :
  k ≤ length path → split_scan (path ++ rest) k = split_scan path k.
Proof.
  induction k as [|i IH]; intros Hk; [done|]. simpl. unfold go_index.
  rewrite lookup_app_l by lia. rewrite IH by lia. done.
Qed.

(** The scan skips a tail without separator. *)
Lemma split_scan_skip path file :
  no_sep file →
  split_scan (path ++ file) (length path + length file) = split_scan path (length path).
Proof.
  unfold no_sep. induction file as [|c file IH] using rev_ind; intros Hns.
  - by rewrite app_nil_r, Nat.add_0_r.
  - rewrite not_elem_of_app, not_elem_of_cons in Hns. destruct Hns as [Hf [Hc _]].
    rewrite length_app, (assoc_L (++)). simpl.
    replace (length path + (length file + 1)) with (S (length path + length file)) by lia.
    simpl. unfold go_index.
    rewrite <- length_app, lookup_snoc_length.
    rewrite (proj2 (IsPathSeparator_false c)) by done.
    rewrite split_scan_app by done. rewrite length_app. by apply IH.
Qed.

(** The scan stops right after a separator. *)
Lemma split_scan_sep dir : split_scan (dir ++ [Separator]) (S (length dir)) = S (length dir).
Proof. simpl. unfold go_index. by rewrite lookup_snoc_length. Qed.

Lemma split_scan_nil k : split_scan [] k = 0.
Proof. induction k; [done|]. simpl. done. Qed.

(** C-level statement of the split: a path that ends in a file name without
    separator, after a directory part that ends in the separator. *)
Lemma Split_dir_file dir file :
  no_sep file → Split (dir ++ Separator :: file) = (dir ++ [Separator], file).
Proof.
  intros Hns. unfold Split.
  replace (dir ++ Separator :: file) with ((dir ++ [Separator]) ++ file)
    by (by rewrite <- (assoc_L (++))).
  assert (split_scan ((dir ++ [Separator]) ++ file)
            (length ((dir ++ [Separator]) ++ file)) = length (dir ++ [Separator])) as ->.
  { rewrite (length_app _ file), split_scan_skip by done.
    rewrite length_app. simpl. rewrite Nat.add_1_r. apply split_scan_sep. }
  by rewrite go_slice_app_l, go_slice_app_r.
Qed.

Lemma Split_file file : no_sep file → Split file = ([], file).
Proof.
  intros Hns. unfold Split.
  pose proof (split_scan_skip [] file Hns) as H. simpl in H. rewrite H.
  by rewrite go_slice_full.
Qed.

(** Every path is of one of the two shapes. *)
Lemma path_shape (path : gostring) :
  no_sep path ∨ ∃ dir file, path = dir ++ Separator :: file ∧ no_sep file.
Proof.
  induction path as [|c path IH]; [left; apply not_elem_of_nil|].
  destruct IH as [Hns|(dir & file & -> & Hns)].
  - destruct (decide (c = Separator)) as [->|Hc].
    + right. by exists [], path.
    + left. unfold no_sep. rewrite not_elem_of_cons. done.
  - right. by exists (c :: dir), file.
Qed.

Lemma split_ref_file file : no_sep file → split_ref file = ([], file).
Proof.
  unfold no_sep. induction file as [|c file IH]; [done|].
  rewrite not_elem_of_cons. intros [Hc Hf]. simpl. rewrite IH by done. simpl.
  by rewrite (proj2 (IsPathSeparator_false c)).
Qed.

Lemma split_ref_dir_file dir file :
  no_sep file → split_ref (dir ++ Separator :: file) = (dir ++ [Separator], file).
Proof.
  intros Hns. induction dir as [|c dir IH]; simpl.
  - by rewrite split_ref_file.
  - rewrite IH. by destruct dir.
Qed.

(** ** Theorems on [Clean] *)

Lemma go_index_drop (path : gostring) r i : go_index path (r + i) = drop r path !! i.
Proof. unfold go_index. by rewrite lookup_drop. Qed.

Lemma go_index_drop0 (path : gostring) r : go_index path r = drop r path !! 0.
Proof. rewrite <- go_index_drop. by rewrite Nat.add_0_r. Qed.

Lemma end_or_sep_drop path r i : end_or_sep path (r + i) = end_or_sep (drop r path) i.
Proof. unfold end_or_sep. by rewrite go_index_drop. Qed.

Lemma byte_is_drop path r i c : byte_is path (r + i) c = byte_is (drop r path) i c.
Proof. unfold byte_is. by rewrite go_index_drop. Qed.

Lemma end_or_sep_drop0 path r : end_or_sep path r = end_or_sep (drop r path) 0.
Proof. rewrite <- end_or_sep_drop. by rewrite Nat.add_0_r. Qed.

Lemma byte_is_drop0 path r c : byte_is path r c = byte_is (drop r path) 0 c.
Proof. rewrite <- byte_is_drop. by rewrite Nat.add_0_r. Qed.

(** The copy loop copies a whole element. *)
Lemma copy_element_spec e : ∀ fuel path r out post,
  drop r path = e ++ post → no_sep e → end_or_sep post 0 = true →
  length e ≤ fuel →
  copy_element fuel path r out = (r + length e, out ++ e).
Proof.
  induction e as [|c e IH]; intros fuel path r out post Hd Hns Hpost Hfuel.
  - simpl. rewrite Nat.add_0_r, app_nil_r. destruct fuel; [done|]. simpl.
    rewrite go_index_drop0, Hd. simpl. unfold end_or_sep, go_index in Hpost.
    destruct (post !! 0); [by rewrite Hpost|done].
  - destruct fuel; [simpl in Hfuel; lia|]. simpl.
    rewrite go_index_drop0, Hd. simpl.
    apply not_elem_of_cons in Hns as [Hc Hns].
    rewrite (proj2 (IsPathSeparator_false c)) by done.
    rewrite (IH fuel path (S r) (out ++ [c]) post); [| |done|done|simpl in Hfuel; lia].
    + f_equal; [lia|]. by rewrite <- (assoc_L (++)).
    + rewrite <- Nat.add_1_r, <- drop_drop, Hd. done.
Qed.

Lemma not_sep_false c : Separator ≠ c → IsPathSeparator c = false.
Proof. intros. apply IsPathSeparator_false. congruence. Qed.

Lemma normal_elem_head e post :
  normal_elem e → end_or_sep post 0 = true →
  end_or_sep (e ++ post) 0 = false
  ∧ (byte_is (e ++ post) 0 "." && end_or_sep (e ++ post) 1 = false)
  ∧ (byte_is (e ++ post) 0 "." && byte_is (e ++ post) 1 "." && end_or_sep (e ++ post) 2 = false).
Proof.
  intros (Hne & Hns & Hdot & Hdd) Hpost.
  unfold end_or_sep, byte_is, go_index in *.
  destruct e as [|a [|b [|c e]]]; [done|..]; simpl in *.
  all: unfold no_sep in Hns; rewrite ?not_elem_of_cons in Hns.
  - destruct Hns as [Ha _]. rewrite not_sep_false by done. split; [done|].
    destruct (decide (a = "."%char)) as [->|]; [done|].
    rewrite bool_decide_eq_false_2 by congruence. done.
  - destruct Hns as (Ha & Hb & _). rewrite !not_sep_false by done. split; [done|].
    rewrite andb_false_r. split; [done|].
    destruct (decide (a = "."%char)) as [->|];
      [|rewrite bool_decide_eq_false_2 by congruence; done].
    destruct (decide (b = "."%char)) as [->|]; [done|].
    rewrite (bool_decide_eq_false_2 (Some b = _)) by congruence.
    by rewrite andb_false_r.
  - destruct Hns as (Ha & Hb & Hc & _). rewrite !not_sep_false by done.
    by rewrite !andb_false_r.
Qed.

Lemma append_elem_length out e : out ≠ [] ∨ e ≠ [] → append_elem out e ≠ [].
Proof. destruct out, e; simpl; intros [?|?]; done. Qed.

(** The default case of the switch on a normal element of a path that is
    not rooted. *)
Lemma clean_step_elem path r out dotdot e post :
  drop r path = e ++ post → normal_elem e → end_or_sep post 0 = true →
  clean_step path false (CleanState r out dotdot)
  = CleanState (r + length e) (append_elem out e) dotdot.
Proof.
  intros Hd He Hpost. unfold clean_step.
  destruct (normal_elem_head e post He Hpost) as (H0 & H1 & H2).
  rewrite (end_or_sep_drop0 path r), !(byte_is_drop0 path r), !end_or_sep_drop,
    !byte_is_drop, Hd, H0, H1, H2. simpl.
  assert (length e ≤ length path - r).
  { apply (f_equal length) in Hd. rewrite length_drop, length_app in Hd. lia. }
  destruct He as (_ & Hns & _).
  rewrite (copy_element_spec e _ _ _ _ post) by done.
  f_equal. destruct out; simpl; [done|]. by rewrite <- (assoc_L (++)).
Qed.

(** The empty-element case at a separator. *)
Lemma clean_step_sep path rooted r out dotdot post :
  drop r path = Separator :: post →
  clean_step path rooted (CleanState r out dotdot) = CleanState (r + 1) out dotdot.
Proof.
  intros Hd. unfold clean_step.
  rewrite (end_or_sep_drop0 path r), Hd. done.
Qed.

Lemma drop_cons_length (path : gostring) r suf :
  drop r path = suf → suf ≠ [] → r + length suf = length path.
Proof.
  intros Hd Hne. apply (f_equal length) in Hd. rewrite length_drop in Hd.
  destruct suf; [done|]. simpl in *. lia.
Qed.

(** The loop on a sequence of normal elements appends them to the buffer. *)
Lemma clean_loop_elems elems : ∀ fuel path r out dotdot,
  elems ≠ [] → Forall normal_elem elems →
  drop r path = strings.Join elems [Separator] →
  length (drop r path) < fuel →
  clean_loop fuel path false (CleanState r out dotdot)
  = CleanState (length path) (append_elem out (strings.Join elems [Separator])) dotdot.
Proof.
  induction elems as [|e elems IH]; intros fuel path r out dotdot Hne Hall Hd Hfuel; [done|].
  apply Forall_cons in Hall as [He Hall].
  assert (e ≠ []) as Hene by apply He.
  destruct elems as [|e' elems].
  - simpl in Hd. pose proof (drop_cons_length _ _ _ Hd Hene) as Hlen.
    destruct fuel as [|[|fuel]]; [lia| |].
    { rewrite Hd in Hfuel. destruct e; simpl in *; [done|lia]. }
    cbn [clean_loop cs_r].
    rewrite bool_decide_eq_true_2 by (destruct e; simpl in *; [done|lia]).
    rewrite (clean_step_elem _ _ _ _ e []) by (by rewrite ?app_nil_r).
    cbn [cs_r]. rewrite bool_decide_eq_false_2 by lia. by rewrite Hlen.
  - rewrite strings.Join_cons in Hd.
    pose proof Hd as Hlen. apply (f_equal length) in Hlen.
    rewrite length_drop, !length_app in Hlen. simpl in Hlen.
    destruct fuel as [|[|fuel]]; [lia|rewrite length_drop in Hfuel; destruct e; simpl in *; [done|lia]|].
    rewrite strings.Join_cons.
    cbn [clean_loop cs_r]. rewrite bool_decide_eq_true_2 by lia.
    rewrite (clean_step_elem _ _ _ _ e _ Hd He) by done.
    cbn [cs_r]. rewrite bool_decide_eq_true_2 by lia.
    assert (drop (r + length e) path = Separator :: strings.Join (e' :: elems) [Separator]) as Hd'.
    { rewrite <- drop_drop, Hd. by rewrite drop_app_length. }
    rewrite (clean_step_sep _ _ _ _ _ _ Hd').
    rewrite (IH fuel); [|done|done| |].
    + f_equal. destruct out; simpl; [destruct e; done|].
      by rewrite <- !(assoc_L (++)).
    + rewrite <- drop_drop, Hd'. done.
    + rewrite !length_drop in *. destruct e; simpl in *; [done|lia].
Qed.

(** [Clean] leaves a clean relative path as it is. *)
Lemma Clean_simple p : simple_path p → Clean p = p.
Proof.
  intros (elems & Hne & Hall & ->).
  destruct (strings.Join elems [Separator]) as [|c p] eqn:Hp.
  { destruct elems as [|e [|e' elems]]; [done|..];
      apply Forall_cons in Hall as [(He & _) _]; simpl in Hp; [done|].
    by destruct e. }
  unfold Clean.
  assert (IsPathSeparator c = false) as ->.
  { destruct elems as [|e elems]; [done|]. apply Forall_cons in Hall as [(He & Hns & _) _].
    destruct e as [|a e]; [done|]. apply not_elem_of_cons in Hns as [Ha _].
    apply not_sep_false. destruct elems; simpl in Hp; by simplify_eq. }
  rewrite (clean_loop_elems elems); [|done|done|by rewrite drop_0|rewrite drop_0; lia].
  simpl. rewrite <- Hp. simpl. rewrite Hp. done.
Qed.

(** ** Theorems on [Join] *)

Lemma simple_path_snoc p u :
  simple_path p → normal_elem u → simple_path (p ++ Separator :: u).
Proof.
  intros (elems & Hne & Hall & ->) Hu. exists (elems ++ [u]). split_and!.
  - by destruct elems.
  - apply Forall_app. by split; [|apply Forall_singleton].
  - by rewrite strings.Join_snoc.
Qed.

Lemma simple_path_elem e : normal_elem e → simple_path e.
Proof. intros He. exists [e]. split_and!; [done|by apply Forall_singleton|done]. Qed.

Lemma simple_path_nonempty p : simple_path p → p ≠ [].
Proof.
  intros (elems & Hne & Hall & ->).
  destruct elems as [|e [|e' elems]]; [done|..];
    apply Forall_cons in Hall as [(He & _) _]; simpl; [done|by destruct e].
Qed.

(** Joining a clean relative path and a normal element puts one separator
    between them. *)
Lemma Join_simple p u :
  simple_path p → normal_elem u → Join [p; u] = p ++ Separator :: u.
Proof.
  intros Hp Hu. unfold Join.
  rewrite bool_decide_eq_true_2 by by apply simple_path_nonempty.
  rewrite strings.Join_pair. apply Clean_simple. by apply simple_path_snoc.
Qed.

(** ** [Split] against its reference and as an inverse *)

Lemma Split_split_ref path : Split path = split_ref path.
Proof.
  destruct (path_shape path) as [Hns|(dir & file & -> & Hns)].
  - by rewrite Split_file, split_ref_file.
  - by rewrite Split_dir_file, split_ref_dir_file.
Qed.

Lemma Split_app path : (Split path).1 ++ (Split path).2 = path.
Proof.
  destruct (path_shape path) as [Hns|(dir & file & -> & Hns)].
  - by rewrite Split_file.
  - rewrite Split_dir_file by done. simpl. by rewrite <- (assoc_L (++)).
Qed.

Lemma Split_file_no_sep path : no_sep (Split path).2.
Proof.
  destruct (path_shape path) as [Hns|(dir & file & -> & Hns)].
  - by rewrite Split_file.
  - by rewrite Split_dir_file.
Qed.

Lemma Split_dir_shape path :
  (Split path).1 = [] ∨ ∃ dir, (Split path).1 = dir ++ [Separator].
Proof.
  destruct (path_shape path) as [Hns|(dir & file & -> & Hns)].
  - left. by rewrite Split_file.
  - right. exists dir. by rewrite Split_dir_file.
Qed.

(** The scan never reads outside the path: every index it reads is below
    the length. *)
Lemma split_scan_le path k : split_scan path k ≤ k.
Proof.
  induction k as [|i IH]; [done|]. simpl.
  destruct (go_index path i) as [c|]; [destruct (IsPathSeparator c)|]; lia.
Qed.

(** ** Termination of the loop of [Clean] *)

(** The copy loop never moves the read index back, and moves it forward
    when it starts on a byte that is not a separator. *)
Lemma copy_element_le fuel path r out : r ≤ (copy_element fuel path r out).1.
Proof.
  revert r out. induction fuel as [|fuel IH]; intros r out; simpl; [done|].
  destruct (go_index path r) as [c|]; [|done].
  destruct (IsPathSeparator c); [done|]. specialize (IH (S r) (out ++ [c])). lia.
Qed.

Lemma copy_element_lt fuel path r out :
  end_or_sep path r = false → 0 < fuel → r < (copy_element fuel path r out).1.
Proof.
  unfold end_or_sep. intros Hr Hfuel. destruct fuel as [|fuel]; [lia|]. simpl.
  destruct (go_index path r) as [c|]; [|done]. rewrite Hr.
  pose proof (copy_element_le fuel path (S r) (out ++ [c])). lia.
Qed.

(** Every iteration of the main loop advances the read index. *)
Lemma clean_step_advances path rooted st :
  cs_r st < length path → cs_r st < cs_r (clean_step path rooted st).
Proof.
  destruct st as [r out dotdot]. simpl. intros Hr.
  destruct (end_or_sep path r) eqn:Hsep; [simpl; lia|].
  destruct (byte_is path r "." && end_or_sep path (r + 1)); [simpl; lia|].
  destruct (byte_is path r "." && byte_is path (r + 1) "." && end_or_sep path (r + 2)).
  { repeat case_match; simpl; lia. }
  destruct (copy_element _ _ _ _) as [r' out2] eqn:Hcopy. simpl.
  pose proof (copy_element_lt (length path - r) path r
    (if (rooted && bool_decide (length out ≠ 1)) || (negb rooted && bool_decide (length out ≠ 0))
     then out ++ [Separator] else out) Hsep ltac:(lia)) as Hlt.
  by rewrite Hcopy in Hlt.
Qed.

(** With fuel for the bytes that are left, the loop ends by its own
    condition, the read index at the end of the path. *)
Lemma clean_loop_ends fuel path rooted st :
  length path - cs_r st ≤ fuel →
  length path ≤ cs_r (clean_loop fuel path rooted st).
Proof.
  revert st. induction fuel as [|fuel IH]; intros st Hfuel; simpl; [lia|].
  case_bool_decide as Hr; [|lia]. apply IH.
  pose proof (clean_step_advances path rooted st Hr). lia.
Qed.

(** More fuel than that does not change the result. *)
Lemma clean_loop_fuel fuel fuel' path rooted st :
  length path - cs_r st ≤ fuel → fuel ≤ fuel' →
  clean_loop fuel' path rooted st = clean_loop fuel path rooted st.
Proof.
  revert fuel' st. induction fuel as [|fuel IH]; intros fuel' st Hfuel Hle.
  - destruct fuel'; simpl; [done|]. case_bool_decide; [lia|done].
  - destruct fuel' as [|fuel']; [lia|]. simpl. case_bool_decide as Hr; [|done].
    apply IH; [|lia]. pose proof (clean_step_advances path rooted st Hr). lia.
Qed.

(** The fuel [S (length path)] that [Clean] gives its loop is enough: the
    loop of [Clean] ends with the whole path read. *)
Lemma Clean_loop_ends path rooted st :
  length path ≤ cs_r (clean_loop (S (length path)) path rooted st).
Proof. apply clean_loop_ends. lia. Qed.

End filepath.
