(* ===== verification/CleanRef.v ===== *)
(** A reference definition of [filepath.Clean] on the elements of a path,
    and the proof that the byte loop of [FilePath] computes it on every
    path. The reference splits the path at its separators
    ([split_sep], as [strings.Split(path, "/")]), runs the elements through a
    stack ([clean_push]: empty and [.] elements are dropped, [..] removes the
    element before it when there is one, is dropped at the root and kept
    otherwise) and joins what is left ([render]). From the equivalence: the
    shape of the result ([clean_path]), that [Clean] is idempotent, and that
    its result is never longer than the path. *)

From Stdlib Require Import Ascii.
From S2P Require Import Prelude GoStrings FilePath.
Import filepath.

#[local] Open Scope go_scope.

(** The elements of a path: the byte strings between its separators. A
    path without separator is its only element; consecutive separators give
    empty elements. *)
Fixpoint split_sep (s : gostring) : list gostring :=
  match s with
  | [] => [[]]
  | c :: s =>
      if IsPathSeparator c then [] :: split_sep s
      else match split_sep s with
           | e :: es => (c :: e) :: es
           | [] => [[c]]
           end
  end.

(** The stack of the elements kept so far, the last one first. [..] can
    remove the last element when there is one and it is not [..] itself. *)
Definition can_pop (stack : list gostring) : bool :=
  match stack with
  | top :: _ => bool_decide (top ≠ "..")
  | [] => false
  end.

Definition clean_push (rooted : bool) (stack : list gostring) (e : gostring)
    : list gostring :=
  if bool_decide (e = [] ∨ e = ".") then stack
  else if bool_decide (e = "..") then
    if can_pop stack then tail stack
    else if rooted then stack
    else e :: stack
  else e :: stack.

(** The bytes of a stack: the root, then the elements from the first kept
    to the last, with one separator between consecutive ones. *)
Definition root (rooted : bool) : gostring := if rooted then [Separator] else [].

Fixpoint render (rooted : bool) (stack : list gostring) : gostring :=
  match stack with
  | [] => root rooted
  | e :: rest =>
      match rest with
      | [] => root rooted ++ e
      | _ => render rooted rest ++ Separator :: e
      end
  end.

(** The barrier of [..]: the length of the bytes up to the last [..] kept,
    or of the root when there is none. *)
Fixpoint barrier (rooted : bool) (stack : list gostring) : nat :=
  match stack with
  | [] => length (root rooted)
  | e :: rest =>
      if bool_decide (e = "..") then length (render rooted stack)
      else barrier rooted rest
  end.

(** The reference: clean the elements, join them, and write [.] for an
    empty result. *)
Definition clean_elems (rooted : bool) (es : list gostring) : list gostring :=
  foldl (clean_push rooted) [] es.

Definition is_rooted (path : gostring) : bool :=
  match path with
  | c :: _ => IsPathSeparator c
  | [] => false
  end.

Definition clean_ref (path : gostring) : gostring :=
  let out := render (is_rooted path) (clean_elems (is_rooted path) (split_sep path)) in
  if bool_decide (out = []) then "." else out.

(** The state of the byte loop that has read [r] bytes and kept [stack]. *)
Definition state_of (rooted : bool) (r : nat) (stack : list gostring) : clean_state :=
  CleanState r (render rooted stack) (barrier rooted stack).

(** The loop of [Clean] with the fuel that [Clean] gives it. *)
Definition clean_run (path : gostring) (rooted : bool) (st : clean_state)
    : clean_state :=
  clean_loop (S (length path)) path rooted st.

(** The elements that may be on the stack: not empty, without separator. *)
Definition elem_ok (e : gostring) : Prop := e ≠ [] ∧ no_sep e.

(** The shape of a cleaned path: [.], or the root followed by elements that
    are not empty, without separator and not [.], where [..] elements come
    first and only in a path that is not rooted. *)
Definition clean_stack (rooted : bool) (stack : list gostring) : Prop :=
  ∃ normals dots,
    stack = normals ++ dots ∧ Forall normal_elem normals
    ∧ Forall (λ e, e = "..") dots ∧ (rooted = true → dots = []).

Definition clean_path (p : gostring) : Prop :=
  p = "." ∨ ∃ rooted stack,
    clean_stack rooted stack ∧ p = render rooted stack ∧ p ≠ [].

(** ** Elements *)

Lemma split_sep_nonempty s : split_sep s ≠ [].
Proof.
  destruct s as [|c s]; simpl; [done|]. destruct (IsPathSeparator c); [done|].
  by destruct (split_sep s).
Qed.

Lemma split_sep_no_sep s : Forall no_sep (split_sep s).
Proof.
  induction s as [|c s IH]; simpl.
  { apply Forall_singleton, not_elem_of_nil. }
  destruct (IsPathSeparator c) eqn:Hc.
  { apply Forall_cons. split; [apply not_elem_of_nil|done]. }
  apply IsPathSeparator_false in Hc. pose proof (split_sep_nonempty s) as Hne.
  destruct (split_sep s) as [|e es]; [done|].
  apply Forall_cons in IH as [He Hes]. apply Forall_cons. split; [|done].
  unfold no_sep. rewrite not_elem_of_cons. by split.
Qed.

(** Joining the elements of a path gives the path back. *)
Lemma Join_split_sep s : strings.Join (split_sep s) [Separator] = s.
Proof.
  induction s as [|c s IH]; [done|]. simpl.
  pose proof (split_sep_nonempty s) as Hne.
  destruct (IsPathSeparator c) eqn:Hc.
  - apply IsPathSeparator_true in Hc as ->.
    destruct (split_sep s) as [|e es]; [done|]. rewrite strings.Join_cons.
    by rewrite IH.
  - destruct (split_sep s) as [|e [|e' es]]; [done|simpl in *; by rewrite IH|].
    rewrite strings.Join_cons in *. by rewrite <- IH.
Qed.

(** ** The bytes of a stack *)

Section render.
Context (rooted : bool).
Implicit Types (stack : list gostring) (e : gostring).

Lemma render_cons e stack :
  render rooted (e :: stack)
  = if bool_decide (stack = []) then root rooted ++ e
    else render rooted stack ++ Separator :: e.
Proof. by destruct stack. Qed.

Lemma render_root_le stack : length (root rooted) ≤ length (render rooted stack).
Proof.
  induction stack as [|e stack IH]; [done|]. rewrite render_cons.
  case_bool_decide; rewrite length_app; simpl; lia.
Qed.

(** The stack is empty exactly when its bytes are those of the root. *)
Lemma render_root_iff stack :
  Forall elem_ok stack →
  length (render rooted stack) = length (root rooted) ↔ stack = [].
Proof.
  intros Hok. split; [|by intros ->]. destruct stack as [|e stack]; [done|].
  apply Forall_cons in Hok as [[He _] _]. rewrite render_cons.
  pose proof (render_root_le stack).
  case_bool_decide; rewrite length_app; destruct e; simpl in *; try done; lia.
Qed.

Lemma barrier_le stack : barrier rooted stack ≤ length (render rooted stack).
Proof.
  induction stack as [|e stack IH]; [done|]. cbn [barrier].
  case_bool_decide; [done|]. rewrite render_cons.
  pose proof (render_root_le stack).
  case_bool_decide; subst; rewrite length_app; simpl in *; lia.
Qed.

(** The last element can be removed exactly when the buffer is longer than
    the barrier. *)
Lemma barrier_lt_iff stack :
  Forall elem_ok stack →
  bool_decide (barrier rooted stack < length (render rooted stack)) = can_pop stack.
Proof.
  intros Hok. destruct stack as [|e stack]; simpl barrier; simpl can_pop.
  { apply bool_decide_eq_false_2. simpl. lia. }
  apply Forall_cons in Hok as [[He _] _].
  destruct (decide (e = "..")) as [Hdd|Hdd].
  { rewrite (bool_decide_eq_true_2 _ Hdd), (bool_decide_eq_false_2 (_ ≠ _)) by tauto.
    apply bool_decide_eq_false_2, Nat.lt_irrefl. }
  rewrite (bool_decide_eq_false_2 _ Hdd), (bool_decide_eq_true_2 (_ ≠ _)) by done.
  apply bool_decide_eq_true_2.
  pose proof (barrier_le stack). pose proof (render_root_le stack).
  rewrite render_cons. case_bool_decide; subst; rewrite length_app;
    destruct e; simpl in *; try done; lia.
Qed.

(** The test of the source for a buffer that holds more than the root. *)
Lemma render_root_test stack :
  Forall elem_ok stack →
  (rooted && bool_decide (length (render rooted stack) ≠ 1))
  || (negb rooted && bool_decide (length (render rooted stack) ≠ 0))
  = negb (bool_decide (stack = [])).
Proof.
  intros Hok. pose proof (render_root_iff stack Hok) as Hiff.
  destruct rooted; simpl in *; rewrite ?orb_false_r;
    case_bool_decide as H1; case_bool_decide as H2; try done; tauto.
Qed.

(** Appending an element, with a separator when the buffer holds more than
    the root. *)
Lemma render_append stack e :
  Forall elem_ok stack →
  (if (rooted && bool_decide (length (render rooted stack) ≠ 1))
      || (negb rooted && bool_decide (length (render rooted stack) ≠ 0))
   then render rooted stack ++ [Separator] else render rooted stack) ++ e
  = render rooted (e :: stack).
Proof.
  intros Hok. rewrite render_root_test, render_cons by done.
  case_bool_decide as Hs; simpl; [by subst|]. by rewrite <- (assoc_L (++)).
Qed.

End render.

(** ** Removing the last element *)

Lemma end_or_sep_elem pre e i :
  no_sep e → length pre ≤ i < length pre + length e →
  end_or_sep (pre ++ e) i = false.
Proof.
  intros Hns Hi. unfold end_or_sep, go_index. rewrite lookup_app_r by lia.
  destruct (e !! (i - length pre)) as [c|] eqn:Hc.
  - apply IsPathSeparator_false. intros ->. by apply list_elem_of_lookup_2 in Hc.
  - apply lookup_ge_None in Hc. lia.
Qed.

(** The scan passes the indices above the barrier that hold no separator,
    and stops at the first index that is at the barrier or holds one. *)
Lemma backtrack_down out dotdot w k :
  (∀ i, w < i ≤ w + k → dotdot < i ∧ end_or_sep out i = false) →
  backtrack out dotdot (w + k) = backtrack out dotdot w.
Proof.
  induction k as [|k IH]; intros Hi; [by rewrite Nat.add_0_r|].
  rewrite Nat.add_succ_r. cbn [backtrack].
  destruct (Hi (S (w + k))) as [Hdd ->]; [lia|].
  rewrite bool_decide_eq_true_2 by done. simpl. apply IH. intros i ?. apply Hi. lia.
Qed.

Lemma backtrack_stop out dotdot w :
  w = 0 ∨ dotdot = w ∨ end_or_sep out w = true → backtrack out dotdot w = w.
Proof.
  destruct w as [|w]; [done|]. cbn [backtrack]. intros [?|[->| ->]]; [done|..].
  - by rewrite bool_decide_eq_false_2 by lia.
  - by rewrite andb_false_r.
Qed.

(** On the bytes of a stack whose last element is not [..], the scan of the
    source ends at the length of the bytes of the stack without it. *)
Lemma backtrack_render rooted e stack :
  Forall elem_ok (e :: stack) → e ≠ ".." →
  take (backtrack (render rooted (e :: stack)) (barrier rooted (e :: stack))
          (length (render rooted (e :: stack)) - 1))
       (render rooted (e :: stack))
  = render rooted stack.
Proof.
  intros [[He Hns] Hok]%Forall_cons Hdd. cbn [barrier].
  rewrite (bool_decide_eq_false_2 _ Hdd), render_cons.
  pose proof (barrier_le rooted stack) as Hb.
  assert (∃ k, length e = S k) as [k Hk] by (destruct e; [done|by eexists]).
  case_bool_decide as Hs.
  - subst stack. simpl in *.
    replace (length (root rooted ++ e) - 1) with (length (root rooted) + k)
      by (rewrite length_app; lia).
    rewrite backtrack_down.
    + rewrite backtrack_stop by auto. apply take_app_length.
    + intros i Hi. split; [lia|]. apply end_or_sep_elem; [done|lia].
  - set (pre := render rooted stack) in *.
    replace (length (pre ++ Separator :: e) - 1) with (length pre + S k)
      by (rewrite length_app; simpl; lia).
    rewrite backtrack_down.
    + rewrite backtrack_stop; [apply take_app_length|].
      right. right. unfold end_or_sep, go_index. by rewrite lookup_app_middle.
    + intros i Hi. split; [lia|].
      rewrite (assoc_L (++) pre [Separator] e : pre ++ Separator :: e = _).
      apply end_or_sep_elem; [done|]. rewrite length_app. simpl. lia.
Qed.

(** ** One element of the path *)

Lemma dot_head post :
  end_or_sep post 0 = true →
  end_or_sep ("." ++ post) 0 = false
  ∧ byte_is ("." ++ post) 0 "." && end_or_sep ("." ++ post) 1 = true.
Proof. by intros Hpost. Qed.

Lemma dotdot_head post :
  end_or_sep post 0 = true →
  end_or_sep (".." ++ post) 0 = false
  ∧ byte_is (".." ++ post) 0 "." && end_or_sep (".." ++ post) 1 = false
  ∧ byte_is (".." ++ post) 0 "." && byte_is (".." ++ post) 1 "."
    && end_or_sep (".." ++ post) 2 = true.
Proof. by intros Hpost. Qed.

(** An element that is not empty is [.], [..] or an element that is kept. *)
Lemma elem_ok_cases e : elem_ok e → e = "." ∨ e = ".." ∨ normal_elem e.
Proof.
  intros [He Hns]. destruct (decide (e = ".")); [by left|].
  destruct (decide (e = "..")); [by auto|]. by right; right.
Qed.

Lemma clean_push_ok rooted stack e :
  Forall elem_ok stack → no_sep e → Forall elem_ok (clean_push rooted stack e).
Proof.
  intros Hok Hns. unfold clean_push.
  case_bool_decide as H1; [done|].
  assert (elem_ok e) by (split; [tauto|done]).
  repeat case_match; try done; try by apply Forall_cons.
  destruct stack; [done|]. by apply Forall_cons in Hok as [_ ?].
Qed.

Lemma render_append_rel stack e :
  Forall elem_ok stack →
  (if bool_decide (0 < length (render false stack))
   then render false stack ++ [Separator] else render false stack) ++ e
  = render false (e :: stack).
Proof.
  intros Hok. rewrite <- (render_append false) by done. simpl.
  do 2 case_bool_decide; try done; lia.
Qed.

(** The step of the loop at the start of an element is the push of the
    element on the stack. *)
Lemma clean_step_token rooted path r stack e post :
  drop r path = e ++ post → elem_ok e → end_or_sep post 0 = true →
  Forall elem_ok stack →
  clean_step path rooted (state_of rooted r stack)
  = state_of rooted (r + length e) (clean_push rooted stack e).
Proof.
  intros Hd He Hpost Hok. unfold clean_step, state_of, clean_push.
  rewrite (end_or_sep_drop0 path r), !(byte_is_drop0 path r), !end_or_sep_drop,
    !byte_is_drop, Hd.
  destruct (elem_ok_cases e He) as [->|[->|Hn]].
  - destruct (dot_head post Hpost) as [-> ->]. done.
  - destruct (dotdot_head post Hpost) as (-> & -> & ->). simpl.
    rewrite barrier_lt_iff by done. destruct (can_pop stack) eqn:Hpop.
    + destruct stack as [|top rest]; [done|]. apply bool_decide_eq_true in Hpop.
      rewrite backtrack_render by done. cbn [tail barrier].
      by rewrite (bool_decide_eq_false_2 _ Hpop).
    + destruct rooted; simpl; [done|]. by rewrite render_append_rel.
  - destruct (normal_elem_head e post Hn Hpost) as (-> & -> & ->).
    destruct Hn as (Hne & Hns & Hdot & Hdd).
    rewrite (bool_decide_eq_false_2 (e = [] ∨ e = ".")) by tauto.
    rewrite (bool_decide_eq_false_2 _ Hdd).
    assert (length e ≤ length path - r).
    { apply (f_equal length) in Hd. rewrite length_drop, length_app in Hd. lia. }
    rewrite (copy_element_spec e _ _ _ _ post) by done.
    rewrite render_append by done. cbn [barrier].
    by rewrite (bool_decide_eq_false_2 _ Hdd).
Qed.

(** ** The loop *)

Section loop.
Context (rooted : bool) (path : gostring).
Implicit Types (stack : list gostring) (st : clean_state).

Lemma clean_run_step st :
  cs_r st < length path →
  clean_run path rooted st = clean_run path rooted (clean_step path rooted st).
Proof.
  intros Hr. unfold clean_run.
  rewrite (clean_loop_fuel (length path) (S (length path)) path rooted
             (clean_step path rooted st)) by lia.
  cbn [clean_loop]. by rewrite bool_decide_eq_true_2.
Qed.

Lemma clean_run_end st : length path ≤ cs_r st → clean_run path rooted st = st.
Proof.
  intros Hr. unfold clean_run. cbn [clean_loop]. by rewrite bool_decide_eq_false_2 by lia.
Qed.

(** The loop passes an element, empty or not, and pushes it. *)
Lemma clean_run_token r stack e post :
  drop r path = e ++ post → no_sep e → end_or_sep post 0 = true →
  Forall elem_ok stack →
  clean_run path rooted (state_of rooted r stack)
  = clean_run path rooted (state_of rooted (r + length e) (clean_push rooted stack e)).
Proof.
  intros Hd Hns Hpost Hok. destruct (decide (e = [])) as [->|He].
  { by rewrite Nat.add_0_r. }
  rewrite clean_run_step, (clean_step_token _ _ _ _ e post); [done..|]. simpl.
  apply (f_equal length) in Hd. rewrite length_drop, length_app in Hd.
  destruct e; simpl in *; [done|lia].
Qed.

(** The loop from the start of a sequence of elements pushes them all. *)
Lemma clean_run_elems es : ∀ r stack,
  es ≠ [] → Forall no_sep es → Forall elem_ok stack →
  drop r path = strings.Join es [Separator] → r ≤ length path →
  clean_run path rooted (state_of rooted r stack)
  = state_of rooted (length path) (foldl (clean_push rooted) stack es).
Proof.
  induction es as [|e es IH]; intros r stack Hne Hall Hok Hd Hr; [done|].
  apply Forall_cons in Hall as [Hns Hall].
  pose proof Hd as Hlen. apply (f_equal length) in Hlen. rewrite length_drop in Hlen.
  destruct es as [|e' es].
  - simpl in *. rewrite (clean_run_token r stack e []), clean_run_end;
      rewrite ?app_nil_r; simpl; try done; [f_equal|]; lia.
  - rewrite strings.Join_cons in Hd, Hlen. rewrite !length_app in Hlen. simpl in Hlen.
    rewrite (clean_run_token r stack e _ Hd) by done.
    assert (drop (r + length e) path = Separator :: strings.Join (e' :: es) [Separator])
      as Hd' by (by rewrite <- drop_drop, Hd, drop_app_length).
    rewrite clean_run_step by (simpl; lia). unfold state_of at 1.
    rewrite (clean_step_sep _ _ _ _ _ _ Hd').
    apply (IH (r + length e + 1) (clean_push rooted stack e)); try done.
    + by apply clean_push_ok.
    + by rewrite <- drop_drop, Hd'.
    + lia.
Qed.

End loop.

(** ** The equivalence *)

(** The loop of [Clean] from its initial state ends with the bytes of the
    cleaned elements. *)
Lemma clean_run_path path :
  path ≠ [] →
  clean_run path (is_rooted path)
    (state_of (is_rooted path) (length (root (is_rooted path))) [])
  = state_of (is_rooted path) (length path)
      (clean_elems (is_rooted path) (split_sep path)).
Proof.
  destruct path as [|c p]; [done|]. intros _. unfold clean_elems.
  pose proof (Join_split_sep (c :: p)) as Hj.
  pose proof (split_sep_no_sep (c :: p)) as Hns.
  pose proof (split_sep_nonempty p) as Hne. simpl in *.
  destruct (IsPathSeparator c) eqn:Hc.
  - apply IsPathSeparator_true in Hc as ->. apply Forall_cons in Hns as [_ Hns].
    apply (clean_run_elems true (Separator :: p) (split_sep p) 1 []); simpl; try done.
    + by rewrite drop_0, Join_split_sep.
    + lia.
  - apply (clean_run_elems false (c :: p) _ 0 []); simpl; try done.
    + by destruct (split_sep p).
    + lia.
Qed.

Lemma Clean_clean_ref path : Clean path = clean_ref path.
Proof.
  destruct path as [|c p]; [done|]. unfold Clean, clean_ref.
  pose proof (clean_run_path (c :: p)) as Hrun. unfold clean_run in Hrun.
  cbn [is_rooted] in *. destruct (IsPathSeparator c).
  - change (CleanState 1 [Separator] 1) with (state_of true (length (root true)) []).
    rewrite Hrun by done. cbn [state_of cs_out]. by destruct (render _ _).
  - change (CleanState 0 [] 0) with (state_of false (length (root false)) []).
    rewrite Hrun by done. cbn [state_of cs_out]. by destruct (render _ _).
Qed.

(** ** The shape of the result *)

Section shape.
Context (rooted : bool).
Implicit Types (stack : list gostring) (e : gostring).

Lemma clean_stack_nil : clean_stack rooted [].
Proof. by exists [], []. Qed.

Lemma clean_stack_ok stack : clean_stack rooted stack → Forall elem_ok stack.
Proof.
  intros (normals & dots & -> & Hn & Hd & _). apply Forall_app. split.
  - eapply Forall_impl; [exact Hn|]. intros e (? & ? & _). by split.
  - eapply Forall_impl; [exact Hd|]. intros e ->.
    split; [done|by apply (bool_decide_unpack _)].
Qed.

Lemma clean_stack_tail e stack : clean_stack rooted (e :: stack) → clean_stack rooted stack.
Proof.
  intros (normals & dots & Heq & Hn & Hd & Hr). destruct normals as [|n normals].
  - destruct dots as [|d dots]; simplify_eq/=. apply Forall_cons in Hd as [_ Hd].
    exists [], dots. split_and!; [done..|]. intros Hroot. by specialize (Hr Hroot).
  - simplify_eq/=. apply Forall_cons in Hn as [_ Hn]. by exists normals, dots.
Qed.

(** The last element of a clean stack can be removed exactly when it is
    kept as a normal element. *)
Lemma clean_stack_top e stack :
  clean_stack rooted (e :: stack) →
  (normal_elem e ∧ can_pop (e :: stack) = true)
  ∨ (e = ".." ∧ rooted = false ∧ Forall (λ d, d = "..") stack).
Proof.
  intros (normals & dots & Heq & Hn & Hd & Hr). destruct normals as [|n normals].
  - destruct dots as [|d dots]; simplify_eq/=. apply Forall_cons in Hd as [-> Hd].
    right. split_and!; [done| |done]. destruct rooted; [by specialize (Hr eq_refl)|done].
  - simplify_eq/=. apply Forall_cons in Hn as [Hn _]. left. split; [done|].
    apply bool_decide_eq_true. apply Hn.
Qed.

Lemma clean_stack_cons_normal e stack :
  clean_stack rooted stack → normal_elem e → clean_stack rooted (e :: stack).
Proof.
  intros (normals & dots & -> & Hn & Hd & Hr) He. exists (e :: normals), dots.
  split_and!; [done|by apply Forall_cons|done..].
Qed.

(** Pushing an element keeps the stack clean. *)
Lemma clean_push_stack stack e :
  clean_stack rooted stack → no_sep e → clean_stack rooted (clean_push rooted stack e).
Proof.
  intros Hs Hns. unfold clean_push. case_bool_decide as H1; [done|].
  case_bool_decide as H2.
  - destruct stack as [|top rest].
    { simpl. destruct rooted eqn:Hr; [done|]. subst. exists [], [".."].
      split_and!; [done..|by apply Forall_singleton|done]. }
    destruct (clean_stack_top _ _ Hs) as [[_ ->]|(-> & Hr & Hd)].
    + by eapply clean_stack_tail.
    + simpl. rewrite Hr. subst. exists [], (".." :: ".." :: rest).
      split_and!; [done..|by repeat (apply Forall_cons_2; [done|])|done].
  - apply clean_stack_cons_normal; [done|]. split_and!; [tauto|done|tauto|done].
Qed.

Lemma clean_elems_stack es : Forall no_sep es → clean_stack rooted (clean_elems rooted es).
Proof.
  unfold clean_elems. generalize clean_stack_nil. generalize (@nil gostring).
  induction es as [|e es IH]; intros stack Hs Hall; [done|].
  apply Forall_cons in Hall as [He Hall]. simpl. apply IH; [|done].
  by apply clean_push_stack.
Qed.

End shape.

(** ** Cleaning a clean path *)

(** Splitting the join of elements without separator gives the elements. *)
Lemma split_sep_Join es :
  es ≠ [] → Forall no_sep es → split_sep (strings.Join es [Separator]) = es.
Proof.
  induction es as [|e es IH]; intros Hne Hall; [done|].
  apply Forall_cons in Hall as [He Hall].
  assert (∀ rest, split_sep (e ++ [Separator] ++ rest) = e :: split_sep rest) as Hsplit.
  { intros rest. clear IH Hne. induction e as [|c e IHe]; [done|].
    apply not_elem_of_cons in He as [Hc He].
    change (split_sep (c :: (e ++ [Separator] ++ rest)) = (c :: e) :: split_sep rest).
    cbn [split_sep]. by rewrite not_sep_false, IHe. }
  destruct es as [|e' es].
  - simpl. clear IH Hne Hall Hsplit.
    induction e as [|c e IHe]; [done|]. apply not_elem_of_cons in He as [Hc He].
    cbn [split_sep]. by rewrite not_sep_false, IHe.
  - by rewrite strings.Join_cons, Hsplit, IH.
Qed.

Section stable.
Context (rooted : bool).
Implicit Types (stack : list gostring) (e : gostring).

(** The bytes of a stack are the root and the join of its elements, the
    first kept first. *)
Lemma render_Join stack :
  render rooted stack = root rooted ++ strings.Join (reverse stack) [Separator].
Proof.
  induction stack as [|e stack IH]; [by rewrite app_nil_r|]. rewrite render_cons.
  case_bool_decide as Hs; [by subst|]. rewrite IH, reverse_cons.
  rewrite strings.Join_snoc by (by intros ?%(f_equal length); rewrite length_reverse in *;
    destruct stack).
  by rewrite <- !(assoc_L (++)).
Qed.

(** Pushing the elements of a clean stack, the first kept first, builds
    the stack. *)
Lemma clean_push_clean stack :
  clean_stack rooted stack → foldl (clean_push rooted) [] (reverse stack) = stack.
Proof.
  induction stack as [|e stack IH]; intros Hs; [done|].
  rewrite reverse_cons, foldl_app, IH by by eapply clean_stack_tail. simpl.
  unfold clean_push. destruct (clean_stack_top _ _ _ Hs) as [[He _]|(-> & -> & Hd)].
  - destruct He as (? & ? & ? & ?).
    rewrite bool_decide_eq_false_2 by tauto. by rewrite bool_decide_eq_false_2.
  - simpl. destruct stack as [|d stack]; [done|].
    apply Forall_cons in Hd as [-> _]. done.
Qed.

End stable.

Lemma is_rooted_render rooted stack :
  Forall elem_ok stack → is_rooted (render rooted stack) = rooted.
Proof.
  intros Hok. rewrite render_Join. destruct rooted; simpl.
  { done. }
  apply Forall_reverse in Hok.
  destruct (reverse stack) as [|[|c e] es]; [done|..];
    apply Forall_cons in Hok as [[He Hns] _]; [done|].
  apply not_elem_of_cons in Hns as [Hc _]. destruct es; simpl; by apply not_sep_false.
Qed.

(** The elements of the bytes of a clean stack clean to the stack. *)
Lemma clean_elems_render rooted stack :
  clean_stack rooted stack → render rooted stack ≠ [] →
  clean_elems rooted (split_sep (render rooted stack)) = stack.
Proof.
  intros Hs Hne. pose proof (clean_push_clean rooted stack Hs) as Hpush.
  pose proof (clean_stack_ok rooted stack Hs) as Hok. apply Forall_reverse in Hok.
  assert (Forall no_sep (reverse stack)) as Hns.
  { eapply Forall_impl; [exact Hok|]. by intros e [_ ?]. }
  revert Hne. rewrite render_Join. unfold clean_elems.
  destruct stack as [|e stack]; [by destruct rooted|]. intros _.
  assert (reverse (e :: stack) ≠ []) as Hrev.
  { rewrite reverse_cons. by destruct (reverse stack). }
  destruct rooted; simpl root; cbn [app split_sep].
  - change (IsPathSeparator Separator) with true. cbv iota.
    by rewrite split_sep_Join.
  - by rewrite split_sep_Join.
Qed.

Lemma clean_ref_render rooted stack :
  clean_stack rooted stack → render rooted stack ≠ [] →
  clean_ref (render rooted stack) = render rooted stack.
Proof.
  intros Hs Hne. unfold clean_ref.
  rewrite is_rooted_render by by eapply clean_stack_ok.
  rewrite clean_elems_render by done. by rewrite bool_decide_eq_false_2.
Qed.

(** ** The theorems on [Clean] *)

(** The result of [Clean] is a clean path. *)
Lemma Clean_clean_path path : clean_path (Clean path).
Proof.
  rewrite Clean_clean_ref. unfold clean_ref. case_bool_decide as Hout; [by left|].
  right. eexists _, _. split_and!; [|done..].
  apply clean_elems_stack, split_sep_no_sep.
Qed.

(** [Clean] leaves a clean path as it is. *)
Lemma Clean_stable p : clean_path p → Clean p = p.
Proof.
  rewrite Clean_clean_ref. intros [->|(rooted & stack & Hs & -> & Hne)]; [done|].
  by apply clean_ref_render.
Qed.

Lemma Clean_idempotent path : Clean (Clean path) = Clean path.
Proof. apply Clean_stable, Clean_clean_path. Qed.

(** ** The length of the result *)

Section length.
Context (rooted : bool).
Implicit Types (stack : list gostring) (e : gostring).

Lemma render_tail_le stack :
  length (render rooted (tail stack)) ≤ length (render rooted stack).
Proof.
  destruct stack as [|e stack]; [done|]. simpl tail. rewrite render_cons.
  pose proof (render_root_le rooted stack).
  case_bool_decide; subst; rewrite length_app; simpl in *; lia.
Qed.

Lemma render_cons_length e stack :
  length (render rooted (e :: stack))
  = length (render rooted stack) + (if bool_decide (stack = []) then 0 else 1) + length e.
Proof.
  rewrite render_cons. case_bool_decide; subst; rewrite length_app; simpl; lia.
Qed.

(** A push adds at most the element and one separator. *)
Lemma clean_push_length stack e :
  length (render rooted (clean_push rooted stack e))
  ≤ length (render rooted stack) + (if bool_decide (stack = []) then 0 else 1) + length e.
Proof.
  unfold clean_push. pose proof (render_tail_le stack).
  pose proof (render_cons_length e stack). repeat case_match; lia.
Qed.

Lemma clean_elems_length es : ∀ stack,
  length (render rooted (foldl (clean_push rooted) stack es))
  ≤ length (render rooted stack)
    + (if bool_decide (es = []) then 0
       else (if bool_decide (stack = []) then 0 else 1)
            + length (strings.Join es [Separator])).
Proof.
  induction es as [|e es IH]; intros stack; [simpl; lia|].
  cbn [foldl]. etrans; [apply IH|]. pose proof (clean_push_length stack e).
  rewrite (bool_decide_eq_false_2 (e :: es = [])) by done.
  destruct es as [|e' es]; [simpl; lia|].
  rewrite (bool_decide_eq_false_2 (e' :: es = [])) by done.
  rewrite strings.Join_cons, !length_app.
  change (length [Separator]) with 1. repeat case_bool_decide; lia.
Qed.

End length.

(** [Clean] never returns the empty string, and its result is not longer
    than the path: the buffer of [len(path)] bytes of the source is
    enough. *)
Lemma Clean_nonempty path : Clean path ≠ [].
Proof. rewrite Clean_clean_ref. unfold clean_ref. by case_bool_decide. Qed.

Lemma Clean_length path : path ≠ [] → length (Clean path) ≤ length path.
Proof.
  intros Hne. rewrite Clean_clean_ref. unfold clean_ref, clean_elems.
  destruct path as [|c p]; [done|]. case_bool_decide; [simpl; lia|].
  pose proof (Join_split_sep (c :: p)) as Hj. apply (f_equal length) in Hj.
  pose proof (split_sep_nonempty p) as Hp. simpl in *.
  destruct (IsPathSeparator c).
  - etrans; [apply (clean_elems_length true (split_sep p) [])|]. simpl.
    rewrite Join_split_sep, bool_decide_eq_false_2 by done. lia.
  - etrans; [apply (clean_elems_length false _ [])|]. simpl.
    rewrite Hj. case_bool_decide; lia.
Qed.

(** ** The last element of a path *)

Lemma split_sep_snoc pre u :
  no_sep u → split_sep (pre ++ Separator :: u) = split_sep pre ++ [u].
Proof.
  intros Hu. rewrite <- (Join_split_sep pre) at 1.
  change (Separator :: u) with ([Separator] ++ u).
  rewrite <- strings.Join_snoc by apply split_sep_nonempty.
  apply split_sep_Join; [by destruct (split_sep pre)|].
  apply Forall_app. split; [apply split_sep_no_sep|by apply Forall_singleton].
Qed.

Lemma split_sep_elem e : no_sep e → split_sep e = [e].
Proof. intros He. by apply (split_sep_Join [e]); [|apply Forall_singleton]. Qed.

Lemma clean_push_normal rooted stack e :
  normal_elem e → clean_push rooted stack e = e :: stack.
Proof.
  intros (Hne & _ & Hdot & Hdd). unfold clean_push.
  rewrite bool_decide_eq_false_2 by by intros [|].
  by rewrite bool_decide_eq_false_2.
Qed.

Lemma clean_push_pop rooted stack e :
  e ≠ ".." → clean_push rooted (e :: stack) ".." = stack.
Proof. intros He. unfold clean_push. simpl. by rewrite bool_decide_eq_true_2. Qed.

(** A path that ends in a separator and a normal element is cleaned
    to a directory part, empty or ending in a separator, and that element. *)
Lemma Clean_snoc pre u :
  normal_elem u →
  ∃ dir, Clean (pre ++ Separator :: u) = dir ++ u
         ∧ (dir = [] ∨ ∃ d, dir = d ++ [Separator]).
Proof.
  intros Hu. pose proof Hu as (Hne & Hns & _).
  rewrite Clean_clean_ref. unfold clean_ref, clean_elems.
  rewrite split_sep_snoc, foldl_app by done. cbn [foldl].
  rewrite clean_push_normal, render_cons by done.
  set (rooted := is_rooted _). set (stack := foldl _ _ _).
  destruct (bool_decide (stack = [])).
  - exists (root rooted). rewrite bool_decide_eq_false_2 by by destruct rooted, u.
    split; [done|]. destruct rooted; [right; by exists []|by left].
  - exists (render rooted stack ++ [Separator]).
    rewrite <- (assoc_L (++)). rewrite bool_decide_eq_false_2 by by destruct (render _ _).
    split; [done|]. right. by eexists.
Qed.
