(* ===== verification/Naming.v ===== *)
(** The naming translator of systemd.go: the constants [SystemdDbus] and
    [defaultSlice], [unitName], [splitName] and the path generator [Slice].
    The definitions follow the source line by line and call the library
    models of [GoStrings] and [FilePath]; the theorems are the properties of
    the naming scheme: round trips, the behaviour on every shape of path, the
    default group, and, with the reference definitions of [CleanRef], what
    the generator returns on every group and every name: the normal form of
    the joined path, its shape, its length and its last element. *)

From Stdlib Require Import Ascii.
From S2P Require Import Prelude GoStrings FilePath CleanRef.

#[local] Open Scope go_scope.

(** [type Name string]: the name of a subsystem. *)
Definition Name : Set := gostring.

(** [type Path func(subsystem Name) (string, error)]. *)
Definition Path : Type := Name → result gostring.

(** [SystemdDbus Name = "systemd"]. *)
Definition SystemdDbus : Name := "systemd".

(** [defaultSlice = "system.slice"]. *)
Definition defaultSlice : gostring := "system.slice".

(** [func unitName(name string) string { return fmt.Sprintf("%s.slice", name) }] *)
Definition unitName (name : gostring) : gostring :=
  fmt.Sprintf "%s.slice" [name].

(** [func splitName(path string) (slice string, unit string) {
       slice, unit = filepath.Split(path)
       return strings.TrimSuffix(slice, "/"), unit }] *)
Definition splitName (path : gostring) : gostring * gostring :=
  let '(slice, unit) := filepath.Split path in
  (strings.TrimSuffix slice "/", unit).

(** [func Slice(slice, name string) Path {
       if slice == "" { slice = defaultSlice }
       return func(subsystem Name) (string, error) {
         return filepath.Join(slice, unitName(name)), nil } }] *)
Definition Slice (slice name : gostring) : Path :=
  let slice := if bool_decide (slice = []) then defaultSlice else slice in
  λ subsystem, Ok (filepath.Join [slice; unitName name]).

(** The parent group the generator uses: the default group for the empty
    string (the [if] of [Slice]). *)
Definition group_of (slice : gostring) : gostring :=
  if bool_decide (slice = []) then defaultSlice else slice.

(** The reference definition of [splitName] on path elements: the unit is
    the last element, the group the elements before it. *)
Definition splitName_ref (path : gostring) : gostring * gostring :=
  let elems := split_sep path in
  (strings.Join (removelast elems) "/", List.last elems []).

(** ** Lemmas *)

Section naming.
Import filepath.
Implicit Types (name slice unit path group : gostring) (subsystem : Name).

Lemma unitName_eq name : unitName name = name ++ ".slice".
Proof. apply fmt.Sprintf_suffix_slice. Qed.

Lemma unitName_length name : length (unitName name) = length name + 6.
Proof. rewrite unitName_eq, length_app. done. Qed.

Lemma unitName_no_sep name : no_sep name → no_sep (unitName name).
Proof.
  unfold no_sep. rewrite unitName_eq, not_elem_of_app. intros Hn. split; [done|].
  by apply (bool_decide_unpack _).
Qed.

(** The unit name of a name without separator is an element that [Clean]
    keeps. *)
Lemma unitName_normal name : no_sep name → normal_elem (unitName name).
Proof.
  intros Hns. split_and!; [| by apply unitName_no_sep |..];
    intros H; apply (f_equal length) in H; rewrite unitName_length in H;
    simpl in H; lia.
Qed.

Lemma splitName_dir_file group unit :
  no_sep unit → splitName (group ++ Separator :: unit) = (group, unit).
Proof.
  intros Hns. unfold splitName. rewrite Split_dir_file by done.
  f_equal. apply (strings.TrimSuffix_app group "/").
Qed.

Lemma splitName_file path : no_sep path → splitName path = ([], path).
Proof. intros Hns. unfold splitName. by rewrite Split_file. Qed.

Lemma Slice_unfold slice name subsystem :
  Slice slice name subsystem
  = Ok (Join [if bool_decide (slice = []) then defaultSlice else slice; unitName name]).
Proof. done. Qed.

Lemma defaultSlice_simple : simple_path defaultSlice.
Proof. apply simple_path_elem. by apply (bool_decide_unpack _). Qed.

Lemma Split_file_no_sep_name name : no_sep (splitName name).2.
Proof.
  unfold splitName. pose proof (Split_file_no_sep name).
  by destruct (Split name).
Qed.

Lemma Slice_simple_path slice name subsystem :
  simple_path slice → no_sep name →
  Slice slice name subsystem = Ok (slice ++ Separator :: unitName name).
Proof.
  intros Hs Hn. rewrite Slice_unfold.
  rewrite bool_decide_eq_false_2 by by apply simple_path_nonempty.
  by rewrite Join_simple by auto using unitName_normal.
Qed.

(** On every group and every name the generator cleans the group, one
    separator and the unit name. *)
Lemma Slice_Clean slice name subsystem :
  Slice slice name subsystem = Ok (Clean (group_of slice ++ Separator :: unitName name)).
Proof.
  rewrite Slice_unfold. fold (group_of slice). unfold Join.
  rewrite bool_decide_eq_true_2; [by rewrite strings.Join_pair|].
  unfold group_of. by case_bool_decide.
Qed.

(** The path the generator cleans ends in a separator and the unit name of
    the last element of the name. *)
Lemma Slice_last_elem slice name :
  ∃ pre, group_of slice ++ Separator :: unitName name
         = pre ++ Separator :: unitName (splitName name).2.
Proof.
  unfold splitName. pose proof (Split_app name) as Happ.
  destruct (Split_dir_shape name) as [Hd|[d Hd]];
    destruct (Split name) as [dir file]; simpl in *; subst.
  - by eexists.
  - exists (group_of slice ++ Separator :: d).
    rewrite !unitName_eq, <- !(assoc_L (++)). done.
Qed.

Lemma splitName_dir_sep d unit : no_sep unit → splitName ((d ++ [Separator]) ++ unit) = (d, unit).
Proof. intros Hns. rewrite <- (assoc_L (++)). by apply splitName_dir_file. Qed.

Lemma splitName_ref_snoc dir unit :
  no_sep unit → splitName_ref (dir ++ Separator :: unit) = (dir, unit).
Proof.
  intros Hns. unfold splitName_ref. rewrite split_sep_snoc by done.
  by rewrite removelast_last, last_last, Join_split_sep.
Qed.

(** The unit that [splitName] finds in a path generated by [Slice] is the
    unit name of the last element of the name. *)
Lemma Slice_splitName_unit slice name subsystem path :
  Slice slice name subsystem = Ok path →
  (splitName path).2 = unitName (splitName name).2.
Proof.
  rewrite Slice_Clean. intros [= <-].
  destruct (Slice_last_elem slice name) as [pre ->].
  assert (no_sep (splitName name).2) as Hns by apply Split_file_no_sep_name.
  destruct (Clean_snoc pre _ (unitName_normal _ Hns)) as (dir & -> & [->|[d ->]]).
  - by rewrite splitName_file by by apply unitName_no_sep.
  - by rewrite splitName_dir_sep by by apply unitName_no_sep.
Qed.

(** A first element [..] of the name cancels a group of one element. *)
Lemma Slice_dotdot slice name subsystem :
  normal_elem slice → no_sep name →
  Slice slice ("../" ++ name) subsystem = Ok (unitName name).
Proof.
  intros Hs Hn. pose proof (unitName_normal name Hn) as Hu.
  pose proof Hs as (Hne & Hns & _ & Hdd). rewrite Slice_Clean, Clean_clean_ref. f_equal.
  unfold group_of. rewrite bool_decide_eq_false_2 by done.
  replace (slice ++ Separator :: unitName ("../" ++ name))
    with (strings.Join [slice; ".."; unitName name] [Separator])
    by (rewrite !unitName_eq; simpl; by rewrite <- ?app_assoc).
  unfold clean_ref. rewrite split_sep_Join; [|done|];
    [|repeat apply Forall_cons_2;
      [done|by apply (bool_decide_unpack _)|apply Hu|constructor]].
  assert (is_rooted (strings.Join [slice; ".."; unitName name] [Separator]) = false) as ->.
  { destruct slice as [|c slice]; [done|]. apply bool_decide_eq_false_2.
    intros ->. apply Hns. by left. }
  unfold clean_elems. simpl. rewrite (clean_push_normal false [] slice Hs).
  rewrite clean_push_pop, clean_push_normal by done. simpl.
  rewrite bool_decide_eq_false_2; [done|by destruct Hu].
Qed.

End naming.

(** ** Properties of the naming translator *)

Section naming_properties.
Import filepath.
Implicit Types (name slice unit path group : gostring) (subsystem : Name).

(** C30: [unitName] appends the suffix [.slice] to every name, and trimming
    that suffix from the result gives the name back, whatever the name is
    (also when it already ends in the suffix). *)
Theorem unitName_roundtrip name :
  strings.HasSuffix (unitName name) ".slice" = true
  ∧ strings.TrimSuffix (unitName name) ".slice" = name.
Proof.
  rewrite unitName_eq. split;
    [apply strings.HasSuffix_app | apply strings.TrimSuffix_app].
Qed.

(** [unitName] is not idempotent: a name that already carries the
    suffix is suffixed again. *)
Theorem unitName_double_suffix name :
  unitName (unitName name) = name ++ ".slice.slice"
  ∧ unitName (unitName name) ≠ unitName name.
Proof.
  rewrite !unitName_eq, <- (assoc_L (++)). split; [done|].
  intros H. apply (f_equal length) in H. rewrite !length_app in H. simpl in H. lia.
Qed.

(** C11: for a path [group/unit] whose last element [unit] has no
    separator, [splitName] returns the group and the unit. The group may
    itself contain separators; exactly one separator is removed. A path
    without separator has an empty parent group and is its own unit. *)
Theorem splitName_join group unit :
  no_sep unit →
  splitName (group ++ "/" ++ unit) = (group, unit) ∧ splitName unit = ([], unit).
Proof. intros Hns. split; [by apply splitName_dir_file|by apply splitName_file]. Qed.

Lemma splitName_join_witness :
  splitName ("mygroup" ++ "/" ++ "mycontainer") = ("mygroup", "mycontainer")
  ∧ splitName "mycontainer" = ([], "mycontainer").
Proof. apply splitName_join. by apply (bool_decide_unpack _). Defined.

(** On every path, [splitName] returns a unit without separator, and
    the path is either the unit alone (with an empty group) or the group, one
    separator and the unit. *)
Theorem splitName_total path :
  no_sep (splitName path).2
  ∧ ((no_sep path ∧ splitName path = ([], path))
     ∨ path = (splitName path).1 ++ "/" ++ (splitName path).2).
Proof.
  destruct (path_shape path) as [Hns|(dir & file & -> & Hns)].
  - rewrite splitName_file by done. split; [done|]. by left.
  - rewrite splitName_dir_file by done. split; [done|]. by right.
Qed.

(** C31: the path generator built with an empty parent group uses the
    default group: for every name and every subsystem argument it returns what
    the generator built with ["system.slice"] returns, and for a name without
    separator that is [system.slice/<name>.slice]. *)
Theorem Slice_default_group name subsystem :
  no_sep name →
  Slice "" name subsystem = Slice defaultSlice name subsystem
  ∧ Slice "" name subsystem = Ok ("system.slice/" ++ name ++ ".slice").
Proof.
  intros Hn. split; [done|]. change (Slice "" name subsystem) with (Slice defaultSlice name subsystem).
  rewrite Slice_simple_path by auto using defaultSlice_simple. by rewrite unitName_eq.
Qed.

Lemma Slice_default_group_witness :
  Slice "" "foo" "cpu" = Slice defaultSlice "foo" "cpu"
  ∧ Slice "" "foo" "cpu" = Ok ("system.slice/" ++ "foo" ++ ".slice").
Proof. apply Slice_default_group. by apply (bool_decide_unpack _). Defined.

(** C13: for a clean relative group and a name without separator, the
    generated path is the group, one separator, and the name with the suffix
    [.slice]; the subsystem argument does not matter. *)
Theorem Slice_path slice name subsystem :
  simple_path slice → no_sep name →
  Slice slice name subsystem = Ok (slice ++ "/" ++ name ++ ".slice").
Proof.
  intros Hs Hn. rewrite Slice_simple_path by done. by rewrite unitName_eq.
Qed.

Lemma Slice_path_witness :
  Slice "machine.slice" "web" "cpu" = Ok ("machine.slice" ++ "/" ++ "web" ++ ".slice").
Proof.
  apply Slice_path.
  - apply simple_path_elem. by apply (bool_decide_unpack _).
  - by apply (bool_decide_unpack _).
Defined.

(** A path generated by [Slice] is split back by [splitName] into the
    group and the unit name. *)
Theorem Slice_splitName slice name subsystem :
  simple_path slice → no_sep name →
  ∃ path, Slice slice name subsystem = Ok path
          ∧ splitName path = (slice, unitName name).
Proof.
  intros Hs Hn. eexists. split; [by apply Slice_simple_path|].
  apply splitName_dir_file. by apply unitName_no_sep.
Qed.

Lemma Slice_splitName_witness :
  ∃ path, Slice "machine.slice" "web" "cpu" = Ok path
          ∧ splitName path = ("machine.slice", unitName "web").
Proof.
  apply Slice_splitName.
  - apply simple_path_elem. by apply (bool_decide_unpack _).
  - by apply (bool_decide_unpack _).
Defined.

(** C39: only one separator is stripped from the group, and a rooted path
    loses its root: a path with a doubled last separator gives a group that
    still ends in a separator, and the path [/unit] gives the empty group,
    as a bare name does. *)
Theorem splitName_strips_one_separator group unit :
  no_sep unit →
  splitName (group ++ "//" ++ unit) = (group ++ "/", unit)
  ∧ splitName ("/" ++ unit) = ([], unit).
Proof.
  intros Hns. split; [|by apply (splitName_dir_file [])].
  rewrite <- (splitName_dir_file (group ++ "/") unit Hns). by rewrite <- app_assoc.
Qed.

Lemma splitName_strips_one_separator_witness :
  splitName ("a" ++ "//" ++ "b") = ("a" ++ "/", "b")
  ∧ splitName ("/" ++ "b") = ([], "b").
Proof. apply splitName_strips_one_separator. by apply (bool_decide_unpack _). Defined.

(** The generator never fails and ignores its subsystem argument. *)
Lemma Slice_total slice name (s1 s2 : Name) :
  is_Ok (Slice slice name s1) = true ∧ Slice slice name s1 = Slice slice name s2.
Proof. done. Qed.

(** C40: the name is not validated: a name whose first element is [..]
    leaves the parent group. For a group of one element and the name
    [../<name>] the generated path is [<name>.slice] at the top level; so
    [machine.slice] with the name [../escape] gives [escape.slice]. *)
Theorem Slice_name_escapes slice name subsystem :
  normal_elem slice → no_sep name →
  Slice slice ("../" ++ name) subsystem = Ok (name ++ ".slice").
Proof. intros Hs Hn. rewrite <- unitName_eq. by apply Slice_dotdot. Qed.

Lemma Slice_name_escapes_witness :
  Slice "machine.slice" ("../" ++ "escape") "cpu" = Ok ("escape" ++ ".slice").
Proof. apply Slice_name_escapes; by apply (bool_decide_unpack _). Defined.

(** C26: [splitName] agrees on every path with the reference definition on
    path elements: the unit is the last element of the path and the group is
    the elements before it, joined by separators. *)
Theorem splitName_elements path : splitName path = splitName_ref path.
Proof.
  destruct (path_shape path) as [Hns|(dir & file & -> & Hns)].
  - rewrite splitName_file by done. unfold splitName_ref.
    by rewrite split_sep_elem.
  - by rewrite splitName_dir_file, splitName_ref_snoc.
Qed.

(** C17: on every parent group and every name, the generator returns the
    normal form of the path [group/name.slice] as the reference definition
    of [CleanRef] gives it: the elements of that path with the empty and [.]
    elements dropped and every [..] cancelled against the element before
    it, joined by single separators. *)
Theorem Slice_clean_ref slice name subsystem :
  Slice slice name subsystem
  = Ok (clean_ref (group_of slice ++ "/" ++ name ++ ".slice")).
Proof. by rewrite Slice_Clean, Clean_clean_ref, unitName_eq. Qed.

(** C23: every path the generator returns is a clean path: without empty
    or [.] elements, with [..] elements only at the start of a relative path,
    and [filepath.Clean] leaves it as it is. *)
Theorem Slice_clean_path slice name subsystem :
  ∃ path, Slice slice name subsystem = Ok path
          ∧ clean_path path ∧ Clean path = path.
Proof.
  eexists. split; [apply Slice_Clean|].
  split; [apply Clean_clean_path|apply Clean_idempotent].
Qed.

(** C25: the generated path is not empty and not longer than the group,
    one separator, the name and the suffix. *)
Theorem Slice_length slice name subsystem :
  ∃ path, Slice slice name subsystem = Ok path
          ∧ 1 ≤ length path ≤ length (group_of slice) + length name + 7.
Proof.
  eexists. split; [apply Slice_Clean|]. split.
  - pose proof (Clean_nonempty (group_of slice ++ Separator :: unitName name)).
    destruct (Clean _); [done|simpl; lia].
  - etrans; [apply Clean_length; by destruct (group_of slice)|].
    rewrite length_app. simpl. rewrite unitName_length. lia.
Qed.

(** C24: on every parent group and every name, the unit that [splitName]
    finds in the generated path is the unit name of the last element of
    the name: the unit a [Delete] of the generated path stops. *)
Theorem Slice_unit slice name subsystem :
  ∃ path, Slice slice name subsystem = Ok path
          ∧ (splitName path).2 = unitName (splitName name).2.
Proof.
  eexists. split; [apply Slice_Clean|].
  apply (Slice_splitName_unit slice name subsystem), Slice_Clean.
Qed.

End naming_properties.
