(* ===== verification/Proc.v ===== *)
(** Go functions with effects as finite command trees. A function body that
    calls operations of an interface (here: the D-Bus connection to systemd
    and Go channels) is a tree [proc Op T]: it returns a value of type [T], or
    performs an operation [op : Op X] and continues with its result. The file
    is generic in the operations; [Dbus] gives the operations of the
    controller.

    It defines sequencing ([proc_bind], with stdpp's monad notation), Go's
    [defer] for bodies that do not panic, equivalence of trees
    ([proc_equiv]: the same operations, continuations equivalent at every
    result), the executions of a tree against an arbitrary environment
    ([exec]: the trace of operations with their results and the returned
    value), the run of a tree against a machine that answers the operations
    ([run]), which may block, and the interleaved steps of a pool of trees
    that share one machine ([pool_step], [pool_steps]). The events of one
    tree among the steps of a pool ([project]) are an execution of that
    tree ([pool_steps_project]). *)

From S2P Require Import Prelude.

(** The two interfaces between a program and what it runs against. An
    instance of [Events] says how an operation and its result are recorded in
    a trace; an instance of [Machine] answers the operations from a state, or
    not at all when the operation blocks in that state. *)
Class Events (Op : Type → Type) (event : Type) : Type :=
  event_of : ∀ X, Op X → X → event.
#[global] Arguments event_of {Op event _ X} op x.

Class Machine (Op : Type → Type) (World : Type) : Type :=
  op_run : ∀ X, Op X → World → option (X * World).
#[global] Arguments op_run {Op World _ X} op w.

Section proc.
Context {Op : Type → Type}.

(** A command tree. *)
Inductive proc (T : Type) : Type :=
| Ret (v : T)
| Do {X : Type} (op : Op X) (k : X → proc T).
#[global] Arguments Ret {T} v.
#[global] Arguments Do {T X} op k.

(** Perform one operation and return its result. *)
Definition call {X : Type} (op : Op X) : proc X := Do op Ret.

(** Sequencing: run [p], then [f] on its result. *)
Fixpoint proc_bind {A B : Type} (p : proc A) (f : A → proc B) : proc B :=
  match p with
  | Ret v => f v
  | Do op k => Do op (λ x, proc_bind (k x) f)
  end.

#[global] Instance proc_ret : MRet proc := λ A, Ret.
#[global] Instance proc_mbind : MBind proc := λ A B f p, proc_bind p f.

(** [defer cleanup] at the top of a function body that returns through
    [return] statements only: the body runs, then the deferred call, then the
    function returns the body's value. *)
Definition defer {T : Type} (cleanup : proc unit) (body : proc T) : proc T :=
  v ← body; _ ← cleanup; Ret v.

(** Equivalence of trees: the same returned value, or the same operation
    and equivalent continuations at every result. Trees that differ only in
    how their continuations are written are equivalent. *)
Fixpoint proc_equiv {T : Type} (p q : proc T) : Prop :=
  match p with
  | Ret v => q = Ret v
  | Do op k => ∃ k', q = Do op k' ∧ ∀ x, proc_equiv (k x) (k' x)
  end.

#[global] Instance proc_equiv_instance {T} : Equiv (proc T) := proc_equiv.

(** ** Executions against an arbitrary environment *)

Context {event : Type} `{!Events Op event}.

(** [exec p tr v]: [p] can perform the operations of [tr], each with the
    result recorded in its event, and return [v]. The environment is free to
    answer an operation with any result of its type. *)
Fixpoint exec {T : Type} (p : proc T) (tr : list event) (v : T) : Prop :=
  match p with
  | Ret v' => tr = [] ∧ v = v'
  | Do op k => ∃ x tr', tr = event_of op x :: tr' ∧ exec (k x) tr' v
  end.

(** ** Runs against a machine *)

(** The result of a run: the function returned, or it is blocked in an
    operation that the machine cannot answer in its state. *)
Variant outcome (World T : Type) : Type :=
| Done (v : T) (w : World)
| Blocked (w : World).
#[global] Arguments Done {World T} v w.
#[global] Arguments Blocked {World T} w.

Context {World : Type} `{!Machine Op World}.

(** Run the tree from state [w]: the trace of the operations answered and
    the outcome. The recursion is on the tree, so a run always ends. *)
Fixpoint run {T : Type} (p : proc T) (w : World) : list event * outcome World T :=
  match p with
  | Ret v => ([], Done v w)
  | Do op k =>
      match op_run op w with
      | Some (x, w') =>
          let '(tr, o) := run (k x) w' in (event_of op x :: tr, o)
      | None => ([], Blocked w)
      end
  end.

(** One step of a tree: the event, the rest of the tree and the new
    state; none for a tree that has returned and for an operation that the
    machine does not answer. *)
Definition proc_step {T : Type} (p : proc T) (w : World)
    : option (event * proc T * World) :=
  match p with
  | Ret _ => None
  | Do op k =>
      match op_run op w with
      | Some (x, w') => Some (event_of op x, k x, w')
      | None => None
      end
  end.

(** A pool of trees that share the machine: a step of the pool is a step of
    one of its trees, labelled with the index of the tree and the event. *)
Inductive pool_step {T : Type}
    : list (proc T) * World → nat * event → list (proc T) * World → Prop :=
| pool_step_thread ts w i p ev p' w' :
    ts !! i = Some p → proc_step p w = Some (ev, p', w') →
    pool_step (ts, w) (i, ev) (<[i := p']> ts, w').

Definition pool_steps {T : Type}
    : list (proc T) * World → list (nat * event) → list (proc T) * World → Prop :=
  lsteps pool_step.

(** The events of the tree [i] among the steps of a pool, in order. *)
Definition project (i : nat) (ls : list (nat * event)) : list event :=
  (filter (λ l, l.1 = i) ls).*2.

(** The steps of a pool along a schedule: the list of the indices of the
    trees that step, in order. None when a scheduled tree cannot step. *)
Fixpoint pool_run {T : Type} (sched : list nat) (c : list (proc T) * World)
    : option (list (nat * event) * (list (proc T) * World)) :=
  match sched with
  | [] => Some ([], c)
  | i :: sched =>
      p ← c.1 !! i;
      '(ev, p', w') ← proc_step p c.2;
      '(ls, c') ← pool_run sched (<[i := p']> c.1, w');
      Some ((i, ev) :: ls, c')
  end.

(** ** Lemmas *)

Lemma exec_Ret {T} (v v' : T) tr : exec (Ret v') tr v ↔ tr = [] ∧ v = v'.
Proof. done. Qed.

Lemma exec_call {X} (op : Op X) tr x :
  exec (call op) tr x ↔ tr = [event_of op x].
Proof.
  simpl. split.
  - by intros (x' & tr' & -> & -> & ->).
  - intros ->. by exists x, [].
Qed.

(** An execution of a sequence is an execution of its first part followed by
    an execution of the rest. *)
Lemma exec_bind {A B} (p : proc A) (f : A → proc B) tr v :
  exec (proc_bind p f) tr v
  ↔ ∃ tr1 tr2 a, tr = tr1 ++ tr2 ∧ exec p tr1 a ∧ exec (f a) tr2 v.
Proof.
  revert tr. induction p as [a|X op k IH]; intros tr; simpl.
  - split.
    + intros H. by exists [], tr, a.
    + by intros (tr1 & tr2 & a' & -> & [-> ->] & H).
  - split.
    + intros (x & tr' & -> & H). apply IH in H as (tr1 & tr2 & a & -> & H1 & H2).
      exists (event_of op x :: tr1), tr2, a. split_and!; [done| |done].
      by exists x, tr1.
    + intros (tr1 & tr2 & a & -> & (x & tr' & -> & H1) & H2).
      exists x, (tr' ++ tr2). split; [done|]. apply IH. by exists tr', tr2, a.
Qed.

Lemma exec_mbind {A B} (p : proc A) (f : A → proc B) tr v :
  exec (p ≫= f) tr v
  ↔ ∃ tr1 tr2 a, tr = tr1 ++ tr2 ∧ exec p tr1 a ∧ exec (f a) tr2 v.
Proof. apply exec_bind. Qed.

(** A deferred call that is a single operation is the last event of every
    execution, and the value is the body's. *)
Lemma exec_defer {T} (op : Op unit) (body : proc T) tr v :
  exec (defer (call op) body) tr v
  ↔ ∃ tr1, tr = tr1 ++ [event_of op ()] ∧ exec body tr1 v.
Proof.
  unfold defer. rewrite exec_mbind. split.
  - intros (tr1 & tr2 & a & -> & H1 & H2).
    apply exec_mbind in H2 as (tr3 & tr4 & [] & -> & H3 & [-> ->]).
    apply exec_call in H3 as ->. by exists tr1.
  - intros (tr1 & -> & H). exists tr1, [event_of op ()], v. split_and!; [done..|].
    apply exec_mbind. exists [event_of op ()], [], (). split_and!; [done| |done].
    by apply exec_call.
Qed.

(** A run that returns is an execution: the machine is one environment. *)
Lemma run_exec {T} (p : proc T) w tr v w' :
  run p w = (tr, Done v w') → exec p tr v.
Proof.
  revert w tr. induction p as [a|X op k IH]; intros w tr; simpl.
  - by intros [= <- <- <-].
  - destruct (op_run op w) as [[x w1]|]; [|done].
    destruct (run (k x) w1) as [tr1 o] eqn:Hrun. intros [= <- ->].
    exists x, tr1. split; [done|]. by eapply IH.
Qed.

(** The run of a sequence: the first part runs; if it returns, the rest
    runs from the state it left. *)
Lemma run_bind {A B} (p : proc A) (f : A → proc B) w :
  run (proc_bind p f) w
  = match run p w with
    | (tr1, Done a w1) => let '(tr2, o) := run (f a) w1 in (tr1 ++ tr2, o)
    | (tr1, Blocked w1) => (tr1, Blocked w1)
    end.
Proof.
  revert w. induction p as [a|X op k IH]; intros w; simpl.
  - by destruct (run (f a) w).
  - destruct (op_run op w) as [[x w1]|]; [|done]. rewrite IH.
    destruct (run (k x) w1) as [tr1 [a w2|w2]]; [|done].
    by destruct (run (f a) w2).
Qed.

(** ** Equivalence of trees *)

Lemma proc_equiv_Ret {T} (v : T) (q : proc T) : Ret v ≡ q ↔ q = Ret v.
Proof. done. Qed.

Lemma proc_equiv_Do {T X} (op : Op X) (k : X → proc T) (q : proc T) :
  Do op k ≡ q ↔ ∃ k', q = Do op k' ∧ ∀ x, k x ≡ k' x.
Proof. done. Qed.

Lemma proc_equiv_refl {T} (p : proc T) : p ≡ p.
Proof.
  induction p as [v|X op k IH]; [by apply proc_equiv_Ret|].
  apply proc_equiv_Do. exists k. by split.
Qed.

Lemma proc_equiv_sym {T} (p q : proc T) : p ≡ q → q ≡ p.
Proof.
  revert q. induction p as [v|X op k IH]; intros q.
  - by intros ->%proc_equiv_Ret.
  - intros (k' & -> & Hk)%proc_equiv_Do. apply proc_equiv_Do. exists k.
    split; [done|]. intros x. apply IH, Hk.
Qed.

Lemma proc_equiv_trans {T} (p q r : proc T) : p ≡ q → q ≡ r → p ≡ r.
Proof.
  revert q r. induction p as [v|X op k IH]; intros q r.
  - by intros ->%proc_equiv_Ret.
  - intros (k' & -> & Hk)%proc_equiv_Do (k'' & -> & Hk')%proc_equiv_Do.
    apply proc_equiv_Do. exists k''. split; [done|]. intros x.
    eapply IH; [apply Hk|apply Hk'].
Qed.

#[global] Instance proc_equivalence {T} : Equivalence (≡@{proc T}).
Proof.
  split; [intros p; apply proc_equiv_refl|intros p q; apply proc_equiv_sym|].
  intros p q r. apply proc_equiv_trans.
Qed.

(** Sequencing respects the equivalence, and satisfies the monad laws up to
    it. *)
Lemma proc_bind_equiv {A B} (p p' : proc A) (f f' : A → proc B) :
  p ≡ p' → (∀ a, f a ≡ f' a) → proc_bind p f ≡ proc_bind p' f'.
Proof.
  revert p'. induction p as [v|X op k IH]; intros p'.
  - intros ->%proc_equiv_Ret Hf. apply Hf.
  - intros (k' & -> & Hk)%proc_equiv_Do Hf. apply proc_equiv_Do.
    eexists. split; [done|]. intros x. apply IH; [apply Hk|done].
Qed.

#[global] Instance proc_bind_proper {A B} :
  Proper ((≡) ==> pointwise_relation A (≡) ==> (≡)) (@proc_bind A B).
Proof. intros p p' Hp f f' Hf. by apply proc_bind_equiv. Qed.

Lemma proc_bind_Ret_r {A} (p : proc A) : proc_bind p Ret ≡ p.
Proof.
  induction p as [v|X op k IH]; [done|]. apply proc_equiv_Do. eexists. by split.
Qed.

Lemma proc_bind_assoc {A B C} (p : proc A) (f : A → proc B) (g : B → proc C) :
  proc_bind (proc_bind p f) g ≡ proc_bind p (λ a, proc_bind (f a) g).
Proof.
  induction p as [v|X op k IH]; [apply proc_equiv_refl|].
  apply proc_equiv_Do. eexists. by split.
Qed.

(** Equivalent trees have the same executions, the same runs, and the same
    steps up to equivalence of what is left. *)
Lemma exec_equiv {T} (p q : proc T) tr v : p ≡ q → exec p tr v ↔ exec q tr v.
Proof.
  revert q tr. induction p as [v'|X op k IH]; intros q tr.
  - by intros ->%proc_equiv_Ret.
  - intros (k' & -> & Hk)%proc_equiv_Do. simpl.
    do 2 (apply exist_proper; intros ?). by rewrite (IH _ _ _ (Hk _)).
Qed.

#[global] Instance exec_proper {T} :
  Proper ((≡) ==> (=) ==> (=) ==> iff) (@exec T).
Proof. intros p q Hpq tr ? <- v ? <-. by apply exec_equiv. Qed.

Lemma run_equiv {T} (p q : proc T) w : p ≡ q → run p w = run q w.
Proof.
  revert q w. induction p as [v|X op k IH]; intros q w.
  - by intros ->%proc_equiv_Ret.
  - intros (k' & -> & Hk)%proc_equiv_Do. simpl.
    destruct (op_run op w) as [[x w']|]; [|done]. by rewrite (IH x (k' x) _ (Hk x)).
Qed.

#[global] Instance run_proper {T} : Proper ((≡) ==> (=) ==> (=)) (@run T).
Proof. intros p q Hpq w ? <-. by apply run_equiv. Qed.

Lemma proc_step_equiv {T} (p q : proc T) w ev p' w' :
  p ≡ q → proc_step p w = Some (ev, p', w') →
  ∃ q', proc_step q w = Some (ev, q', w') ∧ p' ≡ q'.
Proof.
  destruct p as [v|X op k]; [done|]. intros (k' & -> & Hk)%proc_equiv_Do. simpl.
  destruct (op_run op w) as [[x w1]|]; [|done]. intros [= <- <- <-].
  eexists. split; [done|]. apply Hk.
Qed.

(** ** Pools *)

(** The run of a tree of a pool is an interleaving of the pool in which
    only that tree steps. *)
Lemma run_pool_steps {T} (p : proc T) : ∀ ts i w tr v w',
  ts !! i = Some p → run p w = (tr, Done v w') →
  pool_steps (ts, w) ((λ ev, (i, ev)) <$> tr) (<[i := Ret v]> ts, w').
Proof.
  induction p as [a|X op k IH]; intros ts i w tr v w' Hi; simpl.
  { intros [= <- <- <-]. rewrite list_insert_id by done. constructor. }
  destruct (op_run op w) as [[x w1]|] eqn:Hop; [|done].
  destruct (run (k x) w1) as [tr1 o] eqn:Hrun. intros [= <- ->]. simpl.
  eapply lsteps_cons.
  - apply (pool_step_thread ts w i (Do op k)); [done|]. simpl. by rewrite Hop.
  - rewrite <- (list_insert_insert_eq ts i (Ret v) (k x)).
    apply (IH x); [|done]. apply list_lookup_insert_eq. by eapply lookup_lt_Some.
Qed.

(** The steps along a schedule are steps of the pool. *)
Lemma pool_run_steps {T} sched (c : list (proc T) * World) ls c' :
  pool_run sched c = Some (ls, c') → pool_steps c ls c'.
Proof.
  revert c ls. induction sched as [|i sched IH]; intros [ts w] ls; simpl.
  { intros [= <- <-]. constructor. }
  destruct (ts !! i) as [p|] eqn:Hi; [|done]. simpl.
  destruct (proc_step p w) as [[[ev p'] w']|] eqn:Hp; [|done]. simpl.
  destruct (pool_run sched _) as [[ls1 c1]|] eqn:Hrun; [|done]. simpl.
  intros [= <- <-]. eapply lsteps_cons; [by econstructor|by apply IH].
Qed.

(** ** The steps of one tree among the steps of a pool *)

Lemma proc_step_exec {T} (p : proc T) w ev p' w' tr v :
  proc_step p w = Some (ev, p', w') → exec p' tr v → exec p (ev :: tr) v.
Proof.
  destruct p as [v'|X op k]; simpl; [done|].
  destruct (op_run op w) as [[x w'']|]; [|done]. intros [= <- <- <-] Hex.
  by exists x, tr.
Qed.

(** The events of a tree among the steps of a pool, followed by an
    execution of what is left of the tree, are an execution of the tree:
    interleaving with other trees does not change what a tree does. *)
Lemma pool_steps_project {T} c ls c' i (p p' : proc T) tr v :
  pool_steps c ls c' → c.1 !! i = Some p → c'.1 !! i = Some p' →
  exec p' tr v → exec p (project i ls ++ tr) v.
Proof.
  intros Hsteps. revert p.
  induction Hsteps as [c|c1 l c2 ls c3 Hstep Hsteps IH]; intros p Hp Hp' Hex.
  { by simplify_eq. }
  destruct Hstep as [ts w k q ev q' w' Hk Hq]. simpl in *.
  unfold project. rewrite filter_cons. simpl. case_decide as Hki.
  - subst k. assert (q = p) as -> by congruence. simpl.
    apply (proc_step_exec _ _ _ _ _ _ _ Hq), IH; [|done..].
    by eapply list_lookup_insert_eq, lookup_lt_Some.
  - apply IH; [|done..]. by rewrite list_lookup_insert_ne.
Qed.

Lemma pool_steps_project_Ret {T} c ls c' i (p : proc T) v :
  pool_steps c ls c' → c.1 !! i = Some p → c'.1 !! i = Some (Ret v) →
  exec p (project i ls) v.
Proof.
  intros Hsteps Hp Hp'. rewrite <- (app_nil_r (project i ls)).
  by apply (pool_steps_project c ls c' i p (Ret v)).
Qed.

End proc.

#[global] Arguments proc Op T : clear implicits.
#[global] Arguments outcome World T : clear implicits.
