(* ===== verification/Dbus.v ===== *)
(** The interface the controller consumes: D-Bus variants (package [dbus]),
    unit properties (package [systemdDbus] of go-systemd), and the operations
    on a connection to systemd and on Go channels that systemd.go performs.
    The operations are the index type [Op] of the command trees of [Proc];
    an operation with its result is an [event] of a trace. *)

From Stdlib Require Import Ascii ZArith.
From S2P Require Import Prelude GoStrings Proc.

#[local] Open Scope go_scope.

Module dbus.

(** The Go values the source wraps in variants: [bool], [string] and
    [[]string]. *)
Variant govalue : Set :=
| GoBool (b : bool)
| GoString (s : gostring)
| GoStringSlice (l : list gostring).

(** [dbus.SignatureOf(v)]: the D-Bus type signature of a Go value. *)
Definition SignatureOf (v : govalue) : gostring :=
  match v with
  | GoBool _ => "b"
  | GoString _ => "s"
  | GoStringSlice _ => "as"
  end.

(** [type Variant struct { sig Signature; value interface{} }] *)
Record Variant : Set := mkVariant {
  sig : gostring;
  value : govalue
}.

(** [func MakeVariant(v interface{}) Variant {
       return Variant{SignatureOf(v), v} }] *)
Definition MakeVariant (v : govalue) : Variant := mkVariant (SignatureOf v) v.

(** A variant is well formed when its signature is the signature of its
    value, as the variants that [MakeVariant] builds are. *)
Definition wf_Variant (v : Variant) : Prop := sig v = SignatureOf (value v).

#[global] Instance govalue_eq_dec : EqDecision govalue.
Proof. solve_decision. Defined.

#[global] Instance Variant_eq_dec : EqDecision Variant.
Proof. solve_decision. Defined.

End dbus.

Module systemdDbus.

(** [type Property struct { Name string; Value dbus.Variant }] *)
Record Property : Set := mkProperty {
  Name : gostring;
  Value : dbus.Variant
}.

(** [func PropDescription(desc string) Property {
       return Property{Name: "Description", Value: dbus.MakeVariant(desc)} }] *)
Definition PropDescription (desc : gostring) : Property :=
  {| Name := "Description"; Value := dbus.MakeVariant (dbus.GoString desc) |}.

(** [func propDependency(name string, units []string) Property {
       return Property{Name: name, Value: dbus.MakeVariant(units)} }] *)
Definition propDependency (name : gostring) (units : list gostring) : Property :=
  {| Name := name; Value := dbus.MakeVariant (dbus.GoStringSlice units) |}.

(** [func PropWants(units ...string) Property {
       return propDependency("Wants", units) }] *)
Definition PropWants (units : list gostring) : Property :=
  propDependency "Wants" units.

(** A property list is well typed when every value is a well-formed
    variant and no property is named twice. *)
Definition wf_properties (properties : list Property) : Prop :=
  Forall (λ p, dbus.wf_Variant (Value p)) properties ∧ NoDup (Name <$> properties).

#[global] Instance Property_eq_dec : EqDecision Property.
Proof. solve_decision. Defined.

(** The value of the property called [name] in a property list: the first
    entry with that name. *)
Definition lookup_property (name : gostring) (properties : list Property)
    : option dbus.Variant :=
  match list_find (λ p, Name p = name) properties with
  | Some (_, p) => Some (Value p)
  | None => None
  end.

End systemdDbus.

(** ** Operations *)

(** A connection [*systemdDbus.Conn] and a channel [chan string], as handles:
    natural numbers, so that arithmetic on fresh handles needs no unfolding. *)
Abbreviation Conn := nat (only parsing).
Abbreviation Chan := nat (only parsing).

(** The operations of systemd.go on its environment, indexed by the type of
    their result:
    - [New]: [systemdDbus.New()], which returns a connection or an error;
    - [Close conn]: [conn.Close()];
    - [MakeChan]: [make(chan string)];
    - [StartTransientUnit conn name mode properties ch]: the method of that
      name, which returns the job id or an error; on success the library
      registers [ch] to receive the result of the job;
    - [StopUnit conn name mode ch]: likewise;
    - [Recv ch]: the receive expression [<-ch]. *)
Inductive Op : Type → Type :=
| New : Op (result Conn)
| Close (conn : Conn) : Op unit
| MakeChan : Op Chan
| StartTransientUnit (conn : Conn) (name mode : gostring)
    (properties : list systemdDbus.Property) (ch : Chan) : Op (result Z)
| StopUnit (conn : Conn) (name mode : gostring) (ch : Chan) : Op (result Z)
| Recv (ch : Chan) : Op gostring.

(** An operation together with its result. *)
Inductive event : Type :=
| EvNew (r : result Conn)
| EvClose (conn : Conn)
| EvMakeChan (ch : Chan)
| EvStartTransientUnit (conn : Conn) (name mode : gostring)
    (properties : list systemdDbus.Property) (ch : Chan) (r : result Z)
| EvStopUnit (conn : Conn) (name mode : gostring) (ch : Chan) (r : result Z)
| EvRecv (ch : Chan) (v : gostring).

#[global] Instance event_eq_dec : EqDecision event.
Proof. solve_decision. Defined.

#[global] Instance dbus_events : Events Op event := λ X op,
  match op in Op X return X → event with
  | New => EvNew
  | Close conn => λ _, EvClose conn
  | MakeChan => EvMakeChan
  | StartTransientUnit conn name mode properties ch =>
      EvStartTransientUnit conn name mode properties ch
  | StopUnit conn name mode ch => EvStopUnit conn name mode ch
  | Recv ch => EvRecv ch
  end.

(** ** Observations on traces *)

(** A request to the service manager: what the two request methods send. *)
Variant request : Type :=
| ReqStart (name mode : gostring) (properties : list systemdDbus.Property)
| ReqStop (name mode : gostring).

#[global] Instance request_eq_dec : EqDecision request.
Proof. solve_decision. Defined.

Definition event_request (e : event) : option request :=
  match e with
  | EvStartTransientUnit _ name mode properties _ _ => Some (ReqStart name mode properties)
  | EvStopUnit _ name mode _ _ => Some (ReqStop name mode)
  | _ => None
  end.

(** The requests issued along a trace, in order. *)
Definition requests (tr : list event) : list request :=
  omap event_request tr.

Definition is_recv (e : event) : bool :=
  match e with EvRecv _ _ => true | _ => false end.

(** The number of completion values consumed along a trace. *)
Definition receives (tr : list event) : nat := length (filter is_recv tr).

Definition is_new (e : event) : bool :=
  match e with EvNew _ => true | _ => false end.

(** The number of attempts to connect along a trace. *)
Definition connects (tr : list event) : nat := length (filter is_new tr).

(** The connections open at the end of a trace: opened with success and not
    closed since. *)
Fixpoint open_conns (tr : list event) (open : list Conn) : list Conn :=
  match tr with
  | [] => open
  | EvNew (Ok conn) :: tr => open_conns tr (conn :: open)
  | EvClose conn :: tr => open_conns tr (filter (λ c, c ≠ conn) open)
  | _ :: tr => open_conns tr open
  end.

(** Every operation on a connection happens while it is open: requests use
    a connection that is in [open] at that point. *)
Fixpoint conns_used_open (tr : list event) (open : list Conn) : bool :=
  match tr with
  | [] => true
  | EvNew (Ok conn) :: tr => conns_used_open tr (conn :: open)
  | EvClose conn :: tr =>
      bool_decide (conn ∈ open) && conns_used_open tr (filter (λ c, c ≠ conn) open)
  | EvStartTransientUnit conn _ _ _ _ _ :: tr
  | EvStopUnit conn _ _ _ _ :: tr =>
      bool_decide (conn ∈ open) && conns_used_open tr open
  | _ :: tr => conns_used_open tr open
  end.
