(* ===== verification/Controller.v ===== *)
(** The delegating controller of systemd.go: the record [SystemdController],
    its constructor [NewSystemd], its methods [Name], [Create] and [Delete]
    (in the module [SystemdController], as Go method expressions are written),
    the helper [newProperty] and the constructor [Systemd] of the subsystem
    list, with the theorems on the list it returns and on its errors. [Create] and [Delete] are command trees over the operations of
    [Dbus]: one operation per call of the source, in the order of the source,
    with its early returns and its deferred [Close]. *)

From Stdlib Require Import Ascii ZArith.
From S2P Require Import Prelude GoStrings FilePath Naming Proc Dbus.

#[local] Open Scope go_scope.

(** [sync.Mutex]: the zero value is an unlocked mutex. *)
Record Mutex : Set := mkMutex { locked : bool }.

(** [type SystemdController struct { mu sync.Mutex; root string }] *)
Record SystemdController : Set := mkSystemdController {
  mu : Mutex;
  root : gostring
}.

(** [func NewSystemd(root string) ( *SystemdController, error) {
       return &SystemdController{root: root}, nil }] *)
Definition NewSystemd (root : gostring) : result SystemdController :=
  Ok {| mu := mkMutex false; root := root |}.

(** [func newProperty(name string, units interface{}) systemdDbus.Property {
       return systemdDbus.Property{Name: name, Value: dbus.MakeVariant(units)} }] *)
Definition newProperty (name : gostring) (units : dbus.govalue)
    : systemdDbus.Property :=
  {| systemdDbus.Name := name; systemdDbus.Value := dbus.MakeVariant units |}.

Module SystemdController.
Section methods.
(** [specs.LinuxResources]: the resource limits, which the controller
    accepts and does not inspect. *)
Context {LinuxResources : Type}.

(** [func (s *SystemdController) Name() Name { return SystemdDbus }] *)
Definition Name (s : SystemdController) : Name := SystemdDbus.

(** The property list of [Create] (the slice literal [properties]). *)
Definition Create_properties (slice name : gostring) : list systemdDbus.Property :=
  [ systemdDbus.PropDescription (fmt.Sprintf "cgroup %s" [name]);
    systemdDbus.PropWants [slice];
    newProperty "DefaultDependencies" (dbus.GoBool false);
    newProperty "Delegate" (dbus.GoBool true);
    newProperty "MemoryAccounting" (dbus.GoBool true);
    newProperty "CPUAccounting" (dbus.GoBool true);
    newProperty "BlockIOAccounting" (dbus.GoBool true) ].

(** The body of [Create] after the deferred [Close]: split the path, build
    the properties, make the channel, submit the request; return the
    submission error, or wait for one value on the channel and return nil. *)
Definition Create_body (conn : Conn) (path : gostring) : proc Op (option error) :=
  let '(slice, name) := splitName path in
  let properties := Create_properties slice name in
  ch ← call MakeChan;
  r ← call (StartTransientUnit conn name "replace" properties ch);
  match r with
  | Err err => mret (Some err)
  | Ok _ => _ ← call (Recv ch); mret None
  end.

(** [func (s *SystemdController) Create(path string, resources *specs.LinuxResources) error] *)
Definition Create (s : SystemdController) (path : gostring)
    (resources : option LinuxResources) : proc Op (option error) :=
  r ← call New;
  match r with
  | Err err => mret (Some err)
  | Ok conn => defer (call (Close conn)) (Create_body conn path)
  end.

(** The body of [Delete] after the deferred [Close]. *)
Definition Delete_body (conn : Conn) (path : gostring) : proc Op (option error) :=
  let '(_, name) := splitName path in
  ch ← call MakeChan;
  r ← call (StopUnit conn name "replace" ch);
  match r with
  | Err err => mret (Some err)
  | Ok _ => _ ← call (Recv ch); mret None
  end.

(** [func (s *SystemdController) Delete(path string) error] *)
Definition Delete (s : SystemdController) (path : gostring) : proc Op (option error) :=
  r ← call New;
  match r with
  | Err err => mret (Some err)
  | Ok conn => defer (call (Close conn)) (Delete_body conn path)
  end.

End methods.
End SystemdController.

(** ** The subsystem list *)

Section Systemd.
(** The other controllers of the package, each with its [Name] method, the
    result of [v1MountPoint()] and the function [defaults]. *)
Context {Controller : Type} (Controller_Name : Controller → Name).
Context (v1MountPoint : result gostring).
Context (defaults : gostring → result (list Controller)).

(** A value of the interface type [Subsystem]: the systemd controller or one
    of the other controllers. *)
Variant Subsystem : Type :=
| SystemdSubsystem (s : SystemdController)
| OtherSubsystem (c : Controller).

(** The method [Name] of the interface, by dynamic dispatch. *)
Definition Subsystem_Name (s : Subsystem) : Name :=
  match s with
  | SystemdSubsystem s => SystemdController.Name s
  | OtherSubsystem c => Controller_Name c
  end.

(** [func Systemd() ([]Subsystem, error)]: the mount point, the default
    subsystems and the systemd controller, each with its early return, then
    [append([]Subsystem{s}, defaultSubsystems...)]. *)
Definition Systemd : result (list Subsystem) :=
  match v1MountPoint with
  | Err err => Err err
  | Ok root =>
      match defaults root with
      | Err err => Err err
      | Ok defaultSubsystems =>
          match NewSystemd root with
          | Err err => Err err
          | Ok s => Ok ([SystemdSubsystem s] ++ (OtherSubsystem <$> defaultSubsystems))
          end
      end
  end.

End Systemd.

(** A sample of the other controllers: a controller is its name. *)
Definition sample_defaults (root : gostring) : result (list gostring) :=
  Ok ["cpu"; "memory"].

(** ** The subsystem list: theorems *)

Section Systemd_theorems.
Context {Controller : Type} (Controller_Name : Controller → Name).
Context (v1MountPoint : result gostring).
Context (defaults : gostring → result (list Controller)).

Lemma Systemd_Ok mount defaultSubsystems :
  v1MountPoint = Ok mount → defaults mount = Ok defaultSubsystems →
  Systemd v1MountPoint defaults
  = Ok (SystemdSubsystem (mkSystemdController (mkMutex false) mount)
        :: (OtherSubsystem <$> defaultSubsystems)).
Proof. intros Hm Hd. unfold Systemd. by rewrite Hm, Hd. Qed.

(** C33: when the mount point and the default subsystems are found,
    [Systemd] returns the systemd controller first, rooted at the mount
    point, with an unlocked mutex and the name [systemd], followed by the
    default subsystems in their order. *)
Theorem Systemd_subsystems mount defaultSubsystems :
  v1MountPoint = Ok mount → defaults mount = Ok defaultSubsystems →
  ∃ s, Systemd v1MountPoint defaults
       = Ok (SystemdSubsystem s :: (OtherSubsystem <$> defaultSubsystems))
    ∧ root s = mount ∧ mu s = mkMutex false
    ∧ Subsystem_Name Controller_Name (SystemdSubsystem s) = "systemd".
Proof. intros Hm Hd. eexists. split; [by apply Systemd_Ok|done]. Qed.

(** C34: [Systemd] fails exactly when the mount point is not found, with
    that error, or when it is found and the default subsystems fail, with
    their error; the mount point is looked up first. *)
Theorem Systemd_error err :
  Systemd v1MountPoint defaults = Err err
  ↔ v1MountPoint = Err err
    ∨ ∃ root, v1MountPoint = Ok root ∧ defaults root = Err err.
Proof.
  unfold Systemd. destruct v1MountPoint as [mount|e]; simpl.
  - destruct (defaults mount) as [ds|e] eqn:Hd; simpl.
    + split; [done|]. intros [[=]|(r & [= <-] & H)]. by rewrite Hd in H.
    + split; [intros [= ->]; right; by exists mount|].
      intros [[=]|(r & [= <-] & H)]. rewrite Hd in H. by injection H as ->.
  - split; [intros [= ->]; by left|]. by intros [[= ->]|(r & [=] & _)].
Qed.

End Systemd_theorems.

Lemma Systemd_subsystems_witness :
  ∃ s, Systemd (Ok "/sys/fs/cgroup") sample_defaults
       = Ok (SystemdSubsystem s :: (OtherSubsystem <$> ["cpu"; "memory"]))
    ∧ root s = "/sys/fs/cgroup" ∧ mu s = mkMutex false
    ∧ Subsystem_Name id (SystemdSubsystem s) = "systemd".
Proof. by apply (Systemd_subsystems id (Ok "/sys/fs/cgroup") sample_defaults). Defined.
