(* ===== verification/Protocol.v ===== *)
(** The protocol of one controller call. [call_trace req] is the
    specification: the three traces a call that submits the request [req] may
    leave, each with the error it returns. [Create] and [Delete] are shown to
    have exactly these executions against every environment; the properties
    of a call (one connection, at most one request, success only after one
    completion value, the connection closed on every path) are proved once
    for the specification and hold for both methods. *)

From Stdlib Require Import Ascii ZArith.
From S2P Require Import Prelude GoStrings FilePath Naming Proc Dbus Controller.

#[local] Open Scope go_scope.

(** The event of submitting [req] on [conn] with the channel [ch]. *)
Definition request_event (conn : Conn) (ch : Chan) (req : request) (r : result Z)
    : event :=
  match req with
  | ReqStart name mode properties => EvStartTransientUnit conn name mode properties ch r
  | ReqStop name mode => EvStopUnit conn name mode ch r
  end.

(** The traces of a call and the error returned with each:
    - the connection fails: nothing else happens, its error is returned;
    - the submission fails: its error is returned after the connection is
      closed, and nothing is received;
    - the submission is accepted: one value is received on the channel given
      with the request, the connection is closed, nil is returned. *)
Inductive call_trace (req : request) : list event → option error → Prop :=
| call_connect_error e :
    call_trace req [EvNew (Err e)] (Some e)
| call_submit_error conn ch e :
    call_trace req
      [EvNew (Ok conn); EvMakeChan ch; request_event conn ch req (Err e); EvClose conn]
      (Some e)
| call_success conn ch job v :
    call_trace req
      [EvNew (Ok conn); EvMakeChan ch; request_event conn ch req (Ok job);
       EvRecv ch v; EvClose conn]
      None.

(** The channels on which a completion value will arrive: those given with
    an accepted request. Every receive of the trace must be on one of them. *)
Fixpoint receives_registered (tr : list event) (registered : list Chan) : bool :=
  match tr with
  | [] => true
  | EvStartTransientUnit _ _ _ _ ch (Ok _) :: tr
  | EvStopUnit _ _ _ ch (Ok _) :: tr => receives_registered tr (ch :: registered)
  | EvRecv ch _ :: tr => bool_decide (ch ∈ registered) && receives_registered tr registered
  | _ :: tr => receives_registered tr registered
  end.

(** The request of [Create] for a path: start a transient unit named by the
    last element of the path, replacing a conflicting job, with the property
    list of the source. *)
Definition Create_request (path : gostring) : request :=
  ReqStart (splitName path).2 "replace"
    (SystemdController.Create_properties (splitName path).1 (splitName path).2).

(** The request of [Delete] for a path. *)
Definition Delete_request (path : gostring) : request :=
  ReqStop (splitName path).2 "replace".

(** ** Calls of the controller *)

(** A call of one of the two methods that talk to systemd, as data. *)
Variant method {LinuxResources : Type} : Type :=
| CreateCall (path : gostring) (resources : option LinuxResources)
| DeleteCall (path : gostring).
#[global] Arguments method LinuxResources : clear implicits.

(** The command tree of a call. *)
Definition method_proc {LR : Type} (s : SystemdController) (m : method LR)
    : proc Op (option error) :=
  match m with
  | CreateCall path resources => SystemdController.Create s path resources
  | DeleteCall path => SystemdController.Delete s path
  end.

(** The request a call submits. *)
Definition method_request {LR : Type} (m : method LR) : request :=
  match m with
  | CreateCall path _ => Create_request path
  | DeleteCall path => Delete_request path
  end.

(** A controller, a call and three traces, one of each shape, used to
    instantiate the theorems below. *)
Definition sample_controller : SystemdController :=
  mkSystemdController (mkMutex false) "/sys/fs/cgroup".

Definition sample_call : method unit := CreateCall "mygroup/mycontainer" None.

Definition sample_connect_error : error :=
  errorString "dial unix /var/run/dbus/system_bus_socket: connect: no such file or directory".

Definition sample_submit_error : error :=
  errorString "Unit mycontainer already exists.".

Definition sample_rejected_trace : list event :=
  [EvNew (Ok 3); EvMakeChan 5;
   request_event 3 5 (Create_request "mygroup/mycontainer") (Err sample_submit_error);
   EvClose 3].

Definition sample_success_trace : list event :=
  [EvNew (Ok 3); EvMakeChan 5;
   request_event 3 5 (Create_request "mygroup/mycontainer") (Ok 42%Z);
   EvRecv 5 "done"; EvClose 3].

(** The value of a property of the request of [Create]. *)
Definition Create_property (path name : gostring) : option dbus.Variant :=
  match Create_request path with
  | ReqStart _ _ properties => systemdDbus.lookup_property name properties
  | ReqStop _ _ => None
  end.

(** ** The properties of the specification *)

Section call_trace.
Context (req : request).
Implicit Types (tr : list event) (ret : option error).

Lemma requests_request_event conn ch r tr :
  requests (request_event conn ch req r :: tr) = req :: requests tr.
Proof. by destruct req. Qed.

Lemma call_trace_connects tr ret : call_trace req tr ret → connects tr = 1.
Proof. destruct 1; by destruct req. Qed.

Lemma call_trace_requests tr ret :
  call_trace req tr ret →
  (requests tr = [] ∨ requests tr = [req]) ∧ (ret = None → requests tr = [req]).
Proof.
  destruct 1; destruct req; simpl; (split; [first [by left|by right]|done]).
Qed.

Lemma call_trace_receives tr ret :
  call_trace req tr ret →
  (ret = None ↔ receives tr = 1) ∧ (is_Some ret ↔ receives tr = 0).
Proof.
  destruct 1; destruct req; simpl; (split; split); try done; by eauto.
Qed.

Lemma call_trace_registered tr ret :
  call_trace req tr ret → receives_registered tr [] = true.
Proof.
  destruct 1; destruct req; simpl; try done;
    by rewrite bool_decide_eq_true_2 by constructor.
Qed.

Lemma call_trace_conns tr ret :
  call_trace req tr ret → open_conns tr [] = [] ∧ conns_used_open tr [] = true.
Proof.
  destruct 1; destruct req; simpl; try done;
    rewrite filter_cons_False by (by intros ?);
    by rewrite !bool_decide_eq_true_2 by constructor.
Qed.

Lemma call_trace_connect_error tr ret e :
  call_trace req tr ret → tr !! 0 = Some (EvNew (Err e)) →
  tr = [EvNew (Err e)] ∧ ret = Some e.
Proof. destruct 1; by intros [= <-]. Qed.

Lemma call_trace_submit_error tr ret conn ch e :
  call_trace req tr ret → request_event conn ch req (Err e) ∈ tr →
  ret = Some e ∧ receives tr = 0 ∧ last tr = Some (EvClose conn).
Proof.
  destruct 1; destruct req; rewrite ?elem_of_cons, ?elem_of_nil; simpl;
    intros H; destruct_or?; by simplify_eq.
Qed.

(** The order of a successful call: connect, submit, receive, close. *)
Lemma call_trace_success tr :
  call_trace req tr None →
  ∃ conn ch job v,
    tr = [EvNew (Ok conn); EvMakeChan ch; request_event conn ch req (Ok job);
          EvRecv ch v; EvClose conn].
Proof. inversion 1. by eexists _, _, _, _. Qed.

End call_trace.

(** ** [Create] and [Delete] implement the specification *)

Section implementation.
Context {LinuxResources : Type}.
Implicit Types (s : SystemdController) (path : gostring) (tr : list event)
  (ret : option error) (resources : option LinuxResources).

(** Introduce the events of an execution one by one. *)
Ltac exec_intro := by repeat (eexists _, _; split; [done|]; simpl).

Lemma Create_body_exec conn path tr ret :
  exec (SystemdController.Create_body conn path) tr ret ↔
    (∃ ch e, tr = [EvMakeChan ch; request_event conn ch (Create_request path) (Err e)]
             ∧ ret = Some e)
    ∨ (∃ ch job v, tr = [EvMakeChan ch; request_event conn ch (Create_request path) (Ok job);
                         EvRecv ch v]
                   ∧ ret = None).
Proof.
  unfold SystemdController.Create_body, Create_request.
  destruct (splitName path) as [slice name]. simpl. split.
  - intros (ch & tr1 & -> & r & tr2 & -> & H). destruct r as [job|e]; simpl in H.
    + destruct H as (v & tr3 & -> & -> & ->). right. by exists ch, job, v.
    + destruct H as [-> ->]. left. by exists ch, e.
  - intros [(ch & e & -> & ->)|(ch & job & v & -> & ->)]; exec_intro.
Qed.

Lemma Delete_body_exec conn path tr ret :
  exec (SystemdController.Delete_body conn path) tr ret ↔
    (∃ ch e, tr = [EvMakeChan ch; request_event conn ch (Delete_request path) (Err e)]
             ∧ ret = Some e)
    ∨ (∃ ch job v, tr = [EvMakeChan ch; request_event conn ch (Delete_request path) (Ok job);
                         EvRecv ch v]
                   ∧ ret = None).
Proof.
  unfold SystemdController.Delete_body, Delete_request.
  destruct (splitName path) as [slice name]. simpl. split.
  - intros (ch & tr1 & -> & r & tr2 & -> & H). destruct r as [job|e]; simpl in H.
    + destruct H as (v & tr3 & -> & -> & ->). right. by exists ch, job, v.
    + destruct H as [-> ->]. left. by exists ch, e.
  - intros [(ch & e & -> & ->)|(ch & job & v & -> & ->)]; exec_intro.
Qed.

(** A method that connects, defers [Close] and runs a body with the two
    executions above has the traces of the specification. *)
Lemma connect_defer_exec (body : Conn → proc Op (option error)) req tr ret :
  (∀ conn tr ret, exec (body conn) tr ret ↔
    (∃ ch e, tr = [EvMakeChan ch; request_event conn ch req (Err e)] ∧ ret = Some e)
    ∨ (∃ ch job v, tr = [EvMakeChan ch; request_event conn ch req (Ok job); EvRecv ch v]
                   ∧ ret = None)) →
  exec (r ← call New;
        match r with
        | Err err => mret (Some err)
        | Ok conn => defer (call (Close conn)) (body conn)
        end) tr ret
  ↔ call_trace req tr ret.
Proof.
  intros Hbody. rewrite exec_mbind. split.
  - intros (tr1 & tr2 & r & -> & Hnew & H). apply exec_call in Hnew as ->.
    destruct r as [conn|e].
    + apply exec_defer in H as (tr1 & -> & H).
      apply Hbody in H as [(ch & e & -> & ->)|(ch & job & v & -> & ->)]; constructor.
    + destruct H as [-> ->]. constructor.
  - intros H. destruct H as [e|conn ch e|conn ch job v].
    + exists [EvNew (Err e)], [], (Err e). by rewrite exec_call.
    + eexists [EvNew (Ok conn)], _, (Ok conn). rewrite exec_call. split_and!; [done..|].
      apply exec_defer. eexists [_; _]. split; [done|]. apply Hbody. left. by eexists _, _.
    + eexists [EvNew (Ok conn)], _, (Ok conn). rewrite exec_call. split_and!; [done..|].
      apply exec_defer. eexists [_; _; _]. split; [done|]. apply Hbody. right.
      by eexists _, _, _.
Qed.

Lemma Create_call_trace s path resources tr ret :
  exec (SystemdController.Create s path resources) tr ret
  ↔ call_trace (Create_request path) tr ret.
Proof. apply connect_defer_exec. intros. apply Create_body_exec. Qed.

Lemma Delete_call_trace s path tr ret :
  exec (SystemdController.Delete s path) tr ret
  ↔ call_trace (Delete_request path) tr ret.
Proof. apply connect_defer_exec. intros. apply Delete_body_exec. Qed.

End implementation.

(** ** Properties of the calls *)

Section calls.
Implicit Types (s : SystemdController) (tr : list event) (ret : option error).

Lemma sample_rejected_exec :
  exec (method_proc sample_controller sample_call) sample_rejected_trace
    (Some sample_submit_error).
Proof. apply Create_call_trace. constructor. Qed.

Lemma sample_success_exec :
  exec (method_proc sample_controller sample_call) sample_success_trace None.
Proof. apply Create_call_trace. constructor. Qed.

Lemma method_call_trace {LR : Type} s (m : method LR) tr ret :
  exec (method_proc s m) tr ret → call_trace (method_request m) tr ret.
Proof. destruct m; [apply Create_call_trace|apply Delete_call_trace]. Qed.

(** C1: [Create] and [Delete] implement the call protocol: against every
    environment, the executions of a call are exactly the traces of the
    specification [call_trace] for the request of the call, with the same
    returned error. *)
Theorem controller_call_refines {LR : Type} s (m : method LR) tr ret :
  exec (method_proc s m) tr ret ↔ call_trace (method_request m) tr ret.
Proof. destruct m; [apply Create_call_trace|apply Delete_call_trace]. Qed.

(** C27: if connecting to the service manager fails, the call returns that
    error at once: the trace is the failed connection alone, so no request is
    issued and nothing is received. *)
Theorem call_connection_error {LR : Type} s (m : method LR) tr ret e :
  exec (method_proc s m) tr ret → tr !! 0 = Some (EvNew (Err e)) →
  ret = Some e ∧ tr = [EvNew (Err e)] ∧ requests tr = [] ∧ receives tr = 0.
Proof.
  intros H%method_call_trace Htr.
  destruct (call_trace_connect_error _ _ _ _ H Htr) as [-> ->]. done.
Qed.

Lemma call_connection_error_witness :
  Some sample_connect_error = Some sample_connect_error
  ∧ [EvNew (Err sample_connect_error)] = [EvNew (Err sample_connect_error)]
  ∧ requests [EvNew (Err sample_connect_error)] = []
  ∧ receives [EvNew (Err sample_connect_error)] = 0.
Proof.
  apply (call_connection_error sample_controller sample_call); [|done].
  apply Create_call_trace. constructor.
Defined.

(** C28: if the service manager rejects the request, the call returns that
    error without waiting for a completion value, and the connection is
    closed before it returns. *)
Theorem call_submission_error {LR : Type} s (m : method LR) tr ret conn ch e :
  exec (method_proc s m) tr ret →
  request_event conn ch (method_request m) (Err e) ∈ tr →
  ret = Some e ∧ receives tr = 0 ∧ last tr = Some (EvClose conn).
Proof. intros H%method_call_trace. by apply call_trace_submit_error. Qed.

Lemma call_submission_error_witness :
  Some sample_submit_error = Some sample_submit_error
  ∧ receives sample_rejected_trace = 0
  ∧ last sample_rejected_trace = Some (EvClose 3).
Proof.
  apply (call_submission_error sample_controller sample_call _ _ 3 5);
    [apply sample_rejected_exec|].
  apply list_elem_of_lookup. by exists 2.
Defined.

(** C8: a call connects once and issues at most one request, which is the
    request of the call; a call that returns nil has issued exactly that
    request. *)
Theorem call_single_request {LR : Type} s (m : method LR) tr ret :
  exec (method_proc s m) tr ret →
  connects tr = 1
  ∧ (requests tr = [] ∨ requests tr = [method_request m])
  ∧ (ret = None → requests tr = [method_request m]).
Proof.
  intros H%method_call_trace. split; [by eapply call_trace_connects|].
  by apply call_trace_requests.
Qed.

Lemma call_single_request_witness :
  connects sample_success_trace = 1
  ∧ (requests sample_success_trace = []
     ∨ requests sample_success_trace = [method_request sample_call])
  ∧ (@None error = None → requests sample_success_trace = [method_request sample_call]).
Proof. apply (call_single_request sample_controller), sample_success_exec. Defined.

(** C7: a call returns nil exactly when it has consumed one completion
    value, and returns an error exactly when it has consumed none; every
    value it consumes comes from the channel it gave with an accepted
    request. *)
Theorem call_success_iff_completion {LR : Type} s (m : method LR) tr ret :
  exec (method_proc s m) tr ret →
  (ret = None ↔ receives tr = 1)
  ∧ (is_Some ret ↔ receives tr = 0)
  ∧ receives_registered tr [] = true.
Proof.
  intros H%method_call_trace.
  destruct (call_trace_receives _ _ _ H). split_and!; [done..|].
  by eapply call_trace_registered.
Qed.

Lemma call_success_iff_completion_witness :
  (@None error = None ↔ receives sample_success_trace = 1)
  ∧ (is_Some (@None error) ↔ receives sample_success_trace = 0)
  ∧ receives_registered sample_success_trace [] = true.
Proof.
  apply (call_success_iff_completion sample_controller sample_call), sample_success_exec.
Defined.

(** A call leaves no connection open and uses a connection only while
    it is open, on the error paths as on the successful one. *)
Theorem call_closes_connection {LR : Type} s (m : method LR) tr ret :
  exec (method_proc s m) tr ret →
  open_conns tr [] = [] ∧ conns_used_open tr [] = true.
Proof. intros H%method_call_trace. by eapply call_trace_conns. Qed.

Lemma call_closes_connection_witness :
  open_conns sample_rejected_trace [] = []
  ∧ conns_used_open sample_rejected_trace [] = true.
Proof.
  apply (call_closes_connection sample_controller sample_call _ _ sample_rejected_exec).
Defined.

(** The order of a successful call: it connects, makes the channel,
    submits the request with that channel, receives one value on it, closes
    the connection, and only then returns nil. *)
Theorem call_success_order {LR : Type} s (m : method LR) tr :
  exec (method_proc s m) tr None →
  ∃ conn ch job v,
    tr = [EvNew (Ok conn); EvMakeChan ch;
          request_event conn ch (method_request m) (Ok job);
          EvRecv ch v; EvClose conn].
Proof. intros H%method_call_trace. by apply call_trace_success. Qed.

Lemma call_success_order_witness :
  ∃ conn ch job v,
    sample_success_trace
    = [EvNew (Ok conn); EvMakeChan ch;
       request_event conn ch (method_request sample_call) (Ok job);
       EvRecv ch v; EvClose conn].
Proof. apply (call_success_order sample_controller), sample_success_exec. Defined.

End calls.

(** ** The contents of the requests *)

Section requests.
Import filepath.
Implicit Types (path slice name : gostring).

(** C10: the request of [Create] starts a transient unit named by the last
    element of the path, in mode [replace], and its property list enables
    memory, CPU and block I/O accounting, delegates the cgroup, turns the
    default dependencies off, describes the unit as [cgroup <name>] and wants
    the parent group. *)
Theorem Create_request_properties path :
  (∃ properties, Create_request path = ReqStart (splitName path).2 "replace" properties
                 ∧ length properties = 7)
  ∧ Create_property path "MemoryAccounting" = Some (dbus.mkVariant "b" (dbus.GoBool true))
  ∧ Create_property path "CPUAccounting" = Some (dbus.mkVariant "b" (dbus.GoBool true))
  ∧ Create_property path "BlockIOAccounting" = Some (dbus.mkVariant "b" (dbus.GoBool true))
  ∧ Create_property path "Delegate" = Some (dbus.mkVariant "b" (dbus.GoBool true))
  ∧ Create_property path "DefaultDependencies" = Some (dbus.mkVariant "b" (dbus.GoBool false))
  ∧ Create_property path "Description"
    = Some (dbus.mkVariant "s" (dbus.GoString ("cgroup " ++ (splitName path).2)))
  ∧ Create_property path "Wants"
    = Some (dbus.mkVariant "as" (dbus.GoStringSlice [(splitName path).1])).
Proof.
  unfold Create_property, Create_request.
  split_and!; [by eexists|try done..].
  unfold SystemdController.Create_properties. by rewrite fmt.Sprintf_cgroup.
Qed.

(** The property list that [Create] sends is well typed, whatever the
    path: every value is a variant whose signature is the signature of its
    Go value, and no property is named twice, so that a property is found by
    its name. *)
Theorem Create_properties_typed path :
  ∃ name properties,
    Create_request path = ReqStart name "replace" properties
    ∧ systemdDbus.wf_properties properties.
Proof.
  eexists _, _. split; [done|]. split.
  - by repeat constructor.
  - by apply (bool_decide_unpack _).
Qed.

(** C36: for a path without separator the parent group is empty and
    [Create] sends it as it is: the unit wants the unit with the empty name;
    the default group is not substituted. *)
Theorem Create_bare_name_wants_empty path :
  no_sep path →
  Create_request path
  = ReqStart path "replace" (SystemdController.Create_properties [] path)
  ∧ Create_property path "Wants" = Some (dbus.mkVariant "as" (dbus.GoStringSlice [[]])).
Proof.
  intros Hns. unfold Create_property, Create_request. by rewrite splitName_file.
Qed.

Lemma Create_bare_name_wants_empty_witness :
  Create_request "mycontainer"
  = ReqStart "mycontainer" "replace" (SystemdController.Create_properties [] "mycontainer")
  ∧ Create_property "mycontainer" "Wants"
    = Some (dbus.mkVariant "as" (dbus.GoStringSlice [[]])).
Proof. apply Create_bare_name_wants_empty. by apply (bool_decide_unpack _). Defined.

(** C35: [Create] and [Delete] name the unit by the last element of the
    path as it is: for a path [<group>/<unit>] the unit requested is
    [<unit>], never [<unit>.slice]; so for the path [mygroup/mycontainer] the
    unit requested is [mycontainer]. *)
Theorem request_unit_name_unsuffixed group unit :
  no_sep unit →
  Delete_request (group ++ "/" ++ unit) = ReqStop unit "replace"
  ∧ (∃ properties,
       Create_request (group ++ "/" ++ unit) = ReqStart unit "replace" properties)
  ∧ Delete_request (group ++ "/" ++ unit) ≠ ReqStop (unitName unit) "replace".
Proof.
  intros Hns. unfold Delete_request, Create_request.
  pose proof (splitName_dir_file group unit Hns) as Hsplit.
  change (group ++ Separator :: unit) with (group ++ "/" ++ unit) in Hsplit.
  rewrite Hsplit. split_and!; [done|by eexists|].
  intros [= Heq%(f_equal length)]. rewrite unitName_length in Heq. lia.
Qed.

Lemma request_unit_name_unsuffixed_witness :
  Delete_request ("mygroup" ++ "/" ++ "mycontainer") = ReqStop "mycontainer" "replace"
  ∧ (∃ properties,
       Create_request ("mygroup" ++ "/" ++ "mycontainer")
       = ReqStart "mycontainer" "replace" properties)
  ∧ Delete_request ("mygroup" ++ "/" ++ "mycontainer")
    ≠ ReqStop (unitName "mycontainer") "replace".
Proof. apply request_unit_name_unsuffixed. by apply (bool_decide_unpack _). Defined.

(** C32: for a path made by [Slice], [Create] starts and [Delete] stops the
    unit named by the unit name of the last element of the name, on every
    group and every name; for a clean relative group and a name without
    separator that is the unit [<name>.slice], and the unit wants the
    group. *)
Theorem requests_of_Slice slice name (subsystem : Name) path :
  Slice slice name subsystem = Ok path →
  Delete_request path = ReqStop (unitName (splitName name).2) "replace"
  ∧ Create_request path
    = ReqStart (unitName (splitName name).2) "replace"
        (SystemdController.Create_properties (splitName path).1
           (unitName (splitName name).2))
  ∧ (simple_path slice → no_sep name →
     Create_request path
     = ReqStart (name ++ ".slice") "replace"
         (SystemdController.Create_properties slice (name ++ ".slice"))).
Proof.
  intros Hpath. unfold Delete_request, Create_request.
  rewrite (Slice_splitName_unit _ _ _ _ Hpath). split_and!; [done..|].
  intros Hs Hn. rewrite Slice_simple_path in Hpath by done. injection Hpath as <-.
  rewrite splitName_dir_file by by apply unitName_no_sep.
  by rewrite splitName_file, unitName_eq by done.
Qed.

Lemma requests_of_Slice_witness :
  Delete_request "system.slice/web.slice"
  = ReqStop (unitName (splitName "web").2) "replace"
  ∧ Create_request "system.slice/web.slice"
    = ReqStart (unitName (splitName "web").2) "replace"
        (SystemdController.Create_properties (splitName "system.slice/web.slice").1
           (unitName (splitName "web").2))
  ∧ (simple_path "system.slice" → no_sep "web" →
     Create_request "system.slice/web.slice"
     = ReqStart ("web" ++ ".slice") "replace"
         (SystemdController.Create_properties "system.slice" ("web" ++ ".slice"))).
Proof. apply (requests_of_Slice "system.slice" "web" "cpu"). by vm_compute. Defined.

End requests.
