(* ===== verification/Manager.v ===== *)
(** A model of the service manager behind the operations of [Dbus]: the
    connections that are open, the units that are loaded with their
    properties, and the jobs that were accepted and whose completion has not
    been delivered yet, each with the channel registered for it. What systemd
    decides (whether a connection or a request is accepted, how a job ends)
    is an [Env]; given one, every operation is a function on the state
    ([manager_run]), which makes the model a [Machine] for the command trees
    of the controller.

    A receive on a channel delivers the result of the job registered with
    that channel on a connection that is still open; it blocks when there is
    no such job and when the manager does not answer. A request in mode
    [replace] supersedes the jobs that are queued for the same unit: a
    superseded job ends with the result [canceled], whatever the environment
    says, and changes no unit. The invariant [wf_world] (handles in use are
    below the next ones, job ids are distinct) holds initially and is
    preserved by every operation. *)

From Stdlib Require Import Ascii ZArith.
From stdpp Require Import gmap.
From S2P Require Import Prelude GoStrings Proc Dbus.

#[local] Open Scope go_scope.

(** An accepted job: its id, the request it executes, the connection it was
    submitted on and the channel registered for its result. *)
Record Job : Type := mkJob {
  job_id : Z;
  job_request : request;
  job_conn : Conn;
  job_listener : Chan
}.

#[global] Instance Job_eq_dec : EqDecision Job.
Proof. solve_decision. Defined.

(** The state of the service manager and of the library's side of the
    connections: the open connections, the next handles, the loaded units,
    the jobs whose result has not been delivered, and the ids of the jobs
    that a later request has superseded. *)
Record World : Type := mkWorld {
  conns : list Conn;
  next_conn : Conn;
  next_chan : Chan;
  next_job : Z;
  units : gmap gostring (list systemdDbus.Property);
  jobs : list Job;
  superseded : list Z
}.

(** The decisions of the environment, each as a function of the state:
    [env_connect] is the error of a connection attempt (nil when it
    succeeds), [env_submit] the error of a submission (nil when the job is
    accepted), [env_result] the result string of a job, or [None] when the
    manager does not answer. *)
Record Env : Type := mkEnv {
  env_connect : World → option error;
  env_submit : World → request → option error;
  env_result : World → Job → option gostring
}.

(** The error of a request on a connection that is not open. *)
Definition ErrClosed : error := errorString "dbus: connection closed by user".

(** The unit a request is about. *)
Definition request_unit (req : request) : gostring :=
  match req with
  | ReqStart name _ _ => name
  | ReqStop name _ => name
  end.

(** The mode of a request: what happens to the jobs queued for the unit. *)
Definition request_mode (req : request) : gostring :=
  match req with
  | ReqStart _ mode _ => mode
  | ReqStop _ mode => mode
  end.

(** The jobs a request supersedes: in mode [replace], the jobs queued for
    the same unit. *)
Definition supersedes (req : request) (j : Job) : Prop :=
  request_mode req = "replace" ∧ request_unit (job_request j) = request_unit req.

#[global] Instance supersedes_dec req j : Decision (supersedes req j).
Proof. unfold supersedes. apply _. Defined.

Definition superseded_by (req : request) (js : list Job) : list Z :=
  job_id <$> filter (supersedes req) js.

(** The effect of a job that ends with the result [done] on the loaded
    units: a start job loads the unit with its properties, a stop job unloads
    it. A job that ends otherwise changes nothing. *)
Definition job_effect (req : request) (res : gostring)
    (us : gmap gostring (list systemdDbus.Property))
    : gmap gostring (list systemdDbus.Property) :=
  if bool_decide (res = "done") then
    match req with
    | ReqStart name _ properties => <[name := properties]> us
    | ReqStop name _ => delete name us
    end
  else us.

(** The job whose result a receive on [ch] delivers: the first job
    registered with [ch] on a connection that is open. *)
Definition job_ready (w : World) (ch : Chan) (j : Job) : Prop :=
  job_listener j = ch ∧ job_conn j ∈ conns w.

#[global] Instance job_ready_dec w ch j : Decision (job_ready w ch j).
Proof. unfold job_ready. apply _. Defined.

Definition find_job (w : World) (ch : Chan) : option Job :=
  snd <$> list_find (job_ready w ch) (jobs w).

Section manager.
Context (env : Env).

Definition do_New (w : World) : result Conn * World :=
  match env_connect env w with
  | Some err => (Err err, w)
  | None =>
      (Ok (next_conn w),
       mkWorld (next_conn w :: conns w) (S (next_conn w)) (next_chan w) (next_job w)
         (units w) (jobs w) (superseded w))
  end.

Definition do_Close (conn : Conn) (w : World) : unit * World :=
  ((), mkWorld (filter (λ c, c ≠ conn) (conns w)) (next_conn w) (next_chan w)
         (next_job w) (units w) (jobs w) (superseded w)).

Definition do_MakeChan (w : World) : Chan * World :=
  (next_chan w,
   mkWorld (conns w) (next_conn w) (S (next_chan w)) (next_job w) (units w) (jobs w)
     (superseded w)).

(** Submit a request: refused on a closed connection, refused when the
    environment says so, accepted otherwise: the job gets the next id, the
    channel is registered for it, and the jobs it supersedes are marked. *)
Definition do_submit (conn : Conn) (req : request) (ch : Chan) (w : World)
    : result Z * World :=
  if bool_decide (conn ∈ conns w) then
    match env_submit env w req with
    | Some err => (Err err, w)
    | None =>
        (Ok (next_job w),
         mkWorld (conns w) (next_conn w) (next_chan w) (next_job w + 1) (units w)
           (jobs w ++ [mkJob (next_job w) req conn ch])
           (superseded w ++ superseded_by req (jobs w)))
    end
  else (Err ErrClosed, w).

(** Deliver the result of a job: the job leaves the table and its effect
    is applied. *)
Definition complete (j : Job) (res : gostring) (w : World) : World :=
  mkWorld (conns w) (next_conn w) (next_chan w) (next_job w)
    (job_effect (job_request j) res (units w))
    (filter (λ j', j' ≠ j) (jobs w)) (superseded w).

(** The result of a job: [canceled] for a superseded job, the decision of
    the environment otherwise. *)
Definition job_result (w : World) (j : Job) : option gostring :=
  if bool_decide (job_id j ∈ superseded w) then Some "canceled"
  else env_result env w j.

(** A receive blocks when no job is registered with the channel on an open
    connection, and when the manager does not answer. *)
Definition do_Recv (ch : Chan) (w : World) : option (gostring * World) :=
  match find_job w ch with
  | Some j =>
      match job_result w j with
      | Some res => Some (res, complete j res w)
      | None => None
      end
  | None => None
  end.

(** The machine: one function per operation. *)
Definition manager_run : ∀ X, Op X → World → option (X * World) :=
  λ X op,
    match op in Op X return World → option (X * World) with
    | New => λ w, Some (do_New w)
    | Close conn => λ w, Some (do_Close conn w)
    | MakeChan => λ w, Some (do_MakeChan w)
    | StartTransientUnit conn name mode properties ch =>
        λ w, Some (do_submit conn (ReqStart name mode properties) ch w)
    | StopUnit conn name mode ch =>
        λ w, Some (do_submit conn (ReqStop name mode) ch w)
    | Recv ch => do_Recv ch
    end.

#[local] Instance manager_machine : Machine Op World := manager_run.

End manager.

(** The environments used in the statements: one that accepts every
    connection and every request, and one whose jobs all end with [res]. *)
Definition env_accepts (env : Env) : Prop :=
  (∀ w, env_connect env w = None) ∧ (∀ w req, env_submit env w req = None).

Definition env_results (env : Env) (res : option gostring) : Prop :=
  ∀ w j, env_result env w j = res.

Definition env_answers (env : Env) : Prop :=
  ∀ w j, is_Some (env_result env w j).

(** The state of a manager that has just started: nothing open, nothing
    loaded, no job. *)
Definition init_world : World := mkWorld [] 0 0 1 ∅ [] [].

(** A well-formed state: the handles in use are below the next ones to be
    given out, no two jobs have the same id, and the superseded jobs are
    jobs that were submitted. *)
Record wf_world (w : World) : Prop := mkWf {
  wf_conns : Forall (λ c, c < next_conn w) (conns w);
  wf_job_conns : Forall (λ j, job_conn j < next_conn w) (jobs w);
  wf_job_chans : Forall (λ j, job_listener j < next_chan w) (jobs w);
  wf_job_ids : Forall (λ j, (job_id j < next_job w)%Z) (jobs w);
  wf_jobs_nodup : NoDup (job_id <$> jobs w);
  wf_superseded : Forall (λ i, (i < next_job w)%Z) (superseded w)
}.

(** An operation is well scoped in a state when the channel it names has
    been made: Go's typing gives this to every program, whose channels come
    from [make]. *)
Definition op_scoped {X} (op : Op X) (w : World) : Prop :=
  match op with
  | StartTransientUnit _ _ _ _ ch | StopUnit _ _ _ ch => ch < next_chan w
  | _ => True
  end.

(** ** The invariant *)

Lemma wf_init : wf_world init_world.
Proof. split; simpl; constructor. Qed.

(** The jobs a request supersedes are jobs of the table. *)
Lemma elem_of_superseded_by req js i :
  i ∈ superseded_by req js ↔ ∃ j, j ∈ js ∧ job_id j = i ∧ supersedes req j.
Proof.
  unfold superseded_by. rewrite list_elem_of_fmap. split.
  - intros (j & -> & [Hs Hin]%list_elem_of_filter). by exists j.
  - intros (j & Hin & <- & Hs). exists j. split; [done|]. by apply list_elem_of_filter.
Qed.

(** The superseded jobs of a state are jobs that were superseded before
    or jobs of the table. *)
Lemma superseded_by_subseteq req js : superseded_by req js ⊆ job_id <$> js.
Proof.
  intros i (j & Hin & <- & _)%elem_of_superseded_by. by apply list_elem_of_fmap_2.
Qed.

(** A state with fewer connections and jobs, with later handles, and whose
    superseded jobs were superseded or queued in the original is well formed
    when the original is. *)
Lemma wf_world_sub w w' :
  wf_world w →
  conns w' ⊆ conns w → jobs w' `sublist_of` jobs w →
  superseded w' ⊆ superseded w ++ (job_id <$> jobs w) →
  next_conn w ≤ next_conn w' → next_chan w ≤ next_chan w' →
  (next_job w ≤ next_job w')%Z →
  wf_world w'.
Proof.
  intros [H1 H2 H3 H4 H5 H6] Hc Hj Hs ???. apply sublist_subseteq in Hj as Hj'.
  rewrite Forall_forall in H1. rewrite Forall_forall in H2.
  rewrite Forall_forall in H3. rewrite Forall_forall in H4.
  rewrite Forall_forall in H6.
  split; [rewrite Forall_forall; intros x Hx..| |rewrite Forall_forall; intros x Hx].
  - apply Hc, H1 in Hx. lia.
  - apply Hj', H2 in Hx. lia.
  - apply Hj', H3 in Hx. lia.
  - apply Hj', H4 in Hx. lia.
  - eapply sublist_NoDup; [exact H5|]. by apply fmap_sublist.
  - apply Hs, elem_of_app in Hx as [Hx%H6|(j & -> & Hx%H4)%list_elem_of_fmap]; lia.
Qed.

Lemma wf_world_shrink w w' :
  wf_world w →
  conns w' ⊆ conns w → jobs w' `sublist_of` jobs w → superseded w' = superseded w →
  next_conn w ≤ next_conn w' → next_chan w ≤ next_chan w' →
  (next_job w ≤ next_job w')%Z →
  wf_world w'.
Proof.
  intros Hwf Hc Hj Hs. apply wf_world_sub; [done..|].
  rewrite Hs. intros x Hx. apply elem_of_app. by left.
Qed.

(** A job submitted with the next id on an open connection and a channel
    that has been made keeps the state well formed, with the jobs it
    supersedes. *)
Lemma wf_world_job w j req :
  wf_world w → job_id j = next_job w →
  job_conn j ∈ conns w → job_listener j < next_chan w →
  wf_world (mkWorld (conns w) (next_conn w) (next_chan w) (next_job w + 1)
              (units w) (jobs w ++ [j]) (superseded w ++ superseded_by req (jobs w))).
Proof.
  intros [H1 H2 H3 H4 H5 H6] Hid Hc Hch.
  apply (proj1 (Forall_forall _ _) H1) in Hc. rewrite Forall_forall in H4.
  split; simpl; [done|rewrite Forall_app, Forall_singleton..| |].
  - by split.
  - by split.
  - split; [|lia]. apply Forall_forall. intros j' Hj'%H4. lia.
  - rewrite fmap_app, NoDup_app. split_and!; [done| |apply NoDup_singleton].
    intros i Hi ->%list_elem_of_singleton.
    apply list_elem_of_fmap in Hi as (j' & Hj' & Hin%H4). lia.
  - rewrite Forall_app. split.
    + eapply Forall_impl; [exact H6|]. simpl. lia.
    + apply Forall_forall. intros i (j' & Hin%H4 & <- & _)%elem_of_superseded_by. lia.
Qed.

(** The next job id is not superseded, also after the submission that uses
    it. *)
Lemma next_job_not_superseded w req :
  wf_world w → next_job w ∉ superseded w ++ superseded_by req (jobs w).
Proof.
  intros [_ _ _ H4 _ H6]. rewrite Forall_forall in H4. rewrite Forall_forall in H6.
  intros [Hin%H6|(j & Hin%H4 & Hid & _)%elem_of_superseded_by]%elem_of_app; lia.
Qed.

Section invariant.
Context (env : Env).

Lemma do_New_wf w : wf_world w → wf_world (do_New env w).2.
Proof.
  intros Hwf. unfold do_New. destruct (env_connect env w); [done|].
  destruct Hwf as [H1 H2 H3 H4 H5 H6]. split; simpl; [|  |done..].
  - constructor; [lia|]. eapply Forall_impl; [exact H1|]. simpl. lia.
  - eapply Forall_impl; [exact H2|]. simpl. lia.
Qed.

Lemma do_Close_wf conn w : wf_world w → wf_world (do_Close conn w).2.
Proof.
  intros Hwf. eapply wf_world_shrink; [exact Hwf|simpl..]; try done.
  apply list_subseteq_filter.
Qed.

Lemma do_MakeChan_wf w : wf_world w → wf_world (do_MakeChan w).2.
Proof. intros Hwf. eapply wf_world_shrink; [exact Hwf|simpl..]; try done. lia. Qed.

Lemma do_submit_wf conn req ch w :
  wf_world w → ch < next_chan w → wf_world (do_submit env conn req ch w).2.
Proof.
  intros Hwf Hch. unfold do_submit. case_bool_decide; [|done].
  destruct (env_submit env w req); [done|]. by apply (wf_world_job w).
Qed.

Lemma complete_wf j res w : wf_world w → wf_world (complete j res w).
Proof.
  intros Hwf. eapply wf_world_shrink; [exact Hwf|simpl..]; try done.
  apply sublist_filter.
Qed.

(** The result of a job that is superseded, and of one that is not. *)
Lemma job_result_superseded w j :
  job_id j ∈ superseded w → job_result env w j = Some "canceled".
Proof. intros Hin. unfold job_result. by rewrite bool_decide_eq_true_2. Qed.

Lemma job_result_env w j :
  job_id j ∉ superseded w → job_result env w j = env_result env w j.
Proof. intros Hin. unfold job_result. by rewrite bool_decide_eq_false_2. Qed.

Lemma job_result_answers w j : env_answers env → is_Some (job_result env w j).
Proof. intros Hans. unfold job_result. case_bool_decide; [by eexists|apply Hans]. Qed.

(** A job with the next id is not superseded. *)
Lemma fresh_not_superseded w j :
  wf_world w → job_id j = next_job w → job_id j ∉ superseded w.
Proof.
  intros [_ _ _ _ _ Hs] Hid Hin. rewrite Forall_forall in Hs. apply Hs in Hin. lia.
Qed.

(** Every operation that is well scoped preserves the invariant. *)
Lemma manager_run_wf {X} (op : Op X) w r :
  wf_world w → op_scoped op w → manager_run env X op w = Some r →
  wf_world r.2.
Proof.
  intros Hwf Hsc. destruct op; simpl; try (intros [= <-]).
  - by apply do_New_wf.
  - by apply do_Close_wf.
  - by apply do_MakeChan_wf.
  - by apply do_submit_wf.
  - by apply do_submit_wf.
  - unfold do_Recv. destruct (find_job w ch); [|done].
    destruct (job_result env w _); intros [= <-]. by apply complete_wf.
Qed.

End invariant.
