(* ===== verification/Runs.v ===== *)
(** Runs of the controller calls against the service manager of [Manager]:
    what a call returns, the events it performs and the state it leaves, by
    the decisions of the environment ([call_outcome]); that a call returns
    whenever the manager answers and stalls when it does not; that it leaves
    no connection and no registration behind; its effect on the loaded units,
    for one call and for a sequence of calls ([calls]), against the abstract
    effect [job_effect] of the requests. *)

From Stdlib Require Import Ascii ZArith.
From stdpp Require Import gmap.
From S2P Require Import Prelude GoStrings FilePath Naming Proc Dbus Controller Protocol Manager.

#[local] Open Scope go_scope.

(** The states a call goes through, from the state [w] it starts in: after
    the connection is open and the channel made, after the request is
    accepted (the jobs queued for the same unit are superseded), and at the
    return after a rejection or a completion. *)
Definition world_connected (w : World) : World :=
  mkWorld (next_conn w :: conns w) (S (next_conn w)) (S (next_chan w)) (next_job w)
    (units w) (jobs w) (superseded w).

Definition call_job (w : World) (req : request) : Job :=
  mkJob (next_job w) req (next_conn w) (next_chan w).

Definition world_submitted (w : World) (req : request) : World :=
  mkWorld (next_conn w :: conns w) (S (next_conn w)) (S (next_chan w)) (next_job w + 1)
    (units w) (jobs w ++ [call_job w req])
    (superseded w ++ superseded_by req (jobs w)).

Definition world_rejected (w : World) : World :=
  mkWorld (conns w) (S (next_conn w)) (S (next_chan w)) (next_job w) (units w) (jobs w)
    (superseded w).

Definition world_completed (w : World) (req : request) (res : gostring) : World :=
  mkWorld (conns w) (S (next_conn w)) (S (next_chan w)) (next_job w + 1)
    (job_effect req res (units w)) (jobs w)
    (superseded w ++ superseded_by req (jobs w)).

(** The run of a call that submits [req], by the decisions of the
    environment: the connection fails; the request is rejected; the manager
    does not answer; the job ends with a result. No request is submitted
    between the submission of the call and its receive, so its job is not
    superseded and its result is the decision of the environment. *)
Definition call_outcome (env : Env) (w : World) (req : request)
    : list event * outcome World (option error) :=
  match env_connect env w with
  | Some e => ([EvNew (Err e)], Done (Some e) w)
  | None =>
      let conn := next_conn w in
      let ch := next_chan w in
      match env_submit env (world_connected w) req with
      | Some e =>
          ([EvNew (Ok conn); EvMakeChan ch; request_event conn ch req (Err e); EvClose conn],
           Done (Some e) (world_rejected w))
      | None =>
          match env_result env (world_submitted w req) (call_job w req) with
          | None =>
              ([EvNew (Ok conn); EvMakeChan ch; request_event conn ch req (Ok (next_job w))],
               Blocked (world_submitted w req))
          | Some res =>
              ([EvNew (Ok conn); EvMakeChan ch; request_event conn ch req (Ok (next_job w));
                EvRecv ch res; EvClose conn],
               Done None (world_completed w req res))
          end
      end
  end.

(** The run of a command tree against the manager with environment [env]. *)
Definition run_with (env : Env) {T} (p : proc Op T) (w : World)
    : list event * outcome World T :=
  @run Op event dbus_events World (manager_run env) T p w.

(** A caller that makes the calls of [ms] one after the other and collects
    what they return. *)
Fixpoint calls {LR} (s : SystemdController) (ms : list (method LR))
    : proc Op (list (option error)) :=
  match ms with
  | [] => mret []
  | m :: ms => r ← method_proc s m; rs ← calls s ms; mret (r :: rs)
  end.

(** The abstract effect of a sequence of calls whose jobs all end with
    [done]: on the map of loaded units, one insertion or deletion per call. *)
Definition units_after {LR} (ms : list (method LR))
    (us : gmap gostring (list systemdDbus.Property))
    : gmap gostring (list systemdDbus.Property) :=
  foldl (λ us m, job_effect (method_request m) "done" us) us ms.

(** Sample environments: a manager that accepts everything and whose jobs
    end with [done]; one whose jobs fail; one that never answers; one that
    rejects every request; one that cannot be reached. *)
Definition env_done : Env :=
  mkEnv (λ _, None) (λ _ _, None) (λ _ _, Some "done").
Definition env_failed : Env :=
  mkEnv (λ _, None) (λ _ _, None) (λ _ _, Some "failed").
Definition env_hung : Env :=
  mkEnv (λ _, None) (λ _ _, None) (λ _ _, None).
Definition env_reject : Env :=
  mkEnv (λ _, None) (λ _ _, Some sample_submit_error) (λ _ _, Some "done").
Definition env_unreachable : Env :=
  mkEnv (λ _, Some sample_connect_error) (λ _ _, None) (λ _ _, Some "done").

(** The state after the sample call on a manager that has just started and
    whose jobs end with [res]. *)
Definition sample_world (res : gostring) : World :=
  world_completed init_world (method_request sample_call) res.

Definition sample_path : gostring := "mygroup/mycontainer".

(** The sample call followed by the deletion of the same path. *)
Definition sample_calls : list (method unit) := [sample_call; DeleteCall sample_path].

(** The events of the sample call from the initial state. *)
Definition sample_success_run : list event :=
  [EvNew (Ok 0); EvMakeChan 0;
   request_event 0 0 (Create_request sample_path) (Ok 1%Z);
   EvRecv 0 "done"; EvClose 0].

Section runs.
Context (env : Env).
Implicit Types (w : World) (s : SystemdController) (req : request).

Lemma fresh_conn w : wf_world w → next_conn w ∉ conns w.
Proof.
  intros [Hc _ _ _ _ _] Hin. eapply Forall_forall in Hc; [|done]. lia.
Qed.

Lemma fresh_job w req : wf_world w → call_job w req ∉ jobs w.
Proof.
  intros [_ _ _ Hid _ _] Hin. rewrite Forall_forall in Hid.
  apply Hid in Hin. simpl in Hin. lia.
Qed.

Lemma find_job_submitted w req :
  wf_world w →
  find_job (world_submitted w req) (next_chan w) = Some (call_job w req).
Proof.
  intros [_ _ Hch _ _ _]. unfold find_job. simpl.
  rewrite list_find_snoc_fresh; [done| |].
  - eapply Forall_impl; [done|]. intros j Hj [Hl _]. simpl in Hj. lia.
  - split; [done|]. simpl. by left.
Qed.

Lemma do_submit_connected w req :
  wf_world w →
  do_submit env (next_conn w) req (next_chan w) (world_connected w)
  = match env_submit env (world_connected w) req with
    | Some e => (Err e, world_connected w)
    | None => (Ok (next_job w), world_submitted w req)
    end.
Proof.
  intros Hwf. unfold do_submit. simpl.
  rewrite bool_decide_eq_true_2 by by left. done.
Qed.

Lemma do_Recv_submitted w req :
  wf_world w →
  do_Recv env (next_chan w) (world_submitted w req)
  = res ← env_result env (world_submitted w req) (call_job w req);
    Some (res, mkWorld (next_conn w :: conns w) (S (next_conn w)) (S (next_chan w))
                 (next_job w + 1) (job_effect req res (units w)) (jobs w)
                 (superseded w ++ superseded_by req (jobs w))).
Proof.
  intros Hwf. unfold do_Recv. rewrite find_job_submitted by done.
  rewrite job_result_env by by apply next_job_not_superseded.
  destruct (env_result _ _ _) as [res|]; [|done]. simpl.
  unfold complete. simpl. by rewrite filter_ne_snoc_fresh by by apply fresh_job.
Qed.

(** Run a call symbolically: the connection attempt, then the submission,
    then the receive and the deferred close. *)
Ltac call_run w :=
  unfold run_with, call_outcome;
  unfold op_run; cbn -[do_submit do_Recv];
  unfold do_New; destruct (env_connect env _) as [?|]; [done|];
  unfold op_run; cbn -[do_submit do_Recv];
  fold (world_connected w);
  rewrite do_submit_connected by done;
  destruct (env_submit env (world_connected _) _) as [?|];
  [ cbn -[filter]; unfold world_rejected
  | cbn -[do_Recv]; rewrite do_Recv_submitted by done;
    destruct (env_result env _ _) as [?|]; [|done]; cbn -[filter];
    unfold world_completed ];
  by rewrite filter_ne_cons_fresh by by apply fresh_conn.

Lemma Create_run s {LR} path (resources : option LR) w :
  wf_world w →
  run_with env (SystemdController.Create s path resources) w
  = call_outcome env w (Create_request path).
Proof.
  intros Hwf. unfold SystemdController.Create, SystemdController.Create_body, Create_request.
  destruct (splitName path) as [slice name]. call_run w.
Qed.

Lemma Delete_run s path w :
  wf_world w →
  run_with env (SystemdController.Delete s path) w = call_outcome env w (Delete_request path).
Proof.
  intros Hwf. unfold SystemdController.Delete, SystemdController.Delete_body, Delete_request.
  destruct (splitName path) as [slice name]. call_run w.
Qed.

Lemma method_run {LR} s (m : method LR) w :
  wf_world w → run_with env (method_proc s m) w = call_outcome env w (method_request m).
Proof. destruct m; [apply Create_run|apply Delete_run]. Qed.

(** The outcomes of a call that returns: with an error, in the state it
    started in up to the handles used; or with nil, after the completion of
    its job. *)
Lemma call_outcome_Done w req tr ret w' :
  call_outcome env w req = (tr, Done ret w') →
  (∃ e, ret = Some e ∧ (w' = w ∨ w' = world_rejected w))
  ∨ (∃ res, ret = None
       ∧ env_result env (world_submitted w req) (call_job w req) = Some res
       ∧ w' = world_completed w req res).
Proof.
  unfold call_outcome. destruct (env_connect env w) as [e|].
  { intros [= <- <- <-]. left. exists e. auto. }
  destruct (env_submit env (world_connected w) req) as [e|].
  { intros [= <- <- <-]. left. exists e. auto. }
  destruct (env_result _ _ _) as [res|] eqn:Hres; intros [= <- <- <-].
  right. by exists res.
Qed.

Lemma call_outcome_answers w req :
  env_answers env →
  ∃ tr ret w', call_outcome env w req = (tr, Done ret w').
Proof.
  intros Hans. unfold call_outcome. destruct (env_connect env w); [by eauto|].
  destruct (env_submit env _ req); [by eauto|].
  destruct (Hans (world_submitted w req) (call_job w req)) as [res ->]. by eauto.
Qed.

Lemma call_outcome_accepts w req :
  env_accepts env →
  call_outcome env w req
  = match env_result env (world_submitted w req) (call_job w req) with
    | None =>
        ([EvNew (Ok (next_conn w)); EvMakeChan (next_chan w);
          request_event (next_conn w) (next_chan w) req (Ok (next_job w))],
         Blocked (world_submitted w req))
    | Some res =>
        ([EvNew (Ok (next_conn w)); EvMakeChan (next_chan w);
          request_event (next_conn w) (next_chan w) req (Ok (next_job w));
          EvRecv (next_chan w) res; EvClose (next_conn w)],
         Done None (world_completed w req res))
    end.
Proof. intros [Hc Hs]. unfold call_outcome. by rewrite Hc, Hs. Qed.

Lemma call_outcome_wf w req tr ret w' :
  wf_world w → call_outcome env w req = (tr, Done ret w') → wf_world w'.
Proof.
  intros Hwf [(e & _ & [->| ->])|(res & _ & _ & ->)]%call_outcome_Done; [done|..];
    (eapply wf_world_sub; [exact Hwf|simpl..]); try done; try lia.
  - intros x Hx. apply elem_of_app. by left.
  - intros x [Hx|Hx%superseded_by_subseteq]%elem_of_app; apply elem_of_app; auto.
Qed.

Lemma call_outcome_restores w req tr ret w' :
  call_outcome env w req = (tr, Done ret w') →
  conns w' = conns w ∧ jobs w' = jobs w.
Proof. by intros [(e & _ & [->| ->])|(res & _ & _ & ->)]%call_outcome_Done. Qed.

(** The run of a sequence of calls, one call at a time. *)
Lemma calls_cons_run {LR} s (m : method LR) ms w :
  wf_world w →
  run_with env (calls s (m :: ms)) w
  = match call_outcome env w (method_request m) with
    | (tr1, Done r w1) =>
        match run_with env (calls s ms) w1 with
        | (tr2, Done rs w2) => (tr1 ++ tr2, Done (r :: rs) w2)
        | (tr2, Blocked w2) => (tr1 ++ tr2, Blocked w2)
        end
    | (tr1, Blocked w1) => (tr1, Blocked w1)
    end.
Proof.
  intros Hwf. rewrite <- (method_run s m) by done. unfold run_with. simpl.
  unfold mbind, proc_mbind. rewrite run_bind.
  destruct (run (method_proc s m) w) as [tr1 [r w1|w1]]; [|done].
  rewrite run_bind. destruct (run (calls s ms) w1) as [tr2 [rs w2|w2]]; [|done].
  simpl. by rewrite app_nil_r.
Qed.

(** The run of a sequence of calls that return keeps the invariant, the
    open connections and the job table, and returns one value per call. *)
Lemma calls_run_Done {LR} s (ms : list (method LR)) w tr rets w' :
  wf_world w → run_with env (calls s ms) w = (tr, Done rets w') →
  wf_world w' ∧ conns w' = conns w ∧ jobs w' = jobs w ∧ length rets = length ms.
Proof.
  revert w tr rets. induction ms as [|m ms IH]; intros w tr rets Hwf.
  { by intros [= <- <- <-]. }
  rewrite calls_cons_run by done.
  destruct (call_outcome env w _) as [tr1 [r w1|w1]] eqn:H1; [|done].
  destruct (run_with env (calls s ms) w1) as [tr2 [rs w2|w2]] eqn:H2; [|done].
  intros [= <- <- <-]. apply call_outcome_restores in H1 as Hr. destruct Hr as [<- <-].
  apply IH in H2 as (? & ? & ? & ?); [|by eapply call_outcome_wf]. simpl. auto.
Qed.

(** Against a manager that accepts every request and whose jobs end with
    [done], a sequence of calls returns nil for every call, and the loaded
    units are those of the abstract effect. *)
Lemma calls_run_done {LR} s (ms : list (method LR)) w :
  wf_world w → env_accepts env → env_results env (Some "done") →
  ∃ tr w', run_with env (calls s ms) w = (tr, Done (replicate (length ms) None) w')
    ∧ units w' = units_after ms (units w).
Proof.
  intros Hwf Hacc Hres. revert w Hwf. induction ms as [|m ms IH]; intros w Hwf.
  { by eexists _, _. }
  rewrite calls_cons_run, call_outcome_accepts, Hres by done.
  destruct (IH (world_completed w (method_request m) "done")) as (tr & w' & -> & Hu).
  { eapply call_outcome_wf; [done|]. by rewrite call_outcome_accepts, Hres. }
  by eexists _, _.
Qed.

Lemma calls_run_answers {LR} s (ms : list (method LR)) w :
  wf_world w → env_answers env →
  ∃ tr rets w', run_with env (calls s ms) w = (tr, Done rets w').
Proof.
  intros Hwf Hans. revert w Hwf. induction ms as [|m ms IH]; intros w Hwf.
  { by eexists _, _, _. }
  rewrite calls_cons_run by done.
  destruct (call_outcome_answers w (method_request m) Hans) as (tr1 & r & w1 & H1).
  rewrite H1. destruct (IH w1) as (tr2 & rs & w2 & ->); [by eapply call_outcome_wf|].
  by eexists _, _, _.
Qed.

(** ** Theorems *)

(** C3: a call from a well-formed state of a manager that answers every job
    returns: its receive is never blocked, because the job it waits for is
    registered with its own channel on its own connection, which stays open
    until the deferred close. *)
Theorem call_returns {LR} s (m : method LR) w :
  wf_world w → env_answers env →
  ∃ tr ret w', run_with env (method_proc s m) w = (tr, Done ret w').
Proof. intros Hwf Hans. rewrite method_run by done. by apply call_outcome_answers. Qed.

(** C38: the wait has no timeout: when the manager accepts the request and
    never answers, the call stalls in its receive, after its request and
    before any close, with its connection still open and its job still
    registered. *)
Theorem call_stalls_unanswered {LR} s (m : method LR) w :
  wf_world w → env_accepts env → env_results env None →
  ∃ tr w', run_with env (method_proc s m) w = (tr, Blocked w')
    ∧ requests tr = [method_request m] ∧ receives tr = 0
    ∧ next_conn w ∈ conns w' ∧ call_job w (method_request m) ∈ jobs w'.
Proof.
  intros Hwf Hacc Hres. rewrite method_run, call_outcome_accepts, Hres by done.
  eexists _, _. split; [done|].
  split_and!; [by destruct (method_request m)..|by left|].
  simpl. apply elem_of_app. right. by left.
Qed.

(** A call that returns preserves the invariant of the manager state. *)
Theorem call_preserves_wf {LR} s (m : method LR) w tr ret w' :
  wf_world w → run_with env (method_proc s m) w = (tr, Done ret w') → wf_world w'.
Proof. intros Hwf. rewrite method_run by done. by apply call_outcome_wf. Qed.

(** C9: a call that returns, with an error or without, leaves the open
    connections and the table of pending jobs as it found them: its own
    connection is closed and its own job is delivered. *)
Theorem call_leaves_nothing_open {LR} s (m : method LR) w tr ret w' :
  wf_world w → run_with env (method_proc s m) w = (tr, Done ret w') →
  conns w' = conns w ∧ jobs w' = jobs w.
Proof. intros Hwf. rewrite method_run by done. by apply call_outcome_restores. Qed.

(** A call that returns an error has changed no unit. *)
Theorem call_error_no_effect {LR} s (m : method LR) w tr e w' :
  wf_world w → run_with env (method_proc s m) w = (tr, Done (Some e) w') →
  units w' = units w.
Proof.
  intros Hwf. rewrite method_run by done.
  by intros [(e' & _ & [->| ->])|(res & ? & _)]%call_outcome_Done.
Qed.

(** C29: the effect of a call on the unit: when the manager accepts the
    request and the job ends with [done], [Create] returns nil and the unit
    named by the last element of the path is loaded with the seven
    properties, the group of the path as its [Wants] dependency; [Delete]
    returns nil and that unit is no longer loaded. *)
Theorem call_changes_unit {LR} s path (resources : option LR) slice name w :
  wf_world w → env_accepts env → env_results env (Some "done") →
  splitName path = (slice, name) →
  (∃ tr w', run_with env (SystemdController.Create s path resources) w = (tr, Done None w')
     ∧ units w' = <[name := SystemdController.Create_properties slice name]> (units w))
  ∧ (∃ tr w', run_with env (SystemdController.Delete s path) w = (tr, Done None w')
       ∧ units w' = delete name (units w)).
Proof.
  intros Hwf Hacc Hres Hsplit.
  rewrite Create_run, Delete_run, !call_outcome_accepts, !Hres by done.
  unfold Create_request, Delete_request. rewrite Hsplit.
  split; by eexists _, _.
Qed.

(** C37: the result of the job is not inspected: when the job of an accepted
    request ends with a result other than [done], the call still returns
    nil, and no unit has changed. *)
Theorem call_job_failure_returns_nil {LR} s (m : method LR) res w :
  wf_world w → env_accepts env → env_results env (Some res) → res ≠ "done" →
  ∃ tr w', run_with env (method_proc s m) w = (tr, Done None w')
    ∧ units w' = units w.
Proof.
  intros Hwf Hacc Hres Hne.
  rewrite method_run, call_outcome_accepts, Hres by done. eexists _, _. split; [done|].
  simpl. unfold job_effect. by rewrite bool_decide_eq_false_2.
Qed.

(** A caller that makes any sequence of calls, one after the other,
    from a well-formed state of a manager that answers every job, gets one
    return value per call, in a well-formed state with the same open
    connections and the same pending jobs. *)
Theorem calls_return {LR} s (ms : list (method LR)) w :
  wf_world w → env_answers env →
  ∃ tr rets w', run_with env (calls s ms) w = (tr, Done rets w')
    ∧ length rets = length ms
    ∧ wf_world w' ∧ conns w' = conns w ∧ jobs w' = jobs w.
Proof.
  intros Hwf Hans. destruct (calls_run_answers s ms w Hwf Hans) as (tr & rets & w' & H).
  exists tr, rets, w'. split; [done|].
  apply calls_run_Done in H as (? & ? & ? & ?); auto.
Qed.

(** C2: the controller implements the abstract specification of its
    requests: against a manager that accepts every request and completes
    every job, a sequence of calls returns nil every time, and the loaded
    units are the result of one insertion per [Create] and one deletion per
    [Delete], in the order of the calls. *)
Theorem calls_refine_units {LR} s (ms : list (method LR)) w :
  wf_world w → env_accepts env → env_results env (Some "done") →
  ∃ tr w', run_with env (calls s ms) w = (tr, Done (replicate (length ms) None) w')
    ∧ units w' = units_after ms (units w).
Proof. apply calls_run_done. Qed.

(** [Create] of a path whose unit is not loaded, followed by [Delete] of
    the same path, leaves the loaded units as they were. *)
Theorem Create_Delete_roundtrip {LR} s path (resources : option LR) w :
  wf_world w → env_accepts env → env_results env (Some "done") →
  units w !! (splitName path).2 = None →
  ∃ tr w', run_with env (calls s [CreateCall path resources; DeleteCall path]) w
           = (tr, Done [None; None] w')
    ∧ units w' = units w.
Proof.
  intros Hwf Hacc Hres Hfresh.
  destruct (calls_run_done s [CreateCall path resources; DeleteCall path] w)
    as (tr & w' & Hrun & Hu); [done..|].
  exists tr, w'. split; [done|]. rewrite Hu. unfold units_after, job_effect. simpl.
  by apply delete_insert_id.
Qed.

End runs.

(** ** The theorems at the sample call *)

Lemma env_done_accepts : env_accepts env_done.
Proof. done. Qed.

Lemma env_done_answers : env_answers env_done.
Proof. intros w j. by eexists. Qed.

Lemma sample_run :
  run_with env_done (method_proc sample_controller sample_call) init_world
  = (sample_success_run, Done None (sample_world "done")).
Proof. rewrite method_run by apply wf_init. reflexivity. Qed.

Lemma sample_run_rejected :
  run_with env_reject (method_proc sample_controller sample_call) init_world
  = ([EvNew (Ok 0); EvMakeChan 0;
      request_event 0 0 (Create_request sample_path) (Err sample_submit_error);
      EvClose 0],
     Done (Some sample_submit_error) (world_rejected init_world)).
Proof. rewrite method_run by apply wf_init. reflexivity. Qed.

Lemma sample_world_wf res : wf_world (sample_world res).
Proof. eapply wf_world_sub; [apply wf_init|simpl..]; try done; lia. Qed.

Lemma call_returns_witness :
  ∃ tr ret w',
    run_with env_done (method_proc sample_controller sample_call) init_world
    = (tr, Done ret w').
Proof.
  exact (call_returns env_done sample_controller sample_call init_world
           wf_init env_done_answers).
Defined.

Lemma call_stalls_unanswered_witness :
  ∃ tr w',
    run_with env_hung (method_proc sample_controller sample_call) init_world
    = (tr, Blocked w')
    ∧ requests tr = [method_request sample_call] ∧ receives tr = 0
    ∧ next_conn init_world ∈ conns w'
    ∧ call_job init_world (method_request sample_call) ∈ jobs w'.
Proof.
  apply (call_stalls_unanswered env_hung sample_controller sample_call init_world);
    [apply wf_init|done..].
Defined.

Lemma call_preserves_wf_witness : wf_world (sample_world "done").
Proof.
  exact (call_preserves_wf env_done sample_controller sample_call init_world
           _ _ _ wf_init sample_run).
Defined.

Lemma call_leaves_nothing_open_witness :
  conns (sample_world "done") = conns init_world
  ∧ jobs (sample_world "done") = jobs init_world.
Proof.
  exact (call_leaves_nothing_open env_done sample_controller sample_call init_world
           _ _ _ wf_init sample_run).
Defined.

Lemma call_error_no_effect_witness :
  units (world_rejected init_world) = units init_world.
Proof.
  exact (call_error_no_effect env_reject sample_controller sample_call init_world
           _ _ _ wf_init sample_run_rejected).
Defined.

Lemma call_changes_unit_witness :
  (∃ tr w',
     run_with env_done (SystemdController.Create sample_controller sample_path (@None unit))
       (sample_world "done") = (tr, Done None w')
     ∧ units w'
       = <["mycontainer" := SystemdController.Create_properties "mygroup" "mycontainer"]>
           (units (sample_world "done")))
  ∧ (∃ tr w',
       run_with env_done (SystemdController.Delete sample_controller sample_path)
         (sample_world "done") = (tr, Done None w')
       ∧ units w' = delete "mycontainer" (units (sample_world "done"))).
Proof.
  apply (call_changes_unit env_done sample_controller sample_path None "mygroup");
    [apply sample_world_wf|done..].
Defined.

Lemma call_job_failure_returns_nil_witness :
  ∃ tr w',
    run_with env_failed (method_proc sample_controller sample_call) init_world
    = (tr, Done None w')
    ∧ units w' = units init_world.
Proof.
  apply (call_job_failure_returns_nil env_failed sample_controller sample_call "failed");
    [apply wf_init|done..].
Defined.

Lemma calls_return_witness :
  ∃ tr rets w',
    run_with env_done (calls sample_controller sample_calls) init_world
    = (tr, Done rets w')
    ∧ length rets = length sample_calls
    ∧ wf_world w' ∧ conns w' = conns init_world ∧ jobs w' = jobs init_world.
Proof.
  exact (calls_return env_done sample_controller sample_calls init_world
           wf_init env_done_answers).
Defined.

Lemma calls_refine_units_witness :
  ∃ tr w',
    run_with env_done (calls sample_controller sample_calls) init_world
    = (tr, Done (replicate (length sample_calls) None) w')
    ∧ units w' = units_after sample_calls (units init_world).
Proof.
  apply (calls_refine_units env_done sample_controller sample_calls init_world);
    [apply wf_init|done..].
Defined.

Lemma Create_Delete_roundtrip_witness :
  ∃ tr w',
    run_with env_done
      (calls sample_controller [CreateCall sample_path (@None unit); DeleteCall sample_path])
      init_world = (tr, Done [None; None] w')
    ∧ units w' = units init_world.
Proof.
  apply (Create_Delete_roundtrip env_done sample_controller sample_path None init_world);
    [apply wf_init|done..].
Defined.
