(* ===== verification/Pool.v ===== *)
(** Concurrent callers of the controller: a pool of calls of [Create] and
    [Delete] whose operations interleave on one service manager. Nothing in
    the source serializes them: the mutex of the controller is never locked.

    The threads of a call are abstracted by the [phase] the call is in, with
    the connection, the channel and the job it holds; [phase_step] is the
    step of a call in a phase and [threads_step] the interleaving. The pool
    of command trees of the calls is shown to be simulated by the pool of
    phases, and the invariant [pool_inv] of the pool of phases gives the
    properties of concurrent calls: each call receives the result of its own
    job, no call is blocked by another, every interleaving ends. The events
    of each call among the steps of the pool are a trace of the call
    protocol of [Protocol]. *)

From Stdlib Require Import Ascii ZArith.
From stdpp Require Import gmap.
From S2P Require Import Prelude GoStrings FilePath Naming Proc Dbus Controller Protocol Manager Runs.

#[local] Open Scope go_scope.

(** The operation that submits [req] on [conn] with the channel [ch]. *)
Definition request_op (conn : Conn) (ch : Chan) (req : request) : Op (result Z) :=
  match req with
  | ReqStart name mode properties => StartTransientUnit conn name mode properties ch
  | ReqStop name mode => StopUnit conn name mode ch
  end.

(** The program points of a call, with what the call holds there: before
    connecting; connected; the channel made; the request accepted and the
    call about to receive; about to run the deferred close, with the value to
    return; returned. *)
Variant phase : Type :=
| Start
| Connected (conn : Conn)
| Made (conn : Conn) (ch : Chan)
| Waiting (conn : Conn) (ch : Chan) (job : Z)
| Closing (conn : Conn) (ret : option error)
| Returned (ret : option error).

(** The rest of a call that submits [req], from each program point. *)
Definition proc_closing (conn : Conn) (ret : option error) : proc Op (option error) :=
  Do (Close conn) (λ _, Ret ret).

Definition proc_waiting (conn : Conn) (ch : Chan) : proc Op (option error) :=
  Do (Recv ch) (λ _, proc_closing conn None).

Definition proc_made (req : request) (conn : Conn) (ch : Chan)
    : proc Op (option error) :=
  Do (request_op conn ch req) (λ r,
    match r with
    | Ok _ => proc_waiting conn ch
    | Err e => proc_closing conn (Some e)
    end).

Definition proc_connected (req : request) (conn : Conn) : proc Op (option error) :=
  Do MakeChan (λ ch, proc_made req conn ch).

Definition call_proc (req : request) : proc Op (option error) :=
  Do New (λ r,
    match r with
    | Ok conn => proc_connected req conn
    | Err e => Ret (Some e)
    end).

Definition phase_proc (req : request) (ph : phase) : proc Op (option error) :=
  match ph with
  | Start => call_proc req
  | Connected conn => proc_connected req conn
  | Made conn ch => proc_made req conn ch
  | Waiting conn ch _ => proc_waiting conn ch
  | Closing conn ret => proc_closing conn ret
  | Returned ret => Ret ret
  end.

(** The step of a call in a phase against the manager: the event, the next
    phase and the new state; none when the call has returned or its receive
    is not answered. *)
Definition phase_step (env : Env) (req : request) (ph : phase) (w : World)
    : option (event * phase * World) :=
  match ph with
  | Start =>
      let '(r, w') := do_New env w in
      Some (EvNew r,
            match r with Ok conn => Connected conn | Err e => Returned (Some e) end,
            w')
  | Connected conn =>
      let '(ch, w') := do_MakeChan w in Some (EvMakeChan ch, Made conn ch, w')
  | Made conn ch =>
      let '(r, w') := do_submit env conn req ch w in
      Some (request_event conn ch req r,
            match r with Ok job => Waiting conn ch job | Err e => Closing conn (Some e) end,
            w')
  | Waiting conn ch job =>
      '(res, w') ← do_Recv env ch w; Some (EvRecv ch res, Closing conn None, w')
  | Closing conn ret => Some (EvClose conn, Returned ret, (do_Close conn w).2)
  | Returned _ => None
  end.

(** A thread of the pool of phases: the request of its call and its phase. *)
Abbreviation thread := (request * phase)%type (only parsing).

(** The interleaving: a step of the pool is a step of one thread. *)
Inductive threads_step (env : Env)
    : list thread * World → nat * event → list thread * World → Prop :=
| threads_step_thread ths w i req ph ev ph' w' :
    ths !! i = Some (req, ph) → phase_step env req ph w = Some (ev, ph', w') →
    threads_step env (ths, w) (i, ev) (<[i := (req, ph')]> ths, w').

(** The pool of the calls [ms] before any of them has started, as command
    trees and as phases. *)
Definition calls_pool {LR} (s : SystemdController) (ms : list (method LR))
    : list (proc Op (option error)) :=
  method_proc s <$> ms.

Definition calls_threads {LR} (ms : list (method LR)) : list thread :=
  (λ m, (method_request m, Start)) <$> ms.

(** The steps of a pool of command trees against the manager with
    environment [env]. *)
Definition pool_steps_with (env : Env)
    : list (proc Op (option error)) * World → list (nat * event)
      → list (proc Op (option error)) * World → Prop :=
  lsteps (@pool_step Op event dbus_events World (manager_run env) (option error)).

Definition proc_step_with (env : Env) (p : proc Op (option error)) (w : World)
    : option (event * proc Op (option error) * World) :=
  @proc_step Op event dbus_events World (manager_run env) (option error) p w.

Definition threads_steps (env : Env)
    : list thread * World → list (nat * event) → list thread * World → Prop :=
  lsteps (threads_step env).

(** A command tree is at a phase of a call when it is equivalent to the rest
    of the call from there. *)
Definition at_phase (p : proc Op (option error)) (t : thread) : Prop :=
  phase_proc t.1 t.2 ≡ p.

(** ** The invariant of the pool *)

Definition phase_conn (ph : phase) : option Conn :=
  match ph with
  | Connected conn | Made conn _ | Waiting conn _ _ | Closing conn _ => Some conn
  | Start | Returned _ => None
  end.

Definition phase_chan (ph : phase) : option Chan :=
  match ph with
  | Made _ ch | Waiting _ ch _ => Some ch
  | _ => None
  end.

(** What a thread holds is what the manager knows: the channel of a thread
    that has not submitted is registered for no job; the job of a thread that
    waits is in the table, for the request of the thread, on its connection
    and its channel. *)
Definition thread_ok (w : World) (t : thread) : Prop :=
  match t.2 with
  | Made _ ch => ch ∉ job_listener <$> jobs w
  | Waiting conn ch job => mkJob job t.1 conn ch ∈ jobs w
  | _ => True
  end.

(** The invariant: the state of the manager is well formed, no channel is
    registered for two jobs, every thread holds what the manager knows, its
    connection is open and its channel made, and no two threads hold the same
    connection or the same channel. *)
Record pool_inv (ths : list thread) (w : World) : Prop := mkPoolInv {
  inv_wf : wf_world w;
  inv_listeners : NoDup (job_listener <$> jobs w);
  inv_threads : ∀ i t, ths !! i = Some t → thread_ok w t;
  inv_conn_open : ∀ i t c, ths !! i = Some t → phase_conn t.2 = Some c → c ∈ conns w;
  inv_chan_made : ∀ i t ch,
    ths !! i = Some t → phase_chan t.2 = Some ch → ch < next_chan w;
  inv_conns : ∀ i j t1 t2 c,
    ths !! i = Some t1 → ths !! j = Some t2 →
    phase_conn t1.2 = Some c → phase_conn t2.2 = Some c → i = j;
  inv_chans : ∀ i j t1 t2 ch,
    ths !! i = Some t1 → ths !! j = Some t2 →
    phase_chan t1.2 = Some ch → phase_chan t2.2 = Some ch → i = j
}.

(** The number of steps a call has left, at most. *)
Definition phase_rank (ph : phase) : nat :=
  match ph with
  | Start => 5
  | Connected _ => 4
  | Made _ _ => 3
  | Waiting _ _ _ => 2
  | Closing _ _ => 1
  | Returned _ => 0
  end.

Definition pool_rank (c : list thread * World) : nat :=
  sum_list (phase_rank ∘ snd <$> c.1).

(** ** Samples *)

(** The steps of a pool along a schedule against the manager with
    environment [env]. *)
Definition pool_run_with (env : Env) (sched : list nat)
    (c : list (proc Op (option error)) * World)
    : option (list (nat * event) * (list (proc Op (option error)) * World)) :=
  @pool_run Op event dbus_events World (manager_run env) (option error) sched c.

(** The pool of a [Create] and a [Delete] of the same path, on a manager
    that has just started, and three schedules: [Create] first, [Delete]
    first, and the two calls in turn. *)
Definition sample_pool : list (proc Op (option error)) * World :=
  (calls_pool sample_controller sample_calls, init_world).

Definition sched_Create_first : list nat := [0; 0; 0; 0; 0; 1; 1; 1; 1; 1].
Definition sched_Delete_first : list nat := [1; 1; 1; 1; 1; 0; 0; 0; 0; 0].
Definition sched_in_turn : list nat := [0; 1; 0; 1; 0; 1; 0; 1; 0; 1].

(** The two calls in turn until both wait for their completion value: the
    labels of the steps and the state reached. *)
Definition sched_both_waiting : list nat := [0; 1; 0; 1; 0; 1].

Definition sample_waiting_labels : list (nat * event) :=
  Eval vm_compute in
    match pool_run_with env_done sched_both_waiting sample_pool with
    | Some (ls, _) => ls
    | None => []
    end.

Definition sample_waiting : list (proc Op (option error)) * World :=
  Eval vm_compute in
    match pool_run_with env_done sched_both_waiting sample_pool with
    | Some (_, c) => c
    | None => sample_pool
    end.

(** The labels of the steps of the two calls in turn until both return. *)
Definition sample_labels : list (nat * event) :=
  Eval vm_compute in
    match pool_run_with env_done sched_in_turn sample_pool with
    | Some (ls, _) => ls
    | None => []
    end.

(** The state of the manager after the sample pool has run, with the
    units [us] loaded and the jobs [sup] superseded. *)
Definition sample_pool_end (us : gmap gostring (list systemdDbus.Property))
    (sup : list Z) : World :=
  mkWorld [] 2 2 3 us [] sup.

(** ** The simulation *)

(** Peel one operation off both sides of an equivalence of trees. *)
Ltac proc_equiv_step x :=
  apply proc_equiv_Do; eexists; split; [reflexivity|]; intros x.

Section simulation.
Context (env : Env).
Implicit Types (req : request) (ph : phase) (w : World) (t : thread).

(** The command tree of a call is the rest of the call from its start. *)
Lemma method_proc_equiv {LR} s (m : method LR) :
  call_proc (method_request m) ≡ method_proc s m.
Proof.
  destruct m as [path resources|path]; simpl;
    unfold SystemdController.Create, SystemdController.Create_body,
      SystemdController.Delete, SystemdController.Delete_body,
      Create_request, Delete_request;
    destruct (splitName path) as [slice name]; simpl;
    proc_equiv_step r; (destruct r; [|done]);
    proc_equiv_step ch; proc_equiv_step r; destruct r;
    repeat (proc_equiv_step x); reflexivity.
Qed.

(** The step of the canonical tree of a phase is the step of the phase. *)
Lemma phase_proc_step req ph w :
  match proc_step_with env (phase_proc req ph) w, phase_step env req ph w with
  | Some (ev, q, w1), Some (ev', ph', w1') =>
      ev = ev' ∧ w1 = w1' ∧ q ≡ phase_proc req ph'
  | None, None => True
  | _, _ => False
  end.
Proof.
  destruct ph; simpl; unfold proc_step_with, proc_step, op_run; simpl; try done.
  - by destruct (do_New env w) as [[conn|e] w'].
  - destruct req; simpl; by destruct (do_submit env _ _ _ w) as [[job|e] w'].
  - by destruct (do_Recv env ch w) as [[res w']|].
Qed.

(** A tree at a phase steps as the phase does, to a tree at the next
    phase. *)
Lemma at_phase_step p req ph w ev p' w' :
  at_phase p (req, ph) → proc_step_with env p w = Some (ev, p', w') →
  ∃ ph', phase_step env req ph w = Some (ev, ph', w') ∧ at_phase p' (req, ph').
Proof.
  unfold at_phase. simpl. intros Heq Hstep. symmetry in Heq.
  destruct (proc_step_equiv p _ w ev p' w' Heq Hstep) as (q' & Hq & Hp').
  pose proof (phase_proc_step req ph w) as Hc. unfold proc_step_with in Hc.
  rewrite Hq in Hc.
  destruct (phase_step env req ph w) as [[[ev1 ph1] w1]|]; [|done].
  destruct Hc as (-> & -> & Hq'). exists ph1. split; [done|].
  by rewrite Hp', Hq'.
Qed.

(** A step of the pool of trees is a step of the pool of phases. *)
Lemma pool_step_simulation ths c l c' :
  Forall2 at_phase c.1 ths →
  @pool_step Op event dbus_events World (manager_run env) (option error) c l c' →
  ∃ ths', threads_step env (ths, c.2) l (ths', c'.2) ∧ Forall2 at_phase c'.1 ths'.
Proof.
  intros Hrel Hstep. destruct Hstep as [ts0 w i p ev p' w' Hi Hp]. simpl in *.
  destruct (Forall2_lookup_l _ _ _ _ _ Hrel Hi) as ([req ph] & Hi' & Hat).
  destruct (at_phase_step p req ph w ev p' w' Hat Hp) as (ph' & Hph & Hat').
  exists (<[i := (req, ph')]> ths). split; [by econstructor|].
  by apply Forall2_insert.
Qed.

Lemma pool_steps_simulation ths c ls c' :
  Forall2 at_phase c.1 ths → pool_steps_with env c ls c' →
  ∃ ths', threads_steps env (ths, c.2) ls (ths', c'.2) ∧ Forall2 at_phase c'.1 ths'.
Proof.
  intros Hrel Hsteps. revert ths Hrel.
  induction Hsteps as [c|c1 l c2 ls c3 Hstep _ IH]; intros ths Hrel.
  { exists ths. split; [constructor|done]. }
  destruct (pool_step_simulation ths c1 l c2 Hrel Hstep) as (ths2 & Hth & Hrel2).
  destruct (IH ths2 Hrel2) as (ths3 & Hths & Hrel3).
  exists ths3. split; [|done]. by eapply lsteps_cons.
Qed.

Lemma calls_pool_at_phase {LR} s (ms : list (method LR)) :
  Forall2 at_phase (calls_pool s ms) (calls_threads ms).
Proof.
  unfold calls_pool, calls_threads. apply Forall2_fmap, Forall_Forall2_diag.
  apply Forall_forall. intros m _. apply method_proc_equiv.
Qed.

End simulation.

(** ** Preservation of the invariant *)

Section invariant.
Context (env : Env).
Implicit Types (req : request) (ph : phase) (w : World) (t : thread)
  (ths : list thread).

(** The step of one thread keeps the invariant when the new state is well
    formed, the thread holds what the manager knows, a handle it holds is one
    it held or a fresh one, and what the other threads hold is untouched. *)
Lemma pool_inv_update ths w k req ph ph' w' :
  pool_inv ths w → ths !! k = Some (req, ph) →
  wf_world w' → NoDup (job_listener <$> jobs w') →
  thread_ok w' (req, ph') →
  (∀ c, phase_conn ph' = Some c →
        c ∈ conns w' ∧ (phase_conn ph = Some c ∨ c = next_conn w)) →
  (∀ ch, phase_chan ph' = Some ch →
         ch < next_chan w' ∧ (phase_chan ph = Some ch ∨ ch = next_chan w)) →
  next_chan w ≤ next_chan w' →
  (∀ c, c ∈ conns w → phase_conn ph ≠ Some c → c ∈ conns w') →
  (∀ t, thread_ok w t → (∀ ch, phase_chan t.2 = Some ch → phase_chan ph ≠ Some ch) →
        thread_ok w' t) →
  pool_inv (<[k := (req, ph')]> ths) w'.
Proof.
  intros [Hwf Hl Hok Hopen Hmade Hconns Hchans] Hk Hwf' Hl' Hok' Hc Hch Hle Hframe_c Hframe.
  assert (∀ i t c, i ≠ k → ths !! i = Some t → phase_conn t.2 = Some c →
                   phase_conn ph ≠ Some c) as Hother_c.
  { intros i t c Hne Hi Ht Hph. by destruct Hne, (Hconns i k t (req, ph) c). }
  assert (∀ i t ch, i ≠ k → ths !! i = Some t → phase_chan t.2 = Some ch →
                    phase_chan ph ≠ Some ch) as Hother_ch.
  { intros i t ch Hne Hi Ht Hph. by destruct Hne, (Hchans i k t (req, ph) ch). }
  assert (∀ i t c, ths !! i = Some t → phase_conn t.2 = Some c → c ≠ next_conn w)
    as Hfresh_c.
  { intros i t c Hi Ht ->. apply (Hopen i t _ Hi) in Ht.
    by apply (fresh_conn w) in Ht. }
  assert (∀ i t ch, ths !! i = Some t → phase_chan t.2 = Some ch → ch ≠ next_chan w)
    as Hfresh_ch.
  { intros i t ch Hi Ht ->. apply (Hmade i t _ Hi) in Ht. lia. }
  split; [done|done|..].
  - intros i t [(-> & <- & _)|(Hne & Hi)]%list_lookup_insert_Some; [done|]. eauto.
  - intros i t c [(-> & <- & _)|(Hne & Hi)]%list_lookup_insert_Some Ht.
    + by apply Hc.
    + eauto.
  - intros i t ch [(-> & <- & _)|(Hne & Hi)]%list_lookup_insert_Some Ht.
    + by apply Hch.
    + apply (Hmade i t ch Hi) in Ht. lia.
  - intros i j t1 t2 c [(-> & <- & _)|(Hi & Hti)]%list_lookup_insert_Some
      [(-> & <- & _)|(Hj & Htj)]%list_lookup_insert_Some H1 H2; [done| | |by eauto].
    + destruct (Hc c H1) as [_ [Hold| ->]]; [by destruct (Hother_c j t2 c)|].
      by destruct (Hfresh_c j t2 (next_conn w)).
    + destruct (Hc c H2) as [_ [Hold| ->]]; [by destruct (Hother_c i t1 c)|].
      by destruct (Hfresh_c i t1 (next_conn w)).
  - intros i j t1 t2 ch [(-> & <- & _)|(Hi & Hti)]%list_lookup_insert_Some
      [(-> & <- & _)|(Hj & Htj)]%list_lookup_insert_Some H1 H2; [done| | |by eauto].
    + destruct (Hch ch H1) as [_ [Hold| ->]]; [by destruct (Hother_ch j t2 ch)|].
      by destruct (Hfresh_ch j t2 (next_chan w)).
    + destruct (Hch ch H2) as [_ [Hold| ->]]; [by destruct (Hother_ch i t1 ch)|].
      by destruct (Hfresh_ch i t1 (next_chan w)).
Qed.

Lemma step_Start_inv ths w k req :
  pool_inv ths w → ths !! k = Some (req, Start) →
  pool_inv (<[k := (req, match (do_New env w).1 with
                         | Ok conn => Connected conn
                         | Err e => Returned (Some e)
                         end)]> ths) (do_New env w).2.
Proof.
  intros Hinv Hk. pose proof (do_New_wf env w (inv_wf _ _ Hinv)) as Hwf.
  pose proof (inv_listeners _ _ Hinv) as Hl. revert Hwf. unfold do_New.
  destruct (env_connect env w) as [e|]; simpl; intros Hwf;
    apply (pool_inv_update ths w k req Start _ _ Hinv Hk); simpl; try done.
  - intros c [= <-]. split; [by left|by right].
  - intros c Hc _. by right.
Qed.

Lemma step_Connected_inv ths w k req conn :
  pool_inv ths w → ths !! k = Some (req, Connected conn) →
  pool_inv (<[k := (req, Made conn (next_chan w))]> ths) (do_MakeChan w).2.
Proof.
  intros Hinv Hk. pose proof (do_MakeChan_wf w (inv_wf _ _ Hinv)) as Hwf.
  apply (pool_inv_update ths w k req (Connected conn) _ _ Hinv Hk); simpl; try done.
  - by apply inv_listeners in Hinv.
  - intros (j & Hj & Hin)%list_elem_of_fmap.
    destruct (inv_wf _ _ Hinv) as [_ _ Hch _ _ _]. rewrite Forall_forall in Hch.
    apply Hch in Hin. lia.
  - intros c [= <-]. split; [|by left].
    by apply (inv_conn_open _ _ Hinv k (req, Connected conn)).
  - intros ch [= <-]. split; [lia|by right].
  - lia.
Qed.

(** What the invariant says of one thread. *)
Lemma pool_inv_thread ths w k req ph :
  pool_inv ths w → ths !! k = Some (req, ph) →
  thread_ok w (req, ph)
  ∧ (∀ c, phase_conn ph = Some c → c ∈ conns w)
  ∧ (∀ ch, phase_chan ph = Some ch → ch < next_chan w).
Proof.
  intros Hinv Hk. split_and!.
  - by apply (inv_threads _ _ Hinv k).
  - intros c. by apply (inv_conn_open _ _ Hinv k (req, ph)).
  - intros ch. by apply (inv_chan_made _ _ Hinv k (req, ph)).
Qed.

(** Other threads hold what the manager knows after a job is added for a
    channel they do not hold. *)
Lemma thread_ok_job w t j us n sup :
  thread_ok w t → phase_chan t.2 ≠ Some (job_listener j) →
  thread_ok (mkWorld (conns w) (next_conn w) (next_chan w) n us (jobs w ++ [j]) sup) t.
Proof.
  unfold thread_ok. destruct t as [req [| | conn ch|conn ch job| |]]; simpl; try done.
  - intros Hch Hne. rewrite fmap_app, not_elem_of_app. split; [done|].
    simpl. intros ->%list_elem_of_singleton. done.
  - intros Hin _. apply elem_of_app. by left.
Qed.

Lemma step_Made_inv ths w k req conn ch :
  pool_inv ths w → ths !! k = Some (req, Made conn ch) →
  pool_inv (<[k := (req, match (do_submit env conn req ch w).1 with
                         | Ok job => Waiting conn ch job
                         | Err e => Closing conn (Some e)
                         end)]> ths) (do_submit env conn req ch w).2.
Proof.
  intros Hinv Hk. destruct (pool_inv_thread _ _ _ _ _ Hinv Hk) as (Hok & Hc & Hch).
  specialize (Hc conn eq_refl). specialize (Hch ch eq_refl). unfold thread_ok in Hok.
  pose proof (do_submit_wf env conn req ch w (inv_wf _ _ Hinv) Hch) as Hwf.
  pose proof (inv_listeners _ _ Hinv) as Hl. revert Hwf. unfold do_submit.
  rewrite bool_decide_eq_true_2 by done.
  destruct (env_submit env w req) as [e|]; simpl; intros Hwf;
    apply (pool_inv_update ths w k req (Made conn ch) _ _ Hinv Hk); simpl; try done.
  - intros c [= <-]. split; [done|by left].
  - rewrite fmap_app. apply NoDup_app. split_and!; [done| |apply NoDup_singleton].
    intros x Hx ->%list_elem_of_singleton. done.
  - apply elem_of_app. right. by left.
  - intros c [= <-]. split; [done|by left].
  - intros c' [= <-]. split; [done|by left].
  - intros t Ht Hne. apply (thread_ok_job w t (mkJob _ req conn ch)); [done|].
    simpl. intros Heq. by apply (Hne ch).
Qed.

(** The job that a receive on the channel of a waiting thread finds is
    the job of that thread. *)
Lemma find_job_own ths w k req conn ch job :
  pool_inv ths w → ths !! k = Some (req, Waiting conn ch job) →
  find_job w ch = Some (mkJob job req conn ch).
Proof.
  intros Hinv Hk. destruct (pool_inv_thread _ _ _ _ _ Hinv Hk) as (Hok & Hc & _).
  specialize (Hc conn eq_refl). unfold thread_ok in Hok. simpl in Hok, Hc.
  unfold find_job. destruct (list_find _ _) as [[i j]|] eqn:Hfind; simpl.
  - apply list_find_Some in Hfind as (Hi & [Hl _] & _). f_equal.
    apply (NoDup_fmap_eq job_listener (jobs w)); [by apply inv_listeners in Hinv| |done..].
    by eapply list_elem_of_lookup_2.
  - apply list_find_None in Hfind. rewrite Forall_forall in Hfind.
    by destruct (Hfind _ Hok).
Qed.

(** Other threads hold what the manager knows after the job of another
    channel is delivered. *)
Lemma thread_ok_complete w t j res :
  thread_ok w t → phase_chan t.2 ≠ Some (job_listener j) →
  thread_ok (complete j res w) t.
Proof.
  unfold thread_ok. destruct t as [req [| | conn ch|conn ch job| |]]; simpl; try done.
  - intros Hch _ (j' & -> & [_ Hin]%list_elem_of_filter)%list_elem_of_fmap.
    apply Hch. by apply list_elem_of_fmap_2.
  - intros Hin Hne. apply list_elem_of_filter. split; [|done]. by intros <-.
Qed.

Lemma step_Waiting_inv ths w k req conn ch job res w' :
  pool_inv ths w → ths !! k = Some (req, Waiting conn ch job) →
  do_Recv env ch w = Some (res, w') →
  pool_inv (<[k := (req, Closing conn None)]> ths) w'.
Proof.
  intros Hinv Hk. destruct (pool_inv_thread _ _ _ _ _ Hinv Hk) as (_ & Hc & _).
  unfold do_Recv. rewrite (find_job_own _ _ _ _ _ _ _ Hinv Hk).
  destruct (job_result env w _) as [res'|]; [|done]. intros [= <- <-].
  apply (pool_inv_update ths w k req (Waiting conn ch job) _ _ Hinv Hk); simpl; try done.
  - by apply complete_wf, (inv_wf ths).
  - eapply sublist_NoDup; [by apply inv_listeners in Hinv|].
    apply fmap_sublist, sublist_filter.
  - intros c [= <-]. split; [by apply Hc|by left].
  - intros t Ht Hne. apply thread_ok_complete; [done|]. simpl. intros Heq. by apply (Hne ch).
Qed.

Lemma step_Closing_inv ths w k req conn ret :
  pool_inv ths w → ths !! k = Some (req, Closing conn ret) →
  pool_inv (<[k := (req, Returned ret)]> ths) (do_Close conn w).2.
Proof.
  intros Hinv Hk.
  apply (pool_inv_update ths w k req (Closing conn ret) _ _ Hinv Hk); simpl; try done.
  - by apply do_Close_wf, (inv_wf ths).
  - by apply inv_listeners in Hinv.
  - intros c Hc Hne. apply list_elem_of_filter. split; [|done]. by intros ->.
Qed.

(** Every step of a thread preserves the invariant. *)
Lemma phase_step_inv ths w k req ph ev ph' w' :
  pool_inv ths w → ths !! k = Some (req, ph) →
  phase_step env req ph w = Some (ev, ph', w') →
  pool_inv (<[k := (req, ph')]> ths) w'.
Proof.
  intros Hinv Hk. destruct ph; simpl.
  - pose proof (step_Start_inv ths w k req Hinv Hk) as H.
    destruct (do_New env w) as [r w1]. by intros [= <- <- <-].
  - intros [= <- <- <-]. by apply step_Connected_inv.
  - pose proof (step_Made_inv ths w k req conn ch Hinv Hk) as H.
    destruct (do_submit env conn req ch w) as [r w1]. by intros [= <- <- <-].
  - destruct (do_Recv env ch w) as [[res w1]|] eqn:Hrecv; [|done].
    intros [= <- <- <-]. by eapply step_Waiting_inv.
  - intros [= <- <- <-]. by apply step_Closing_inv.
  - done.
Qed.

Lemma threads_step_inv c l c' :
  threads_step env c l c' → pool_inv c.1 c.2 → pool_inv c'.1 c'.2.
Proof. intros [ths w i req ph ev ph' w' Hi Hstep] Hinv. by eapply phase_step_inv. Qed.

Lemma threads_steps_inv c ls c' :
  threads_steps env c ls c' → pool_inv c.1 c.2 → pool_inv c'.1 c'.2.
Proof.
  apply (lsteps_invariant (threads_step env) (λ c, pool_inv c.1 c.2)).
  intros c1 l c2 Hinv Hstep. by eapply threads_step_inv.
Qed.

(** The pool of calls that have not started satisfies the invariant in a
    well-formed state of a manager where no channel is registered twice. *)
Lemma calls_threads_inv {LR} (ms : list (method LR)) w :
  wf_world w → NoDup (job_listener <$> jobs w) → pool_inv (calls_threads ms) w.
Proof.
  intros Hwf Hl.
  assert (∀ i t, calls_threads ms !! i = Some t → t.2 = Start) as Hstart.
  { intros i t (m & -> & _)%list_lookup_fmap_Some. done. }
  split; [done..| | | | |]; intros;
    repeat match goal with
    | H : calls_threads ms !! _ = Some ?t |- _ =>
        apply Hstart in H; destruct t as [? ?]; simpl in *; subst
    end; done.
Qed.

End invariant.

(** ** Reachable states of a pool of calls *)

Section reachable.
Context (env : Env) {LR : Type} (s : SystemdController) (ms : list (method LR)).
Implicit Types (w : World) (ts : list (proc Op (option error))).

(** The requests of the threads do not change. *)
Lemma threads_steps_requests c ls c' :
  threads_steps env c ls c' → c'.1.*1 = c.1.*1.
Proof.
  induction 1 as [|c1 l c2 ls c3 Hstep _ IH]; [done|]. rewrite IH.
  destruct Hstep as [ths w i req ph ev ph' w' Hi _]. simpl.
  rewrite list_fmap_insert. apply list_insert_id.
  apply list_lookup_fmap_Some. by exists (req, ph).
Qed.

(** Every step decreases the number of steps the calls have left. *)
Lemma threads_step_rank c l c' : threads_step env c l c' → pool_rank c' < pool_rank c.
Proof.
  intros [ths w i req ph ev ph' w' Hi Hstep]. unfold pool_rank. simpl.
  apply (sum_list_insert_lt _ ths i (req, ph)); [done|]. simpl.
  destruct ph; simpl in Hstep; [| | |destruct (do_Recv env ch w) as [[??]|]|..];
    repeat case_match; simplify_eq/=; lia.
Qed.

(** A state that the pool of calls reaches from a well-formed state where
    no channel is registered twice is a state of the pool of phases, with the
    same labels, where the invariant holds. *)
Lemma pool_reachable w0 ls ts w :
  wf_world w0 → NoDup (job_listener <$> jobs w0) →
  pool_steps_with env (calls_pool s ms, w0) ls (ts, w) →
  ∃ ths, threads_steps env (calls_threads ms, w0) ls (ths, w)
    ∧ Forall2 at_phase ts ths ∧ pool_inv ths w.
Proof.
  intros Hwf Hl Hsteps.
  destruct (pool_steps_simulation env (calls_threads ms) (calls_pool s ms, w0) ls (ts, w)
              (calls_pool_at_phase s ms) Hsteps) as (ths & Hths & Hrel).
  exists ths. split_and!; [done..|].
  by apply (threads_steps_inv env _ _ _ Hths), calls_threads_inv.
Qed.

(** A receive of a thread delivers the result of the job of that thread. *)
Lemma phase_step_Recv ths w k req ph ch res ph' w' :
  pool_inv ths w → ths !! k = Some (req, ph) →
  phase_step env req ph w = Some (EvRecv ch res, ph', w') →
  ∃ conn job, mkJob job req conn ch ∈ jobs w
    ∧ job_result env w (mkJob job req conn ch) = Some res.
Proof.
  intros Hinv Hk. destruct ph as [| |conn ch0|conn ch0 job| |]; simpl;
    [by destruct (do_New env w)|done|by destruct req, (do_submit env _ _ _ w)| |done..].
  pose proof (inv_threads _ _ Hinv k _ Hk) as Hok. unfold thread_ok in Hok. simpl in Hok.
  unfold do_Recv. rewrite (find_job_own _ _ _ _ _ _ _ Hinv Hk).
  destruct (job_result env w _) as [res'|] eqn:Hres; [|done]. simpl.
  intros [= <- <- <- <-]. by exists conn, job.
Qed.

(** A thread that has not returned can step when the manager answers. *)
Lemma phase_step_answers ths w k req ph :
  pool_inv ths w → ths !! k = Some (req, ph) → env_answers env →
  (∃ ret, ph = Returned ret) ∨ is_Some (phase_step env req ph w).
Proof.
  intros Hinv Hk Hans. destruct ph as [| |conn ch|conn ch job| |ret]; simpl;
    [right..|left; by eexists]; try done.
  - by destruct (do_New env w).
  - by destruct (do_submit env _ _ _ w).
  - unfold do_Recv. rewrite (find_job_own _ _ _ _ _ _ _ Hinv Hk).
    by destruct (job_result_answers env w (mkJob job req conn ch) Hans) as [res ->].
Qed.

(** A tree at a phase that can step can step. *)
Lemma at_phase_progress p req ph w :
  at_phase p (req, ph) → is_Some (phase_step env req ph w) →
  ∃ ev p' w', proc_step_with env p w = Some (ev, p', w').
Proof.
  intros Hat [[[ev ph'] w'] Hstep]. pose proof (phase_proc_step env req ph w) as Hc.
  rewrite Hstep in Hc.
  destruct (proc_step_with env (phase_proc req ph) w) as [[[ev1 q] w1]|] eqn:Hq; [|done].
  destruct (proc_step_equiv _ p w ev1 q w1 Hat Hq) as (p' & Hp & _). by eexists _, _, _.
Qed.

Lemma pool_rank_calls_threads w : pool_rank (calls_threads ms, w) = 5 * length ms.
Proof.
  unfold pool_rank, calls_threads. simpl. induction ms as [|m l IH]; [done|].
  csimpl. rewrite IH. lia.
Qed.

Lemma calls_threads_lookup i m :
  ms !! i = Some m → calls_threads ms !! i = Some (method_request m, Start).
Proof. intros Hi. unfold calls_threads. by rewrite list_lookup_fmap, Hi. Qed.

(** The thread of a reachable pool of phases at the index of a call has
    the request of that call. *)
Lemma threads_steps_request w0 ls ths w i m req ph :
  threads_steps env (calls_threads ms, w0) ls (ths, w) →
  ms !! i = Some m → ths !! i = Some (req, ph) → req = method_request m.
Proof.
  intros Hreq%threads_steps_requests Hm%calls_threads_lookup Hi.
  change (ths.*1 = (calls_threads ms).*1) in Hreq.
  apply (f_equal (.!! i)) in Hreq.
  rewrite (list_lookup_fmap fst ths), (list_lookup_fmap fst (calls_threads ms)),
    Hm, Hi in Hreq.
  by injection Hreq.
Qed.

(** A call of a reachable pool has returned or can perform its next
    operation, against a manager that answers every job. *)
Lemma pool_progress w0 ls ts w i p :
  wf_world w0 → NoDup (job_listener <$> jobs w0) → env_answers env →
  pool_steps_with env (calls_pool s ms, w0) ls (ts, w) →
  ts !! i = Some p →
  (∃ ret, p = Ret ret) ∨ ∃ ev p' w', proc_step_with env p w = Some (ev, p', w').
Proof.
  intros Hwf Hl Hans Hsteps Hi.
  destruct (pool_reachable w0 ls ts w Hwf Hl Hsteps) as (ths & _ & Hrel & Hinv).
  destruct (Forall2_lookup_l _ _ _ _ _ Hrel Hi) as ([req ph] & Hi' & Hat).
  destruct (phase_step_answers ths w i req ph Hinv Hi' Hans) as [[ret ->]|Hstep].
  - left. exists ret. by apply proc_equiv_Ret in Hat.
  - right. by eapply at_phase_progress.
Qed.

(** The steps of a pool of [n] calls are at most [5 * n]. *)
Lemma pool_steps_length w0 ls c :
  pool_steps_with env (calls_pool s ms, w0) ls c → length ls ≤ 5 * length ms.
Proof.
  intros Hsteps. destruct c as [ts w].
  destruct (pool_steps_simulation env (calls_threads ms) (calls_pool s ms, w0) ls (ts, w)
              (calls_pool_at_phase s ms) Hsteps) as (ths & Hths & _).
  apply (lsteps_measure _ pool_rank) in Hths; [|apply threads_step_rank].
  rewrite pool_rank_calls_threads in Hths. lia.
Qed.

(** ** Theorems *)

(** C12: concurrent calls follow the call protocol: in every interleaving of
    a pool of [Create] and [Delete] calls, against every environment, the
    events of a call taken alone, followed by any execution of what is left
    of the call, are a trace of the protocol [call_trace] for the request of
    the call; for a call that has returned, its events are a trace of the
    protocol with the value it returned. *)
Theorem pool_call_follows_protocol w0 ls ts w i m p :
  pool_steps_with env (calls_pool s ms, w0) ls (ts, w) →
  ms !! i = Some m → ts !! i = Some p →
  (∀ tr ret, exec p tr ret → call_trace (method_request m) (project i ls ++ tr) ret)
  ∧ (∀ ret, p = Ret ret → call_trace (method_request m) (project i ls) ret).
Proof.
  intros Hsteps Hm Hp.
  assert (calls_pool s ms !! i = Some (method_proc s m)) as Hi
    by (unfold calls_pool; by rewrite list_lookup_fmap, Hm).
  split.
  - intros tr ret Hex. apply (method_call_trace s).
    by apply (pool_steps_project _ _ _ _ _ _ _ _ Hsteps Hi Hp).
  - intros ret ->. apply (method_call_trace s).
    by apply (pool_steps_project_Ret _ _ _ _ _ _ Hsteps Hi Hp).
Qed.

(** The pool of the command trees of [Create] and [Delete] calls is
    simulated by the pool of phases: every interleaving of the operations of
    the calls is an interleaving of the phase machine with the same events,
    and every tree is at the phase of its thread. *)
Theorem pool_refines_threads w0 ls ts w :
  pool_steps_with env (calls_pool s ms, w0) ls (ts, w) →
  ∃ ths, threads_steps env (calls_threads ms, w0) ls (ths, w)
    ∧ Forall2 at_phase ts ths.
Proof.
  apply (pool_steps_simulation env (calls_threads ms) (calls_pool s ms, w0) ls (ts, w)).
  apply calls_pool_at_phase.
Qed.

(** C21: whatever the interleaving of concurrent calls, the state of the
    manager stays well formed and no channel is registered for two jobs. *)
Theorem pool_preserves_wf w0 ls ts w :
  wf_world w0 → NoDup (job_listener <$> jobs w0) →
  pool_steps_with env (calls_pool s ms, w0) ls (ts, w) →
  wf_world w ∧ NoDup (job_listener <$> jobs w).
Proof.
  intros Hwf Hl Hsteps.
  destruct (pool_reachable w0 ls ts w Hwf Hl Hsteps) as (ths & _ & _ & Hinv).
  split; [by apply (inv_wf ths)|by apply (inv_listeners ths)].
Qed.

(** C19: concurrent calls do not receive each other's completion values:
    when a call receives a value on its channel, the value is the result of
    a job of the manager for the request of that call, registered with that
    channel. *)
Theorem pool_receive_own_job w0 ls ts w i m ch res c' :
  wf_world w0 → NoDup (job_listener <$> jobs w0) →
  pool_steps_with env (calls_pool s ms, w0) ls (ts, w) →
  ms !! i = Some m →
  @pool_step Op event dbus_events World (manager_run env) (option error)
    (ts, w) (i, EvRecv ch res) c' →
  ∃ conn job, mkJob job (method_request m) conn ch ∈ jobs w
    ∧ job_result env w (mkJob job (method_request m) conn ch) = Some res.
Proof.
  intros Hwf Hl Hsteps Hm Hstep.
  destruct (pool_reachable w0 ls ts w Hwf Hl Hsteps) as (ths & Hths & Hrel & Hinv).
  destruct (pool_step_simulation env ths (ts, w) _ c' Hrel Hstep) as (ths' & Hth & _).
  inversion Hth as [? ? ? req ph ? ph' w' Hi Hph]; subst.
  pose proof (threads_steps_request w0 ls ths w i m req ph Hths Hm Hi) as ->.
  by eapply phase_step_Recv.
Qed.

(** C6: concurrent calls do not block each other: in every state the pool
    reaches, against a manager that answers every job, a call that has not
    returned can perform its next operation, whatever the other calls are
    doing. *)
Theorem pool_call_not_blocked w0 ls ts w i p :
  wf_world w0 → NoDup (job_listener <$> jobs w0) → env_answers env →
  pool_steps_with env (calls_pool s ms, w0) ls (ts, w) →
  ts !! i = Some p →
  (∃ ret, p = Ret ret) ∨ ∃ ev p' w', proc_step_with env p w = Some (ev, p', w').
Proof. apply pool_progress. Qed.

(** C22: every interleaving of a pool of calls ends: a pool of [n] calls
    performs at most [5 * n] operations, whatever the manager answers (a
    call that waits for an answer that never comes performs none). *)
Theorem pool_terminates w0 ls c :
  pool_steps_with env (calls_pool s ms, w0) ls c → length ls ≤ 5 * length ms.
Proof. apply pool_steps_length. Qed.

End reachable.

(** ** The theorems at the sample pool *)

(** The steps along a schedule are steps of the pool. *)
Lemma pool_run_with_steps env sched c ls c' :
  pool_run_with env sched c = Some (ls, c') → pool_steps_with env c ls c'.
Proof. apply pool_run_steps. Qed.

Lemma sample_pool_Create_first :
  ∃ ls, pool_run_with env_done sched_Create_first sample_pool
        = Some (ls, ([Ret None; Ret None], sample_pool_end ∅ [])).
Proof. eexists. vm_compute. reflexivity. Qed.

Lemma sample_pool_Delete_first :
  ∃ ls, pool_run_with env_done sched_Delete_first sample_pool
        = Some (ls, ([Ret None; Ret None],
                     sample_pool_end
                       {["mycontainer" :=
                          SystemdController.Create_properties "mygroup" "mycontainer"]}
                       [])).
Proof. eexists. vm_compute. reflexivity. Qed.

(** Nothing serializes concurrent calls on the same path: a [Create]
    and a [Delete] of the same path both return nil in every order, and the
    unit is loaded at the end in one interleaving and not in another. *)
Theorem Create_Delete_race :
  ∃ ls1 ls2 w1 w2,
    pool_steps_with env_done sample_pool ls1 ([Ret None; Ret None], w1)
    ∧ pool_steps_with env_done sample_pool ls2 ([Ret None; Ret None], w2)
    ∧ units w1 !! "mycontainer" = None
    ∧ units w2 !! "mycontainer"
      = Some (SystemdController.Create_properties "mygroup" "mycontainer").
Proof.
  destruct sample_pool_Create_first as [ls1 H1].
  destruct sample_pool_Delete_first as [ls2 H2].
  exists ls1, ls2, (sample_pool_end ∅ []), (sample_pool_end
    {["mycontainer" := SystemdController.Create_properties "mygroup" "mycontainer"]} []).
  split_and!; [by eapply pool_run_with_steps..|done|]. simpl. apply lookup_singleton_eq.
Qed.

Lemma sample_pool_steps :
  pool_steps_with env_done sample_pool sample_labels
    ([Ret None; Ret None], sample_pool_end ∅ [1%Z]).
Proof. apply (pool_run_with_steps _ sched_in_turn). vm_compute. reflexivity. Qed.

Lemma sample_waiting_steps :
  pool_steps_with env_done sample_pool sample_waiting_labels sample_waiting.
Proof. apply (pool_run_with_steps _ sched_both_waiting). vm_compute. reflexivity. Qed.

Lemma pool_refines_threads_witness :
  ∃ ths, threads_steps env_done (calls_threads sample_calls, init_world) sample_labels
           (ths, sample_pool_end ∅ [1%Z])
    ∧ Forall2 at_phase [Ret None; Ret None] ths.
Proof.
  exact (pool_refines_threads env_done sample_controller sample_calls init_world
           sample_labels _ _ sample_pool_steps).
Defined.

Lemma pool_preserves_wf_witness :
  wf_world (sample_pool_end ∅ [1%Z])
  ∧ NoDup (job_listener <$> jobs (sample_pool_end ∅ [1%Z])).
Proof.
  exact (pool_preserves_wf env_done sample_controller sample_calls init_world
           sample_labels _ _ wf_init NoDup_nil_2 sample_pool_steps).
Defined.

Lemma pool_receive_own_job_witness :
  ∃ conn job,
    mkJob job (method_request sample_call) conn 0 ∈ jobs sample_waiting.2
    ∧ job_result env_done sample_waiting.2 (mkJob job (method_request sample_call) conn 0)
      = Some "canceled".
Proof.
  eapply (pool_receive_own_job env_done sample_controller sample_calls init_world
            sample_waiting_labels sample_waiting.1 sample_waiting.2 0 sample_call 0
            "canceled");
    [apply wf_init|apply NoDup_nil_2|apply sample_waiting_steps|reflexivity|].
  by eapply (pool_step_thread _ _ 0 (proc_waiting 0 0)).
Defined.

Lemma pool_call_not_blocked_witness :
  (∃ ret, proc_waiting 0 0 = Ret ret)
  ∨ ∃ ev p' w', proc_step_with env_done (proc_waiting 0 0) sample_waiting.2 = Some (ev, p', w').
Proof.
  apply (pool_call_not_blocked env_done sample_controller sample_calls init_world
           sample_waiting_labels sample_waiting.1 sample_waiting.2 0);
    [apply wf_init|apply NoDup_nil_2|apply env_done_answers|apply sample_waiting_steps|
     reflexivity].
Defined.

Lemma pool_terminates_witness : length sample_labels ≤ 5 * length sample_calls.
Proof.
  exact (pool_terminates env_done sample_controller sample_calls init_world
           sample_labels _ sample_pool_steps).
Defined.

Lemma pool_call_follows_protocol_witness :
  call_trace (method_request sample_call) (project 0 sample_labels) None.
Proof.
  exact (proj2 (pool_call_follows_protocol env_done sample_controller sample_calls
                  init_world sample_labels _ _ 0 sample_call (Ret None)
                  sample_pool_steps eq_refl eq_refl) None eq_refl).
Defined.
