(* ===== verification/PoolEffect.v ===== *)
(** What the concurrent calls of a pool hold, release and change.

    A call holds the connection it opened until its deferred [Close] and
    the job it submitted until it receives the result. [free_conns] and
    [free_jobs] are the connections and the jobs of the manager that no call
    of the pool holds; every step of the pool leaves them as they are, so
    that a pool whose calls have all returned leaves the connections and the
    jobs of the manager as it found them, whatever the interleaving. The
    units of the manager change only when a call receives the result of its
    job: the units a pool leaves are the effects of the jobs of its calls in
    the order of the receives, each with the result received. A caller that
    makes its calls one after the other is one interleaving of the pool
    ([calls_pool_steps]). *)

From Stdlib Require Import Ascii ZArith.
From stdpp Require Import gmap.
From S2P Require Import Prelude GoStrings FilePath Naming Proc Dbus Controller Protocol Manager Runs Pool.

#[local] Open Scope go_scope.

(** The elements of [l] that no thread holds, where [f] gives what a thread
    holds. *)
Definition free {T A : Type} `{!EqDecision A} (f : T → option A)
    (l : list A) (ths : list T) : list A :=
  filter (λ x, x ∉ omap f ths) l.

(** No two threads hold the same thing. *)
Definition exclusive {T A : Type} (f : T → option A) (ths : list T) : Prop :=
  ∀ i j t1 t2 x,
    ths !! i = Some t1 → ths !! j = Some t2 → f t1 = Some x → f t2 = Some x → i = j.

(** The connection a thread holds: from [New] to the deferred [Close]. *)
Definition thread_conn (t : thread) : option Conn := phase_conn t.2.

(** The job a thread holds: from the submission to the receive. *)
Definition thread_job (t : thread) : option Job :=
  match t.2 with
  | Waiting conn ch job => Some (mkJob job t.1 conn ch)
  | _ => None
  end.

Definition free_conns (ths : list thread) (w : World) : list Conn :=
  free thread_conn (conns w) ths.

Definition free_jobs (ths : list thread) (w : World) : list Job :=
  free thread_job (jobs w) ths.

(** The job whose result a step of the pool delivers: the request of the
    call that receives, with the result. *)
Definition completion (reqs : list request) (l : nat * event)
    : option (request * gostring) :=
  match l.2 with
  | EvRecv _ res => req ← reqs !! l.1; Some (req, res)
  | _ => None
  end.

(** The effect of a sequence of jobs on the units, in order. *)
Definition apply_jobs (cs : list (request * gostring))
    (us : gmap gostring (list systemdDbus.Property))
    : gmap gostring (list systemdDbus.Property) :=
  foldl (λ us c, job_effect c.1 c.2 us) us cs.

(** A command tree that has returned. *)
Definition returned {T} (p : proc Op T) : Prop := ∃ ret, p = Ret ret.

#[global] Instance returned_dec {T} (p : proc Op T) : Decision (returned p).
Proof.
  destruct p as [v|X op k]; [left; by exists v|right; by intros [ret Hret]].
Defined.

(** ** What the threads hold *)

Section free.
Context {T A : Type} `{!EqDecision A} (f : T → option A).
Implicit Types (ths : list T) (l : list A).

(** What the threads hold after one of them changes what it holds. *)
Lemma held_insert ths k t t' x :
  ths !! k = Some t → exclusive f ths →
  x ∈ omap f (<[k := t']> ths) ↔ f t' = Some x ∨ (x ∈ omap f ths ∧ f t ≠ Some x).
Proof.
  intros Hk Hex. rewrite !list_elem_of_omap. split.
  - intros (t1 & (i & Hi)%list_elem_of_lookup_1 & Hx).
    apply list_lookup_insert_Some in Hi as [(-> & <- & _)|(Hne & Hi)]; [by left|].
    right. split; [exists t1; split; [by eapply list_elem_of_lookup_2|done]|].
    intros Ht. by destruct Hne, (Hex k i t t1 x).
  - intros [Hx|((t1 & (i & Hi)%list_elem_of_lookup_1 & Hx) & Hne)].
    + exists t'. split; [|done]. apply list_elem_of_lookup. exists k.
      apply list_lookup_insert_eq. by eapply lookup_lt_Some.
    + exists t1. split; [|done]. apply list_elem_of_lookup. exists i.
      rewrite list_lookup_insert_ne; [done|]. intros ->. by simplify_eq.
Qed.

Lemma held_lookup ths k t x : ths !! k = Some t → f t = Some x → x ∈ omap f ths.
Proof.
  intros Hk Hx. apply list_elem_of_omap. exists t.
  split; [by eapply list_elem_of_lookup_2|done].
Qed.

Context (ths : list T) (k : nat) (t t' : T).
Context (Hk : ths !! k = Some t) (Hex : exclusive f ths).

(** A step that changes neither the list nor what the thread holds. *)
Lemma free_same l : f t' = f t → free f l (<[k := t']> ths) = free f l ths.
Proof.
  intros Heq. apply filter_ext_in. intros x _. rewrite held_insert, Heq by done.
  pose proof (held_lookup ths k t x Hk). destruct (decide (f t = Some x)); tauto.
Qed.

(** A step in which the thread acquires a new element [x]. *)
Lemma free_acquire l1 l2 x :
  f t = None → f t' = Some x → x ∉ l1 ++ l2 →
  free f (l1 ++ x :: l2) (<[k := t']> ths) = free f (l1 ++ l2) ths.
Proof.
  intros Ht Ht' Hx. unfold free. rewrite !filter_app, filter_cons_False.
  - rewrite not_elem_of_app in Hx.
    f_equal; apply filter_ext_in; intros y Hy; rewrite held_insert, Ht, Ht' by done;
      (assert (x ≠ y) by (intros ->; tauto)); intuition congruence.
  - intros Hn. apply Hn, (held_insert ths k t t'); [done..|]. by left.
Qed.

(** A step in which the thread releases the element [x] it holds. *)
Lemma free_release l x :
  f t = Some x → f t' = None →
  free f (filter (λ y, y ≠ x) l) (<[k := t']> ths) = free f l ths.
Proof.
  intros Ht Ht'. unfold free. rewrite list_filter_filter. apply filter_ext_in.
  intros y _. rewrite held_insert, Ht, Ht' by done.
  pose proof (held_lookup ths k t x Hk Ht).
  destruct (decide (y = x)) as [->|]; intuition congruence.
Qed.

End free.

Lemma free_nil {T A : Type} `{!EqDecision A} (f : T → option A) l ths :
  (∀ t, t ∈ ths → f t = None) → free f l ths = l.
Proof.
  intros Hnone. apply filter_Forall_id, Forall_forall.
  intros x _ (t & Ht & Hx)%list_elem_of_omap. by rewrite Hnone in Hx.
Qed.

(** ** The steps of a thread *)

Section steps.
Context (env : Env).
Implicit Types (req : request) (ph : phase) (w : World) (ths : list thread).

Lemma pool_inv_conns_exclusive ths w : pool_inv ths w → exclusive thread_conn ths.
Proof. intros Hinv i j t1 t2 c. apply (inv_conns _ _ Hinv). Qed.

Lemma thread_job_chan (t : thread) j :
  thread_job t = Some j → phase_chan t.2 = Some (job_listener j).
Proof. destruct t as [req []]; by intros [= <-]. Qed.

Lemma fresh_job_id w j : wf_world w → job_id j = next_job w → j ∉ jobs w.
Proof.
  intros [_ _ _ Hid _] Hj Hin. rewrite Forall_forall in Hid.
  apply Hid in Hin. lia.
Qed.

Lemma pool_inv_jobs_exclusive ths w : pool_inv ths w → exclusive thread_job ths.
Proof.
  intros Hinv i j t1 t2 x H1 H2 Hj1%thread_job_chan Hj2%thread_job_chan.
  by apply (inv_chans _ _ Hinv i j t1 t2 (job_listener x)).
Qed.

(** A step of a thread leaves the connections that no thread holds as they
    are: the connection that [New] opens is held by the thread, and the
    connection that [Close] closes was. *)
Lemma phase_step_free_conns ths w k req ph ev ph' w' :
  pool_inv ths w → ths !! k = Some (req, ph) →
  phase_step env req ph w = Some (ev, ph', w') →
  free_conns (<[k := (req, ph')]> ths) w' = free_conns ths w.
Proof.
  intros Hinv Hk. pose proof (pool_inv_conns_exclusive _ _ Hinv) as Hex.
  pose proof (fresh_conn w (inv_wf _ _ Hinv)) as Hfresh.
  unfold free_conns.
  destruct ph; simpl; unfold do_New, do_submit, do_Recv; repeat case_match;
    intros; simplify_eq/=;
    first [ by apply (free_same thread_conn ths k (req, _) _ Hk Hex)
          | by apply (free_acquire thread_conn ths k (req, _) _ Hk Hex [])
          | by apply (free_release thread_conn ths k (req, _) _ Hk Hex) ].
Qed.

(** A step of a thread leaves the jobs that no thread holds as they are:
    the job that a submission adds is held by the thread, and the job whose
    result a receive delivers was. *)
Lemma phase_step_free_jobs ths w k req ph ev ph' w' :
  pool_inv ths w → ths !! k = Some (req, ph) →
  phase_step env req ph w = Some (ev, ph', w') →
  free_jobs (<[k := (req, ph')]> ths) w' = free_jobs ths w.
Proof.
  intros Hinv Hk. pose proof (pool_inv_jobs_exclusive _ _ Hinv) as Hex.
  pose proof (λ j, fresh_job_id w j (inv_wf _ _ Hinv)) as Hfresh.
  unfold free_jobs.
  destruct ph as [| | |conn ch job| |]; simpl;
    [..|unfold do_Recv; rewrite (find_job_own _ _ _ _ _ _ _ Hinv Hk)| |];
    unfold do_New, do_submit; repeat case_match; intros; simplify_eq/=;
    first [ by apply (free_same thread_job ths k (req, _) _ Hk Hex)
          | by apply (free_release thread_job ths k (req, _) _ Hk Hex)
          | rewrite <- (app_nil_r (jobs w)) at 2;
            apply (free_acquire thread_job ths k (req, _) _ Hk Hex); [done..|];
            rewrite app_nil_r; by apply Hfresh ].
Qed.

End steps.

(** ** The steps of the pool of phases *)

Section threads.
Context (env : Env).
Implicit Types (w : World) (ths : list thread) (c : list thread * World).

(** The units change only at a receive, by the effect of the job of the
    thread that receives. *)
Lemma phase_step_units ths w k req ph ev ph' w' :
  pool_inv ths w → ths !! k = Some (req, ph) →
  phase_step env req ph w = Some (ev, ph', w') →
  units w' = apply_jobs (option_list (completion ths.*1 (k, ev))) (units w).
Proof.
  intros Hinv Hk. unfold completion. simpl.
  destruct ph as [| | |conn ch job| |]; simpl;
    [..|unfold do_Recv; rewrite (find_job_own _ _ _ _ _ _ _ Hinv Hk)| |];
    unfold do_New, do_submit; repeat case_match; intros; simplify_eq/=;
    try done; try by destruct req.
  by rewrite list_lookup_fmap, Hk.
Qed.

Lemma threads_step_free c l c' :
  threads_step env c l c' → pool_inv c.1 c.2 →
  free_conns c'.1 c'.2 = free_conns c.1 c.2
  ∧ free_jobs c'.1 c'.2 = free_jobs c.1 c.2
  ∧ units c'.2 = apply_jobs (option_list (completion c.1.*1 l)) (units c.2).
Proof.
  intros [ths w i req ph ev ph' w' Hi Hstep] Hinv. simpl in *.
  split_and!; [by eapply phase_step_free_conns|by eapply phase_step_free_jobs|
               by eapply phase_step_units].
Qed.

(** Along the steps of the pool, the connections and the jobs that no
    thread holds stay as they are, and the units are changed by the jobs
    whose results are received, in the order of the receives. *)
Lemma threads_steps_free c ls c' :
  threads_steps env c ls c' → pool_inv c.1 c.2 →
  free_conns c'.1 c'.2 = free_conns c.1 c.2
  ∧ free_jobs c'.1 c'.2 = free_jobs c.1 c.2
  ∧ units c'.2 = apply_jobs (omap (completion c.1.*1) ls) (units c.2).
Proof.
  induction 1 as [|c1 l c2 ls c3 Hstep Hsteps IH]; intros Hinv; [done|].
  destruct (threads_step_free _ _ _ Hstep Hinv) as (Hc & Hj & Hu).
  destruct IH as (-> & -> & ->); [by eapply threads_step_inv|].
  rewrite (threads_steps_requests env c1 [l] c2) by by apply lsteps_one.
  split_and!; [done..|]. rewrite Hu. simpl. by destruct (completion _ l).
Qed.

(** Threads that have not started or have returned hold nothing. *)
Lemma free_idle ths w :
  Forall (λ t, phase_conn t.2 = None) ths →
  free_conns ths w = conns w ∧ free_jobs ths w = jobs w.
Proof.
  rewrite Forall_forall. intros Hidle.
  split; apply free_nil; intros [req ph] Hin; apply Hidle in Hin; by destruct ph.
Qed.

Lemma at_phase_Ret ret (t : thread) : at_phase (Ret ret) t → t.2 = Returned ret.
Proof.
  destruct t as [req ph]. unfold at_phase.
  destruct ph; simpl; try by intros (? & ? & _)%proc_equiv_Do.
  by intros [= ->]%proc_equiv_Ret.
Qed.

Lemma at_phase_returned (p : proc Op (option error)) (t : thread) :
  at_phase p t → returned p → phase_conn t.2 = None.
Proof. intros Hat [ret ->]. by rewrite (at_phase_Ret ret t). Qed.

Lemma at_phase_all_returned (ts : list (proc Op (option error))) ths :
  Forall2 at_phase ts ths → Forall returned ts →
  Forall (λ t, phase_conn t.2 = None) ths.
Proof.
  induction 1 as [|p t ts ths Hat _ IH]; [done|].
  intros [Hp Hts]%Forall_cons. apply Forall_cons. split; [|by apply IH].
  by eapply at_phase_returned.
Qed.

End threads.

(** ** Sequential callers *)

(** A caller that makes the calls one after the other is one interleaving
    of the pool of the calls: the one in which each call runs to its end
    before the next one starts. *)
Lemma calls_pool_steps {LR} env s (ms : list (method LR)) : ∀ pre w tr rets w',
  run_with env (calls s ms) w = (tr, Done rets w') →
  ∃ ls, pool_steps_with env (pre ++ calls_pool s ms, w) ls (pre ++ (Ret <$> rets), w')
        ∧ ls.*2 = tr.
Proof.
  unfold run_with.
  induction ms as [|m ms IH]; intros pre w tr rets w'; simpl.
  { intros [= <- <- <-]. exists []. split; [constructor|done]. }
  unfold mbind, proc_mbind. rewrite run_bind.
  destruct (run (method_proc s m) w) as [tr1 [r w1|w1]] eqn:Hm; [|done].
  rewrite run_bind. destruct (run (calls s ms) w1) as [tr2 [rs w2|w2]] eqn:Hms; [|done].
  simpl. rewrite app_nil_r. intros [= <- <- <-].
  destruct (IH (pre ++ [Ret r]) w1 tr2 rs w2 Hms) as (ls & Hls & <-).
  exists (((λ ev, (length pre, ev)) <$> tr1) ++ ls). split.
  - eapply lsteps_app.
    + apply (run_pool_steps (method_proc s m) _ (length pre));
        [by apply list_lookup_middle|done].
    + rewrite <- (Nat.add_0_r (length pre)), insert_app_r.
      by rewrite <- !(assoc_L (++)) in Hls.
  - rewrite fmap_app, <- list_fmap_compose. f_equal. by apply list_fmap_id.
Qed.

(** ** The pool of calls *)

Section pool.
Context (env : Env) {LR : Type} (s : SystemdController) (ms : list (method LR)).
Implicit Types (w : World) (ts : list (proc Op (option error))).

Lemma calls_threads_requests : (calls_threads ms).*1 = method_request <$> ms.
Proof. unfold calls_threads. by rewrite <- list_fmap_compose. Qed.

(** In a state that the pool of calls reaches, the connections and the jobs
    that no call holds are those of the start, and the units are those of the
    start changed by the jobs whose results were received. *)
Lemma pool_reachable_free w0 ls ts w :
  wf_world w0 → NoDup (job_listener <$> jobs w0) →
  pool_steps_with env (calls_pool s ms, w0) ls (ts, w) →
  ∃ ths, Forall2 at_phase ts ths
    ∧ free_conns ths w = conns w0 ∧ free_jobs ths w = jobs w0
    ∧ units w = apply_jobs (omap (completion (method_request <$> ms)) ls) (units w0).
Proof.
  intros Hwf Hl Hsteps.
  destruct (pool_reachable env s ms w0 ls ts w Hwf Hl Hsteps) as (ths & Hths & Hrel & _).
  apply threads_steps_free in Hths as (Hc & Hj & Hu); [|by apply calls_threads_inv].
  simpl in *. rewrite calls_threads_requests in Hu.
  destruct (free_idle (calls_threads ms) w0) as [Hc0 Hj0].
  { apply Forall_fmap, Forall_forall. done. }
  exists ths. by rewrite Hc, Hj, Hc0, Hj0.
Qed.

(** A reachable pool whose calls have not all returned can step, against a
    manager that answers every job. *)
Lemma pool_next w0 ls ts w :
  wf_world w0 → NoDup (job_listener <$> jobs w0) → env_answers env →
  pool_steps_with env (calls_pool s ms, w0) ls (ts, w) →
  Forall returned ts
  ∨ ∃ l c', @pool_step Op event dbus_events World (manager_run env) (option error)
              (ts, w) l c'.
Proof.
  intros Hwf Hl Hans Hsteps. destruct (decide (Forall returned ts)) as [|Hex]; [by left|].
  right. apply not_Forall_Exists, Exists_exists in Hex as (p & Hin & Hp); [|apply _].
  apply list_elem_of_lookup in Hin as [i Hi].
  destruct (pool_progress env s ms w0 ls ts w i p Hwf Hl Hans Hsteps Hi)
    as [Hret|(ev & p' & w' & Hstep)]; [done|].
  eexists _, _. by eapply pool_step_thread.
Qed.

Lemma pool_completes_fuel n : ∀ w0 ls ts w,
  wf_world w0 → NoDup (job_listener <$> jobs w0) → env_answers env →
  pool_steps_with env (calls_pool s ms, w0) ls (ts, w) →
  5 * length ms ≤ length ls + n →
  ∃ ls' ts' w', pool_steps_with env (ts, w) ls' (ts', w') ∧ Forall returned ts'.
Proof.
  induction n as [|n IH]; intros w0 ls ts w Hwf Hl Hans Hsteps Hn;
    (destruct (pool_next w0 ls ts w Hwf Hl Hans Hsteps) as [Hret|(l & [ts' w'] & Hstep)];
     [exists [], ts, w; split; [constructor|done]|]);
    pose proof (lsteps_app _ _ _ _ _ _ Hsteps (lsteps_one _ _ _ _ Hstep)) as Hsteps'.
  - apply pool_steps_length in Hsteps'. rewrite length_app in Hsteps'. simpl in *. lia.
  - destruct (IH w0 (ls ++ [l]) ts' w' Hwf Hl Hans Hsteps') as (ls' & ts'' & w'' & Hrest & Hret).
    { rewrite length_app. simpl. lia. }
    exists (l :: ls'), ts'', w''. split; [by eapply lsteps_cons|done].
Qed.

(** ** Theorems *)

(** C14: concurrent calls leak nothing: when every call of a pool has
    returned, with an error or without, the open connections and the pending
    jobs of the manager are those of the start, whatever the interleaving:
    every call has closed its own connection and received the result of its
    own job. *)
Theorem pool_releases w0 ls ts w :
  wf_world w0 → NoDup (job_listener <$> jobs w0) →
  pool_steps_with env (calls_pool s ms, w0) ls (ts, w) →
  Forall returned ts →
  conns w = conns w0 ∧ jobs w = jobs w0.
Proof.
  intros Hwf Hl Hsteps Hret.
  destruct (pool_reachable_free w0 ls ts w Hwf Hl Hsteps) as (ths & Hrel & <- & <- & _).
  destruct (free_idle ths w (at_phase_all_returned ts ths Hrel Hret)) as [-> ->]. done.
Qed.

(** C18: the units that concurrent calls leave are the units of the start
    changed by the jobs of the calls in the order in which their results are
    received: each receive applies the effect of the request of the call that
    receives, and no other step changes a unit. *)
Theorem pool_units w0 ls ts w :
  wf_world w0 → NoDup (job_listener <$> jobs w0) →
  pool_steps_with env (calls_pool s ms, w0) ls (ts, w) →
  units w = apply_jobs (omap (completion (method_request <$> ms)) ls) (units w0).
Proof.
  intros Hwf Hl Hsteps.
  by destruct (pool_reachable_free w0 ls ts w Hwf Hl Hsteps) as (_ & _ & _ & _ & ->).
Qed.

(** C20: against a manager that answers every job, the calls of a pool can
    always be run to the end: from every state the pool reaches there are
    steps after which every call has returned. *)
Theorem pool_completes w0 ls ts w :
  wf_world w0 → NoDup (job_listener <$> jobs w0) → env_answers env →
  pool_steps_with env (calls_pool s ms, w0) ls (ts, w) →
  ∃ ls' ts' w', pool_steps_with env (ts, w) ls' (ts', w') ∧ Forall returned ts'.
Proof.
  intros Hwf Hl Hans Hsteps.
  apply (pool_completes_fuel (5 * length ms) w0 ls); [done..|lia].
Qed.

End pool.

(** ** The theorems at the sample pool *)

Lemma sample_pool_returned : Forall returned [Ret (@None error); Ret None].
Proof. repeat constructor; by eexists. Qed.

Lemma pool_releases_witness :
  conns (sample_pool_end ∅ [1%Z]) = conns init_world
  ∧ jobs (sample_pool_end ∅ [1%Z]) = jobs init_world.
Proof.
  exact (pool_releases env_done sample_controller sample_calls init_world
           sample_labels _ _ wf_init NoDup_nil_2 sample_pool_steps sample_pool_returned).
Defined.

Lemma pool_units_witness :
  units (sample_pool_end ∅ [1%Z])
  = apply_jobs (omap (completion (method_request <$> sample_calls)) sample_labels)
      (units init_world).
Proof.
  exact (pool_units env_done sample_controller sample_calls init_world
           sample_labels _ _ wf_init NoDup_nil_2 sample_pool_steps).
Defined.

Lemma pool_completes_witness :
  ∃ ls' ts' w',
    pool_steps_with env_done (sample_waiting.1, sample_waiting.2) ls' (ts', w')
    ∧ Forall returned ts'.
Proof.
  exact (pool_completes env_done sample_controller sample_calls init_world
           sample_waiting_labels _ _ wf_init NoDup_nil_2 env_done_answers
           sample_waiting_steps).
Defined.
