(* ===== verification/PoolOrder.v ===== *)
(** The effect of concurrent calls in the order of their submissions.

    A request in mode [replace] supersedes the jobs queued for its unit, and
    both methods of the controller submit in that mode. So, for each unit,
    at most one job of the pool is live (queued and not superseded), it is the
    job of the last request accepted for the unit, and the unit is in the
    state that the last request whose job has ended with [done] gave it.
    The invariant [order_inv] states this against the abstract units, in
    which every request takes effect at the moment it is accepted. When every
    call has returned the two agree: the units a pool leaves are those of the
    accepted requests executed in the order of their submissions. For
    requests on pairwise different units the order does not matter, and the
    pool leaves what the calls that returned nil leave when made one after the
    other. *)

From Stdlib Require Import Ascii ZArith.
From stdpp Require Import gmap.
From S2P Require Import Prelude GoStrings FilePath Naming Proc Dbus Controller Protocol Manager Runs Pool PoolEffect.

#[local] Open Scope go_scope.

(** The request that an event shows accepted: a submission that returned a
    job. *)
Definition event_accepted (ev : event) : option request :=
  match ev with
  | EvStartTransientUnit _ name mode properties _ (Ok _) =>
      Some (ReqStart name mode properties)
  | EvStopUnit _ name mode _ (Ok _) => Some (ReqStop name mode)
  | _ => None
  end.

(** The requests accepted along the steps of a pool, in order. *)
Definition accepted (ls : list (nat * event)) : list request :=
  omap (λ l, event_accepted l.2) ls.

(** The abstract units: every request takes effect when it is accepted. *)
Definition units_of (reqs : list request)
    (us : gmap gostring (list systemdDbus.Property))
    : gmap gostring (list systemdDbus.Property) :=
  foldl (λ us req, job_effect req "done" us) us reqs.

(** The state in which a request leaves its unit: loaded with the
    properties, or not loaded. *)
Definition unit_after (req : request) : option (list systemdDbus.Property) :=
  match req with
  | ReqStart _ _ properties => Some properties
  | ReqStop _ _ => None
  end.

(** A thread is live when it waits for a job that is not superseded. *)
Definition live (w : World) (t : thread) : Prop :=
  match t.2 with
  | Waiting _ _ job => job ∉ superseded w
  | _ => False
  end.

#[global] Instance live_dec w t : Decision (live w t).
Proof. unfold live. destruct t.2; apply _. Defined.

(** The invariant, against the abstract units [A]: the unit of a live
    thread is in [A] as its request leaves it; no two live threads have the
    same unit; a unit without live thread is in the manager as it is in
    [A]. *)
Record order_inv (ths : list thread) (w : World)
    (A : gmap gostring (list systemdDbus.Property)) : Prop := mkOrderInv {
  ord_live : ∀ i t, ths !! i = Some t → live w t →
    A !! request_unit t.1 = unit_after t.1;
  ord_unique : ∀ i i' t t',
    ths !! i = Some t → ths !! i' = Some t' → live w t → live w t' →
    request_unit t.1 = request_unit t'.1 → i = i';
  ord_units : ∀ u,
    (∀ i t, ths !! i = Some t → live w t → request_unit t.1 ≠ u) →
    units w !! u = A !! u
}.

(** The phases after the receive. *)
Definition received (ph : phase) : Prop :=
  match ph with Closing _ _ | Returned _ => True | _ => False end.

(** The request of a thread whose submission was accepted. *)
Definition thread_accepted (t : thread) : option request :=
  match t.2 with
  | Waiting _ _ _ | Closing _ None | Returned None => Some t.1
  | _ => None
  end.

(** The calls of [ms] that have returned nil in the pool [ts]. *)
Fixpoint succeeded {LR} (ms : list (method LR)) (ts : list (proc Op (option error)))
    : list (method LR) :=
  match ms, ts with
  | m :: ms, Ret None :: ts => m :: succeeded ms ts
  | _ :: ms, _ :: ts => succeeded ms ts
  | _, _ => []
  end.

(** A pool of two calls on different units, run in turn against a manager
    whose jobs end with [done]: the labels of the steps and the state reached. *)
Definition sample_distinct : list (method unit) :=
  [CreateCall "mygroup/web" None; DeleteCall "mygroup/db"].

Definition sample_distinct_labels : list (nat * event) :=
  Eval vm_compute in
    match pool_run_with env_done sched_in_turn
            (calls_pool sample_controller sample_distinct, init_world) with
    | Some (ls, _) => ls
    | None => []
    end.

Definition sample_distinct_end : World :=
  Eval vm_compute in
    match pool_run_with env_done sched_in_turn
            (calls_pool sample_controller sample_distinct, init_world) with
    | Some (_, c) => c.2
    | None => init_world
    end.

(** The pool of a [Create] and a [Delete] call on the same path run in turn
    until the first call has received: the request of the second call is
    accepted between the acceptance of the first and its receive. *)
Definition sched_superseded : list nat := [0; 1; 0; 1; 0; 1; 0].

Definition sample_superseded_labels : list (nat * event) :=
  Eval vm_compute in
    match pool_run_with env_done sched_superseded sample_pool with
    | Some (ls, _) => ls
    | None => []
    end.

Definition sample_superseded : list (proc Op (option error)) * World :=
  Eval vm_compute in
    match pool_run_with env_done sched_superseded sample_pool with
    | Some (_, c) => c
    | None => sample_pool
    end.

(** ** The effect of requests on the units *)

Section effects.
Implicit Types (req : request) (us : gmap gostring (list systemdDbus.Property)).

Lemma job_effect_lookup req us :
  job_effect req "done" us !! request_unit req = unit_after req.
Proof.
  unfold job_effect. rewrite bool_decide_eq_true_2 by done.
  destruct req; simpl; [apply lookup_insert_eq|apply lookup_delete_eq].
Qed.

Lemma job_effect_lookup_ne req res us u :
  u ≠ request_unit req → job_effect req res us !! u = us !! u.
Proof.
  intros Hne. unfold job_effect. case_bool_decide; [|done].
  destruct req; simpl in *; [by apply lookup_insert_ne|by apply lookup_delete_ne].
Qed.

Lemma job_effect_canceled req us : job_effect req "canceled" us = us.
Proof. done. Qed.

(** Jobs on different units commute. *)
Lemma job_effect_comm req1 res1 req2 res2 us :
  request_unit req1 ≠ request_unit req2 →
  job_effect req1 res1 (job_effect req2 res2 us)
  = job_effect req2 res2 (job_effect req1 res1 us).
Proof.
  intros Hne. unfold job_effect. repeat case_bool_decide; try done.
  destruct req1, req2; simpl in *;
    by rewrite ?(insert_insert_ne _ name), ?(delete_insert_ne _ name),
               ?(delete_insert_ne _ name0), ?(delete_delete _ name).
Qed.

(** The effect of requests on pairwise different units does not depend on
    their order. *)
Lemma units_of_Permutation reqs1 reqs2 :
  reqs1 ≡ₚ reqs2 → NoDup (request_unit <$> reqs1) →
  ∀ us, units_of reqs1 us = units_of reqs2 us.
Proof.
  induction 1 as [|r rs1 rs2 Hp IH|r1 r2 rs|rs1 rs2 rs3 Hp1 IH1 Hp2 IH2]; intros Hnd us.
  - done.
  - apply NoDup_cons in Hnd as [_ Hnd]. by apply IH.
  - simpl. f_equal. apply job_effect_comm. apply NoDup_cons in Hnd as [Hin _].
    intros Heq. apply Hin. simpl. rewrite <- Heq. by left.
  - rewrite IH1 by done. apply IH2. by rewrite <- Hp1.
Qed.

Lemma units_of_accepted_cons l ls us :
  units_of (accepted (l :: ls)) us
  = units_of (accepted ls)
      (from_option (λ r, job_effect r "done" us) us (event_accepted l.2)).
Proof. unfold accepted. csimpl. by destruct (event_accepted l.2). Qed.

Lemma units_of_snoc reqs req us :
  units_of (reqs ++ [req]) us = job_effect req "done" (units_of reqs us).
Proof. unfold units_of. by rewrite foldl_app. Qed.

(** A unit is as the last request for it leaves it, and as it was when
    there is none. *)
Lemma units_of_lookup reqs us u :
  units_of reqs us !! u
  = from_option unit_after (us !! u) (last (filter (λ r, request_unit r = u) reqs)).
Proof.
  induction reqs as [|req reqs IH] using rev_ind; [done|].
  rewrite units_of_snoc, filter_app, filter_cons, filter_nil. case_decide as Hu.
  - subst u. by rewrite job_effect_lookup, last_snoc.
  - by rewrite job_effect_lookup_ne, app_nil_r.
Qed.

Lemma units_after_units_of {LR} (ms : list (method LR)) us :
  units_after ms us = units_of (method_request <$> ms) us.
Proof. unfold units_after, units_of. by rewrite foldl_fmap. Qed.

End effects.

(** ** The steps of a thread and the invariant *)

Section order.
Implicit Types (req : request) (ph : phase) (w : World) (t : thread)
  (ths : list thread) (A : gmap gostring (list systemdDbus.Property)).

Lemma live_superseded w w' t : superseded w' = superseded w → live w' t ↔ live w t.
Proof. intros Hs. unfold live. by rewrite Hs. Qed.

Section update.
Context (ths : list thread) (w w' : World) (A : gmap gostring (list systemdDbus.Property)).
Context (k : nat) (req : request) (ph ph' : phase).
Context (Hinv : order_inv ths w A) (Hk : ths !! k = Some (req, ph)).

(** A step that changes neither the units nor the live threads. *)
Lemma order_inv_same :
  superseded w' = superseded w → units w' = units w →
  ¬ live w (req, ph) → ¬ live w' (req, ph') →
  order_inv (<[k := (req, ph')]> ths) w' A.
Proof.
  intros Hs Hu Hl Hl'. destruct Hinv as [HE HU HS].
  pose proof (λ t, live_superseded w w' t Hs) as Hlive. split.
  - intros i t [(-> & <- & _)|(Hne & Hi)]%list_lookup_insert_Some Ht; [done|].
    apply (HE i t Hi). by apply Hlive.
  - intros i i' t t' [(-> & <- & _)|(Hne & Hi)]%list_lookup_insert_Some
      [(-> & <- & _)|(Hne' & Hi')]%list_lookup_insert_Some Ht Ht'; try done.
    apply (HU i i' t t'); by try apply Hlive.
  - intros u Hnone. rewrite Hu. apply HS. intros i t Hi Ht.
    destruct (decide (i = k)) as [->|Hne]; [by simplify_eq|].
    apply (Hnone i t); [by rewrite list_lookup_insert_ne|by apply Hlive].
Qed.

(** The step in which the live job of the thread ends with [done]. *)
Lemma order_inv_done :
  superseded w' = superseded w → units w' = job_effect req "done" (units w) →
  live w (req, ph) → ¬ live w' (req, ph') →
  order_inv (<[k := (req, ph')]> ths) w' A.
Proof.
  intros Hs Hu Hl Hl'. destruct Hinv as [HE HU HS].
  pose proof (λ t, live_superseded w w' t Hs) as Hlive. split.
  - intros i t [(-> & <- & _)|(Hne & Hi)]%list_lookup_insert_Some Ht; [done|].
    apply (HE i t Hi). by apply Hlive.
  - intros i i' t t' [(-> & <- & _)|(Hne & Hi)]%list_lookup_insert_Some
      [(-> & <- & _)|(Hne' & Hi')]%list_lookup_insert_Some Ht Ht'; try done.
    apply (HU i i' t t'); by try apply Hlive.
  - intros u Hnone. rewrite Hu. destruct (decide (u = request_unit req)) as [->|Hu'].
    { rewrite job_effect_lookup. symmetry. by apply (HE k (req, ph)). }
    rewrite job_effect_lookup_ne by done. apply HS. intros i t Hi Ht.
    destruct (decide (i = k)) as [->|Hne]; [by simplify_eq/=|].
    apply (Hnone i t); [by rewrite list_lookup_insert_ne|by apply Hlive].
Qed.

(** The step in which the request of the thread is accepted: its job is
    live, and the other live jobs are those of other units. *)
Lemma order_inv_accept :
  units w' = units w → ¬ live w (req, ph) → live w' (req, ph') →
  (∀ i t, k ≠ i → ths !! i = Some t →
          live w' t ↔ live w t ∧ request_unit t.1 ≠ request_unit req) →
  order_inv (<[k := (req, ph')]> ths) w' (job_effect req "done" A).
Proof.
  intros Hu Hl Hl' Hlive. destruct Hinv as [HE HU HS]. split.
  - intros i t [(-> & <- & _)|(Hne & Hi)]%list_lookup_insert_Some Ht.
    { apply job_effect_lookup. }
    apply (Hlive i t Hne Hi) in Ht as [Ht Hunit].
    rewrite job_effect_lookup_ne by done. by apply (HE i t).
  - intros i i' t t' [(-> & <- & _)|(Hne & Hi)]%list_lookup_insert_Some
      [(-> & <- & _)|(Hne' & Hi')]%list_lookup_insert_Some Ht Ht' Heq; try done.
    + apply (Hlive i' t' Hne' Hi') in Ht' as [_ Hn]. simpl in Heq. congruence.
    + apply (Hlive i t Hne Hi) in Ht as [_ Hn]. simpl in Heq. congruence.
    + apply (Hlive i t Hne Hi) in Ht as [Ht _].
      apply (Hlive i' t' Hne' Hi') in Ht' as [Ht' _]. by apply (HU i i' t t').
  - intros u Hnone.
    assert (request_unit req ≠ u) as Hne.
    { apply (Hnone k (req, ph')); [|done].
      apply list_lookup_insert_eq. by eapply lookup_lt_Some. }
    rewrite Hu, job_effect_lookup_ne by done. apply HS. intros i t Hi Ht.
    destruct (decide (i = k)) as [->|Hik]; [by simplify_eq|].
    destruct (decide (request_unit t.1 = request_unit req)) as [->|Hunit]; [done|].
    apply (Hnone i t); [by rewrite list_lookup_insert_ne|].
    by apply (Hlive i t (not_eq_sym Hik) Hi).
Qed.

End update.

Lemma event_accepted_request conn ch req r :
  event_accepted (request_event conn ch req r)
  = match r with Ok _ => Some req | Err _ => None end.
Proof. by destruct req, r. Qed.

(** After a request in mode [replace] is accepted, the live threads among
    the others are those that were live and whose unit is another one. *)
Lemma submit_live_others ths w w' k req i t :
  pool_inv ths w → request_mode req = "replace" →
  superseded w' = superseded w ++ superseded_by req (jobs w) →
  k ≠ i → ths !! i = Some t →
  live w' t ↔ live w t ∧ request_unit t.1 ≠ request_unit req.
Proof.
  intros Hinv Hmode Hs Hne Hi. pose proof (inv_threads _ _ Hinv i t Hi) as Hok.
  destruct t as [req' [| | |conn ch job| |]]; unfold live, thread_ok in *; simpl in *;
    [tauto..| |tauto|tauto].
  rewrite Hs, not_elem_of_app, elem_of_superseded_by. split.
  - intros [H1 H2]. split; [done|]. intros Heq. apply H2.
    by exists (mkJob job req' conn ch).
  - intros [H1 H2]. split; [done|]. intros (j & Hin & Hid & _ & Hunit).
    assert (j = mkJob job req' conn ch) as ->; [|done].
    apply (NoDup_fmap_eq job_id (jobs w)); [|done..].
    apply wf_jobs_nodup, (inv_wf ths), Hinv.
Qed.

(** A step that changes neither the units nor the live threads. *)
Ltac step_same :=
  eapply order_inv_same; [eassumption|eassumption|reflexivity|reflexivity|..];
  unfold live; simpl; tauto.

Section step.
Context (env : Env) (Hres : env_results env (Some "done")).

(** Every step of a thread whose request is in mode [replace] keeps the
    invariant, with the abstract units changed by the request when the step
    is its acceptance. *)
Lemma phase_step_order ths w A k req ph ev ph' w' :
  pool_inv ths w → order_inv ths w A → request_mode req = "replace" →
  ths !! k = Some (req, ph) → phase_step env req ph w = Some (ev, ph', w') →
  order_inv (<[k := (req, ph')]> ths) w'
    (from_option (λ r, job_effect r "done" A) A (event_accepted ev)).
Proof.
  intros Hinv Hord Hmode Hk.
  destruct ph as [| | conn ch|conn ch job| |]; simpl.
  - unfold do_New. destruct (env_connect env w); intros [= <- <- <-]; simpl;
      by step_same.
  - intros [= <- <- <-]. simpl. by step_same.
  - unfold do_submit. case_bool_decide; [destruct (env_submit env w req)|];
      intros [= <- <- <-]; rewrite event_accepted_request; simpl;
      try by step_same.
    eapply order_inv_accept;
      [eassumption|eassumption|reflexivity|unfold live; simpl; tauto| |].
    + apply next_job_not_superseded, (inv_wf ths), Hinv.
    + intros i t. by apply submit_live_others.
  - unfold do_Recv. rewrite (find_job_own _ _ _ _ _ _ _ Hinv Hk).
    destruct (decide (job ∈ superseded w)) as [Hin|Hin].
    + rewrite job_result_superseded by done. intros [= <- <- <-]. simpl. by step_same.
    + rewrite job_result_env, Hres by done. intros [= <- <- <-]. simpl.
      eapply order_inv_done;
        [eassumption|eassumption|reflexivity|reflexivity|done|unfold live; simpl; tauto].
  - intros [= <- <- <-]. simpl. by step_same.
  - done.
Qed.

(** Along the steps of the pool the invariant holds against the abstract
    units changed by the requests accepted, in the order of the steps. *)
Lemma threads_steps_order c ls c' : ∀ A,
  threads_steps env c ls c' → pool_inv c.1 c.2 →
  Forall (λ r, request_mode r = "replace") c.1.*1 →
  order_inv c.1 c.2 A → order_inv c'.1 c'.2 (units_of (accepted ls) A).
Proof.
  intros A Hsteps. revert A.
  induction Hsteps as [|c1 l c2 ls c3 Hstep Hsteps IH]; intros A Hinv Hmodes Hord; [done|].
  pose proof (threads_steps_requests env c1 [l] c2 (lsteps_one _ _ _ _ Hstep)) as Hreqs.
  pose proof (threads_step_inv env _ _ _ Hstep Hinv) as Hinv'.
  rewrite units_of_accepted_cons.
  destruct Hstep as [ths w i req ph ev ph' w' Hi Hstep]. simpl in *.
  assert (request_mode req = "replace") as Hmode.
  { rewrite Forall_forall in Hmodes. apply Hmodes, list_elem_of_fmap.
    exists (req, ph). split; [done|]. by eapply list_elem_of_lookup_2. }
  apply IH; [done|by rewrite Hreqs|by eapply phase_step_order].
Qed.

End step.

(** The invariant when no thread is live: the units are the abstract ones. *)
Lemma order_inv_idle ths w A :
  order_inv ths w A → Forall (λ t, phase_conn t.2 = None) ths → units w = A.
Proof.
  intros Hord Hidle. apply map_eq. intros u. apply (ord_units _ _ _ Hord).
  intros i [req ph] Hi Hlive. rewrite Forall_forall in Hidle.
  apply list_elem_of_lookup_2, Hidle in Hi. by destruct ph.
Qed.

Lemma order_inv_start ths w :
  Forall (λ t, t.2 = Start) ths → order_inv ths w (units w).
Proof.
  rewrite Forall_forall. intros Hstart.
  assert (∀ i t, ths !! i = Some t → ¬ live w t) as Hnot.
  { intros i [req ph] Hi%list_elem_of_lookup_2%Hstart. simpl in Hi. subst ph.
    unfold live. simpl. tauto. }
  split; [intros i t Hi Hl; by destruct (Hnot i t)|
          intros i i' t t' Hi _ Hl; by destruct (Hnot i t)|done].
Qed.

(** ** The requests accepted *)

(** The acceptance of its request adds the request of the thread to those
    accepted; no other step changes them. *)
Lemma phase_step_accepted env ths w k req ph ev ph' w' :
  ths !! k = Some (req, ph) → phase_step env req ph w = Some (ev, ph', w') →
  omap thread_accepted (<[k := (req, ph')]> ths)
  ≡ₚ option_list (event_accepted ev) ++ omap thread_accepted ths.
Proof.
  intros Hk.
  destruct ph; simpl; unfold do_New, do_submit, do_Recv; repeat case_match;
    intros; simplify_eq/=; rewrite ?event_accepted_request; simpl;
    first [by erewrite omap_insert_same | by eapply omap_insert_acquire].
Qed.

Lemma threads_steps_accepted env c ls c' :
  threads_steps env c ls c' →
  omap thread_accepted c'.1 ≡ₚ accepted ls ++ omap thread_accepted c.1.
Proof.
  induction 1 as [|c1 l c2 ls c3 Hstep Hsteps IH]; [done|]. rewrite IH.
  destruct Hstep as [ths w i req ph ev ph' w' Hi Hstep]. simpl.
  rewrite (phase_step_accepted env ths w i req ph ev ph' w') by done.
  unfold accepted. csimpl. destruct (event_accepted ev); simpl; [|done].
  by rewrite Permutation_middle.
Qed.

(** The requests accepted from the calls of a pool that have all returned
    are those of the calls that returned nil. *)
Lemma accepted_succeeded {LR} (ms : list (method LR)) ts ths :
  Forall2 at_phase ts ths → Forall returned ts → ths.*1 = method_request <$> ms →
  omap thread_accepted ths = method_request <$> succeeded ms ts.
Proof.
  intros Hrel. revert ms.
  induction Hrel as [|p [req ph] ts ths Hat _ IH]; intros [|m ms] Hret Hreq; try done.
  apply Forall_cons in Hret as [[ret ->] Hret]. apply at_phase_Ret in Hat.
  simpl in Hat. injection Hreq as -> Hreq. subst ph. csimpl.
  rewrite (IH ms) by done. by destruct ret.
Qed.

Lemma succeeded_sublist {LR} (ms : list (method LR)) ts : succeeded ms ts `sublist_of` ms.
Proof.
  revert ts.
  induction ms as [|m ms IH]; intros [|[[e|]|] ts]; simpl; try by constructor.
  apply sublist_nil_l.
Qed.

(** ** The result that a call receives *)

Section race.
Context (env : Env).

Lemma accepted_cons l ls :
  accepted (l :: ls) = option_list (event_accepted l.2) ++ accepted ls.
Proof. unfold accepted. csimpl. by destruct (event_accepted l.2). Qed.

(** A step of a thread leaves the job of another thread live unless it is
    the acceptance of a request for the same unit. *)
Lemma phase_step_live ths w k req ph ev ph' w' i t :
  pool_inv ths w → request_mode req = "replace" →
  phase_step env req ph w = Some (ev, ph', w') → k ≠ i → ths !! i = Some t →
  live w' t
  ↔ live w t
    ∧ Forall (λ r, request_unit t.1 ≠ request_unit r) (option_list (event_accepted ev)).
Proof.
  intros Hinv Hmode Hstep Hne Hi.
  destruct ph; simpl in Hstep; unfold do_New, do_submit, do_Recv in Hstep;
    repeat case_match; simplify_eq/=; rewrite ?event_accepted_request; simpl;
    rewrite ?Forall_nil, ?Forall_singleton;
    first [by eapply submit_live_others
          |unfold live; destruct t as [? []]; simpl; tauto].
Qed.

(** The job of a request that has just been accepted is live. *)
Lemma phase_step_accept_live w req ph ev ph' w' r :
  wf_world w → phase_step env req ph w = Some (ev, ph', w') →
  event_accepted ev = Some r → r = req ∧ live w' (req, ph').
Proof.
  intros Hwf Hstep.
  destruct ph; simpl in Hstep; unfold do_New, do_submit, do_Recv in Hstep;
    repeat case_match; simplify_eq/=; rewrite ?event_accepted_request; try done.
  intros [= ->]. split; [done|]. by apply next_job_not_superseded.
Qed.

(** While a thread does not step, its job stays live as long as no request
    for its unit is accepted. *)
Lemma threads_steps_live c ls c' i t :
  threads_steps env c ls c' → pool_inv c.1 c.2 →
  Forall (λ r, request_mode r = "replace") c.1.*1 →
  c.1 !! i = Some t → Forall (λ l, l.1 ≠ i) ls →
  c'.1 !! i = Some t
  ∧ (live c'.2 t
     ↔ live c.2 t ∧ Forall (λ r, request_unit t.1 ≠ request_unit r) (accepted ls)).
Proof.
  induction 1 as [c|c1 l c2 ls c3 Hstep Hsteps IH]; intros Hinv Hmodes Hi Hls.
  { split; [done|]. unfold accepted. simpl. rewrite Forall_nil. tauto. }
  pose proof (threads_steps_requests env c1 [l] c2 (lsteps_one _ _ _ _ Hstep)) as Hreqs.
  pose proof (threads_step_inv env _ _ _ Hstep Hinv) as Hinv'.
  apply Forall_cons in Hls as [Hl Hls]. rewrite accepted_cons, Forall_app.
  destruct Hstep as [ths w k req ph ev ph' w' Hk Hstep]. simpl in *.
  assert (request_mode req = "replace") as Hmode.
  { rewrite Forall_forall in Hmodes. apply Hmodes, list_elem_of_fmap.
    exists (req, ph). split; [done|]. by eapply list_elem_of_lookup_2. }
  destruct IH as [Hi' Hlive]; [done|by rewrite Hreqs|by rewrite list_lookup_insert_ne|done|].
  split; [done|]. rewrite Hlive.
  rewrite (phase_step_live ths w k req ph ev ph' w' i t) by done. tauto.
Qed.

(** A thread that has received does not receive again. *)
Lemma threads_steps_received c ls c' i req ph :
  threads_steps env c ls c' → c.1 !! i = Some (req, ph) → received ph →
  ∃ ph', c'.1 !! i = Some (req, ph') ∧ received ph'.
Proof.
  intros Hsteps. revert ph.
  induction Hsteps as [c|c1 l c2 ls c3 Hstep Hsteps IH]; intros ph0 Hi Hph; [by eauto|].
  destruct Hstep as [ths w k req' ph ev ph' w' Hk Hstep]. simpl in *.
  destruct (decide (k = i)) as [->|Hne]; [|by apply (IH ph0); [rewrite list_lookup_insert_ne|]].
  assert (req' = req ∧ ph = ph0) as [-> ->] by (split; congruence). apply (IH ph').
  - by eapply list_lookup_insert_eq, lookup_lt_Some.
  - destruct ph0; simplify_eq/=; done.
Qed.

(** A waiting thread takes no step before its receive. *)
Lemma threads_steps_waiting c ls c' i req conn ch job :
  threads_steps env c ls c' → c.1 !! i = Some (req, Waiting conn ch job) →
  Forall (λ l, l.1 ≠ i) ls ∨ ∃ ph', c'.1 !! i = Some (req, ph') ∧ received ph'.
Proof.
  induction 1 as [c|c1 l c2 ls c3 Hstep Hsteps IH]; intros Hi; [by left|].
  destruct Hstep as [ths w k req' ph ev ph' w' Hk Hstep]. simpl in *.
  destruct (decide (k = i)) as [->|Hne].
  - right. assert (req' = req ∧ ph = Waiting conn ch job) as [-> ->] by (split; congruence).
    simpl in Hstep. destruct (do_Recv env ch w) as [[res w'']|]; simplify_eq/=.
    eapply (threads_steps_received _ _ _ i req _ Hsteps); simpl;
      [by eapply list_lookup_insert_eq, lookup_lt_Some|done].
  - destruct IH as [Hls|Hph]; [by rewrite list_lookup_insert_ne|left|by right].
    by apply Forall_cons.
Qed.

Lemma phase_step_Recv_waiting req ph w ch res ph' w' :
  phase_step env req ph w = Some (EvRecv ch res, ph', w') → ¬ received ph.
Proof.
  destruct ph; simpl; [by destruct (do_New env w)|done|
    by destruct req, (do_submit env _ _ _ w)|tauto|done..].
Qed.

Context (Hres : env_results env (Some "done")).

(** A call receives [done] when its job is live, and [canceled] when it is
    superseded. *)
Lemma phase_step_Recv_result ths w k req ph ch res ph' w' :
  pool_inv ths w → ths !! k = Some (req, ph) →
  phase_step env req ph w = Some (EvRecv ch res, ph', w') →
  res = if decide (live w (req, ph)) then "done" else "canceled".
Proof.
  intros Hinv Hk. destruct ph as [| |conn ch0|conn ch0 job| |]; simpl;
    [by destruct (do_New env w)|done|by destruct req, (do_submit env _ _ _ w)| |done..].
  unfold do_Recv, live. rewrite (find_job_own _ _ _ _ _ _ _ Hinv Hk). simpl.
  case_decide as Hin.
  - rewrite job_result_env, Hres by done. by intros [= _ <- _ _].
  - rewrite job_result_superseded by done. by intros [= _ <- _ _].
Qed.

(** The result that a thread receives, from the steps of the pool between
    the acceptance of its request and its receive. *)
Lemma threads_receive_result c0 ls1 i ev req ls2 ch res c :
  pool_inv c0.1 c0.2 → Forall (λ r, request_mode r = "replace") c0.1.*1 →
  threads_steps env c0 (ls1 ++ (i, ev) :: ls2 ++ [(i, EvRecv ch res)]) c →
  event_accepted ev = Some req →
  res = if decide (Forall (λ r, request_unit req ≠ request_unit r) (accepted ls2))
        then "done" else "canceled".
Proof.
  intros Hinv Hmodes Hsteps Hev.
  apply lsteps_app_inv in Hsteps as (c1 & H1 & (c2 & Hacc & Hsteps)%lsteps_cons_inv).
  apply lsteps_app_inv in Hsteps as (c3 & H2 & Hrecv%lsteps_one_inv).
  pose proof (threads_steps_inv env _ _ _ H1 Hinv) as Hinv1.
  pose proof (threads_step_inv env _ _ _ Hacc Hinv1) as Hinv2.
  pose proof (threads_steps_inv env _ _ _ H2 Hinv2) as Hinv3.
  pose proof (threads_steps_requests env _ _ _ (lsteps_app _ _ _ _ _ _ H1
                (lsteps_one _ _ _ _ Hacc))) as Hreqs.
  inversion Hacc as [ths w k req' ph ev' ph' w' Hk Hstep]; subst. simpl in *.
  destruct (phase_step_accept_live w req' ph ev ph' w' req) as [-> Hlive];
    [by apply (inv_wf ths)|done..|].
  assert (<[i := (req', ph')]> ths !! i = Some (req', ph')) as Hi2
    by by eapply list_lookup_insert_eq, lookup_lt_Some.
  inversion Hrecv as [ths3 w3 k req3 ph3 ev3 ph3' w3' Hk3 Hstep3]; subst.
  assert (Forall (λ l, l.1 ≠ i) ls2) as Hls2.
  { destruct ph' as [| | |conn ch' job| |]; try done.
    destruct (threads_steps_waiting _ _ _ i req' conn ch' job H2 Hi2)
      as [?|(ph4 & Hi3 & Hph)]; [done|]. simpl in *. simplify_eq.
    by destruct (phase_step_Recv_waiting _ _ _ _ _ _ _ Hstep3). }
  destruct (threads_steps_live _ _ _ i (req', ph') H2) as [Hi Hiff]; simpl;
    [done|by rewrite Hreqs|done..|].
  simpl in *. assert (req3 = req' ∧ ph3 = ph') as [-> ->] by (split; congruence).
  rewrite (phase_step_Recv_result _ _ _ _ _ _ _ _ _ Hinv3 Hi Hstep3).
  apply decide_ext. rewrite Hiff. simpl. tauto.
Qed.

End race.

End order.

(** ** The pool of calls *)

Section pool.
Context (env : Env) {LR : Type} (s : SystemdController) (ms : list (method LR)).
Implicit Types (w : World) (ts : list (proc Op (option error))).

(** Both methods submit in mode [replace]. *)
Lemma method_request_mode (m : method LR) : request_mode (method_request m) = "replace".
Proof. by destruct m. Qed.

Lemma calls_threads_modes :
  Forall (λ r, request_mode r = "replace") (calls_threads ms).*1.
Proof.
  rewrite calls_threads_requests. apply Forall_fmap, Forall_forall.
  intros m _. apply method_request_mode.
Qed.

Lemma calls_threads_start : Forall (λ t : thread, t.2 = Start) (calls_threads ms).
Proof. by apply Forall_fmap, Forall_forall. Qed.

Lemma calls_threads_accepted : omap thread_accepted (calls_threads ms) = [].
Proof. unfold calls_threads. induction ms as [|m l IH]; [done|by csimpl]. Qed.

(** In a state that the pool of calls reaches against a manager whose jobs
    end with [done], the invariant holds against the abstract units of the
    requests accepted so far. *)
Lemma pool_reachable_order w0 ls ts w :
  wf_world w0 → NoDup (job_listener <$> jobs w0) → env_results env (Some "done") →
  pool_steps_with env (calls_pool s ms, w0) ls (ts, w) →
  ∃ ths, threads_steps env (calls_threads ms, w0) ls (ths, w)
    ∧ Forall2 at_phase ts ths
    ∧ order_inv ths w (units_of (accepted ls) (units w0)).
Proof.
  intros Hwf Hl Hres Hsteps.
  destruct (pool_reachable env s ms w0 ls ts w Hwf Hl Hsteps) as (ths & Hths & Hrel & _).
  exists ths. split_and!; [done..|].
  apply (threads_steps_order env Hres _ _ _ _ Hths); simpl.
  - by apply calls_threads_inv.
  - apply calls_threads_modes.
  - apply order_inv_start, calls_threads_start.
Qed.

(** The requests accepted from a pool whose calls have all returned are, up
    to their order, the requests of the calls that returned nil. *)
Lemma pool_accepted w0 ls ts ths w :
  threads_steps env (calls_threads ms, w0) ls (ths, w) →
  Forall2 at_phase ts ths → Forall returned ts →
  accepted ls ≡ₚ method_request <$> succeeded ms ts.
Proof.
  intros Hths Hrel Hret.
  rewrite <- (accepted_succeeded ms ts ths Hrel Hret).
  - rewrite (threads_steps_accepted env _ _ _ Hths). simpl.
    by rewrite calls_threads_accepted, app_nil_r.
  - rewrite <- calls_threads_requests. by apply (threads_steps_requests env _ _ _ Hths).
Qed.

(** ** Theorems *)

(** C4: the units that concurrent calls leave are those of the requests
    accepted, executed in the order of their submissions: against a manager
    whose jobs end with [done] unless they are superseded, when every call of
    the pool has returned, the loaded units are the units of the start changed
    by every accepted request in turn, whatever the order of the receives. A
    later request on the same unit cancels the job of an earlier one, and the
    call of the earlier one returns nil all the same: each unit is as the
    last request accepted for it leaves it, and as it was at the start when
    no request for it was accepted. *)
Theorem pool_units_in_submission_order w0 ls ts w :
  wf_world w0 → NoDup (job_listener <$> jobs w0) → env_results env (Some "done") →
  pool_steps_with env (calls_pool s ms, w0) ls (ts, w) → Forall returned ts →
  units w = units_of (accepted ls) (units w0)
  ∧ ∀ u, units w !! u
         = from_option unit_after (units w0 !! u)
             (last (filter (λ r, request_unit r = u) (accepted ls))).
Proof.
  intros Hwf Hl Hres Hsteps Hret.
  destruct (pool_reachable_order w0 ls ts w Hwf Hl Hres Hsteps) as (ths & _ & Hrel & Hord).
  rewrite (order_inv_idle ths w _ Hord (at_phase_all_returned ts ths Hrel Hret)).
  split; [done|]. intros u. apply units_of_lookup.
Qed.

(** C15: concurrent calls on different units are independent: when the
    requests of the calls of a pool name pairwise different units and every
    job ends with [done], the units that the pool leaves when every call has
    returned are those that the calls that returned nil leave when they are
    made one after the other, whatever the interleaving. *)
Theorem pool_independent_units w0 ls ts w :
  wf_world w0 → NoDup (job_listener <$> jobs w0) → env_results env (Some "done") →
  NoDup (request_unit ∘ method_request <$> ms) →
  pool_steps_with env (calls_pool s ms, w0) ls (ts, w) → Forall returned ts →
  units w = units_after (succeeded ms ts) (units w0).
Proof.
  intros Hwf Hl Hres Hnd Hsteps Hret.
  destruct (pool_reachable_order w0 ls ts w Hwf Hl Hres Hsteps)
    as (ths & Hths & Hrel & Hord).
  rewrite (order_inv_idle ths w _ Hord (at_phase_all_returned ts ths Hrel Hret)).
  pose proof (pool_accepted w0 ls ts ths w Hths Hrel Hret) as Hp.
  rewrite units_after_units_of. apply units_of_Permutation; [done|].
  rewrite Hp, <- list_fmap_compose.
  eapply sublist_NoDup; [exact Hnd|]. apply fmap_sublist, succeeded_sublist.
Qed.

(** C16: the result that a call receives under concurrency: against a manager
    whose jobs end with [done], a call whose request was accepted receives
    [done] when no request for the same unit is accepted between the
    acceptance and its receive, and [canceled] when one is: the later request
    has replaced its job. *)
Theorem pool_receive_result w0 ls1 i ev req ls2 ch res c :
  wf_world w0 → NoDup (job_listener <$> jobs w0) → env_results env (Some "done") →
  pool_steps_with env (calls_pool s ms, w0)
    (ls1 ++ (i, ev) :: ls2 ++ [(i, EvRecv ch res)]) c →
  event_accepted ev = Some req →
  res = if decide (Forall (λ r, request_unit req ≠ request_unit r) (accepted ls2))
        then "done" else "canceled".
Proof.
  intros Hwf Hl Hres Hsteps.
  destruct (pool_steps_simulation env (calls_threads ms) (calls_pool s ms, w0) _ c
              (calls_pool_at_phase s ms) Hsteps) as (ths & Hths & _).
  apply (threads_receive_result env Hres (calls_threads ms, w0) _ _ _ _ _ _ _ _
           (calls_threads_inv ms w0 Hwf Hl) calls_threads_modes Hths).
Qed.

End pool.

(** ** The theorems at the sample pools *)

Lemma pool_units_in_submission_order_witness :
  units (sample_pool_end ∅ [1%Z]) = units_of (accepted sample_labels) (units init_world)
  ∧ ∀ u, units (sample_pool_end ∅ [1%Z]) !! u
         = from_option unit_after (units init_world !! u)
             (last (filter (λ r, request_unit r = u) (accepted sample_labels))).
Proof.
  exact (pool_units_in_submission_order env_done sample_controller sample_calls init_world
           sample_labels _ _ wf_init NoDup_nil_2 (λ _ _, eq_refl) sample_pool_steps
           sample_pool_returned).
Defined.

Lemma sample_distinct_steps :
  pool_steps_with env_done (calls_pool sample_controller sample_distinct, init_world)
    sample_distinct_labels ([Ret None; Ret None], sample_distinct_end).
Proof. apply (pool_run_with_steps _ sched_in_turn). vm_compute. reflexivity. Qed.

Lemma pool_independent_units_witness :
  units sample_distinct_end
  = units_after (succeeded sample_distinct [Ret None; Ret None]) (units init_world).
Proof.
  apply (pool_independent_units env_done sample_controller sample_distinct init_world
           sample_distinct_labels [Ret None; Ret None] sample_distinct_end);
    [apply wf_init|apply NoDup_nil_2|done|by apply (bool_decide_unpack _)|
     apply sample_distinct_steps|apply sample_pool_returned].
Defined.

Lemma sample_superseded_steps :
  pool_steps_with env_done sample_pool sample_superseded_labels sample_superseded.
Proof. apply (pool_run_with_steps _ sched_superseded). vm_compute. reflexivity. Qed.

Lemma pool_receive_result_witness :
  "canceled"
  = if decide (Forall (λ r, request_unit (method_request sample_call) ≠ request_unit r)
                 (accepted (take 1 (drop 5 sample_superseded_labels))))
    then "done" else "canceled".
Proof.
  apply (pool_receive_result env_done sample_controller sample_calls init_world
           (take 4 sample_superseded_labels) 0
           (request_event 0 0 (method_request sample_call) (Ok 1%Z))
           (method_request sample_call) (take 1 (drop 5 sample_superseded_labels))
           0 "canceled" sample_superseded);
    [apply wf_init|apply NoDup_nil_2|done|apply sample_superseded_steps|done].
Defined.
