(* ===== verification/PoolSerial.v ===== *)
(** Serializability of concurrent calls.

    Against a manager that accepts every connection and every request and
    whose jobs end with [done] unless they are superseded, a pool of
    concurrent [Create] and [Delete] calls whose calls have all returned has
    done what the same calls do when they are made one after the other in the
    order in which their requests were accepted: every call has returned
    nil, as in the sequential run, and the loaded units, the open connections
    and the job table are those that the sequential run leaves. The
    acceptance of its request is the point at which a call takes effect. *)

From Stdlib Require Import Ascii ZArith.
From stdpp Require Import gmap.
From S2P Require Import Prelude GoStrings FilePath Naming Proc Dbus Controller Protocol Manager Runs Pool PoolEffect PoolOrder.

#[local] Open Scope go_scope.

(** The error that a call in a phase is going to return, if any. *)
Definition phase_error (ph : phase) : option error :=
  match ph with
  | Closing _ ret | Returned ret => ret
  | _ => None
  end.

(** ** Calls against a manager that accepts *)

Section accepts.
Context (env : Env) (Hacc : env_accepts env).
Implicit Types (w : World) (ths : list thread) (ph : phase).

(** No step of a call leads to an error. *)
Lemma phase_step_no_error ths w k req ph ev ph' w' :
  pool_inv ths w → ths !! k = Some (req, ph) → phase_error ph = None →
  phase_step env req ph w = Some (ev, ph', w') → phase_error ph' = None.
Proof.
  intros Hinv Hk Hph. destruct Hacc as [Hc Hs].
  destruct (pool_inv_thread _ _ _ _ _ Hinv Hk) as (_ & Hopen & _).
  destruct ph as [|conn|conn ch|conn ch job|conn ret|ret]; simpl in *.
  - unfold do_New. rewrite Hc. by intros [= <- <- <-].
  - by intros [= <- <- <-].
  - unfold do_submit. rewrite bool_decide_eq_true_2, Hs by by apply Hopen.
    by intros [= <- <- <-].
  - destruct (do_Recv env ch w) as [[res w'']|]; [|done]. by intros [= <- <- <-].
  - by intros [= <- <- <-].
  - done.
Qed.

Lemma threads_steps_no_error c ls c' :
  threads_steps env c ls c' → pool_inv c.1 c.2 →
  Forall (λ t, phase_error t.2 = None) c.1 → Forall (λ t, phase_error t.2 = None) c'.1.
Proof.
  induction 1 as [c|c1 l c2 ls c3 Hstep Hsteps IH]; intros Hinv Hno; [done|].
  pose proof (threads_step_inv env _ _ _ Hstep Hinv) as Hinv'.
  apply IH; [done|]. destruct Hstep as [ths w k req ph ev ph' w' Hk Hstep]. simpl in *.
  apply Forall_insert; [done|]. simpl.
  apply (phase_step_no_error ths w k req ph ev ph' w' Hinv Hk); [|done].
  rewrite Forall_forall in Hno. by apply (Hno (req, ph)), list_elem_of_lookup_2 with k.
Qed.

End accepts.

(** The calls of a pool that have all returned nil. *)
Lemma all_returned_nil (ts : list (proc Op (option error))) ths :
  Forall2 at_phase ts ths → Forall returned ts →
  Forall (λ t : thread, phase_error t.2 = None) ths →
  ts = replicate (length ths) (Ret None).
Proof.
  induction 1 as [|p t ts ths Hat _ IH]; [done|].
  intros [[ret ->] Hts]%Forall_cons [Hno Hths]%Forall_cons. simpl.
  rewrite <- IH by done. apply at_phase_Ret in Hat. rewrite Hat in Hno. simpl in Hno.
  by subst ret.
Qed.

Lemma succeeded_all {LR} (ms : list (method LR)) :
  succeeded ms (replicate (length ms) (Ret None)) = ms.
Proof. induction ms as [|m ms IH]; simpl; by rewrite ?IH. Qed.

(** ** The pool of calls *)

Section pool.
Context (env : Env) {LR : Type} (s : SystemdController) (ms : list (method LR)).
Context (Hacc : env_accepts env) (Hres : env_results env (Some "done")).

(** Every call of a pool that has run to its end has returned nil. *)
Lemma pool_returns_nil w0 ls ts w :
  wf_world w0 → NoDup (job_listener <$> jobs w0) →
  pool_steps_with env (calls_pool s ms, w0) ls (ts, w) → Forall returned ts →
  ts = replicate (length ms) (Ret None).
Proof.
  intros Hwf Hl Hsteps Hret.
  destruct (pool_reachable env s ms w0 ls ts w Hwf Hl Hsteps) as (ths & Hths & Hrel & _).
  assert (length ths = length ms) as <-.
  { pose proof (threads_steps_requests env _ _ _ Hths) as Hreqs. simpl in Hreqs.
    rewrite <- (length_fmap fst ths), Hreqs. by rewrite calls_threads_requests, length_fmap. }
  apply all_returned_nil; [done..|].
  apply (threads_steps_no_error env Hacc _ _ _ Hths); simpl.
  - by apply calls_threads_inv.
  - by apply Forall_fmap, Forall_forall.
Qed.

(** The calls in the order in which their requests were accepted, and
    their sequential run. *)
Lemma pool_serial_run w0 ls ts w :
  wf_world w0 → NoDup (job_listener <$> jobs w0) →
  pool_steps_with env (calls_pool s ms, w0) ls (ts, w) → Forall returned ts →
  ∃ ms' tr w',
    ms' ≡ₚ ms ∧ method_request <$> ms' = accepted ls
    ∧ run_with env (calls s ms') w0 = (tr, Done (replicate (length ms') None) w')
    ∧ units w' = units w ∧ conns w' = conns w ∧ jobs w' = jobs w.
Proof.
  intros Hwf Hl Hsteps Hret.
  destruct (pool_reachable_order env s ms w0 ls ts w Hwf Hl Hres Hsteps)
    as (ths & Hths & Hrel & Hord).
  pose proof (pool_accepted env ms w0 ls ts ths w Hths Hrel Hret) as Hp.
  rewrite (pool_returns_nil w0 ls ts w Hwf Hl Hsteps Hret), succeeded_all in Hp.
  apply Permutation_fmap_inv in Hp as (ms' & Hreq & Hp).
  destruct (calls_run_done env s ms' w0 Hwf Hacc Hres) as (tr & w' & Hrun & Hu).
  destruct (calls_run_Done env s ms' w0 tr _ w' Hwf Hrun) as (_ & Hc & Hj & _).
  destruct (pool_reachable_free env s ms w0 ls ts w Hwf Hl Hsteps)
    as (ths' & Hrel' & Hfc & Hfj & _).
  destruct (free_idle ths' w (at_phase_all_returned ts ths' Hrel' Hret)) as [Hfc' Hfj'].
  exists ms', tr, w'. split_and!; [done..| |congruence|congruence].
  rewrite Hu, units_after_units_of, <- Hreq.
  symmetry. by apply (order_inv_idle ths), (at_phase_all_returned ts).
Qed.

(** ** Theorems *)

(** C5: concurrent calls are serializable: against a manager that accepts
    every request and whose jobs end with [done] unless they are superseded,
    when every call of a pool has returned, every call has returned nil, and
    the calls made one after the other in the order in which their requests
    were accepted return nil as well and leave the same loaded units, the
    same open connections and the same job table. *)
Theorem pool_serializable w0 ls ts w :
  wf_world w0 → NoDup (job_listener <$> jobs w0) →
  pool_steps_with env (calls_pool s ms, w0) ls (ts, w) → Forall returned ts →
  ts = replicate (length ms) (Ret None)
  ∧ ∃ ms' tr w',
      ms' ≡ₚ ms ∧ method_request <$> ms' = accepted ls
      ∧ run_with env (calls s ms') w0 = (tr, Done (replicate (length ms') None) w')
      ∧ units w' = units w ∧ conns w' = conns w ∧ jobs w' = jobs w.
Proof. intros. split; [by eapply pool_returns_nil|by eapply pool_serial_run]. Qed.

End pool.

(** ** The theorem at the sample pool *)

Lemma pool_serializable_witness :
  ([Ret None; Ret None] : list (proc Op (option error)))
  = replicate (length sample_calls) (Ret None)
  ∧ ∃ ms' tr w',
      ms' ≡ₚ sample_calls ∧ method_request <$> ms' = accepted sample_labels
      ∧ run_with env_done (calls sample_controller ms') init_world
        = (tr, Done (replicate (length ms') None) w')
      ∧ units w' = units (sample_pool_end ∅ [1%Z])
      ∧ conns w' = conns (sample_pool_end ∅ [1%Z])
      ∧ jobs w' = jobs (sample_pool_end ∅ [1%Z]).
Proof.
  exact (pool_serializable env_done sample_controller sample_calls env_done_accepts
           (λ _ _, eq_refl) init_world sample_labels _ _ wf_init NoDup_nil_2
           sample_pool_steps sample_pool_returned).
Defined.
